(** * bimap: a bijective map on two splay trees over shared records

    Shallow embedding of [bimap.h].  A [node_t] lives in a heap indexed by
    its address; [node_t *] is [option ptr] with [None] for [nullptr].
    Dereferencing [nullptr] or a dangling address is undefined behaviour
    and is modelled by the computation returning [None]; loops and
    recursive descents take a [fuel] bound and also return [None] when it
    runs out. *)

From stdpp Require Import base option list gmap sorting.
From Stdlib Require Import ZArith Lia.

(** ** Data model *)

(** Address of a live [node_t]. *)
Definition ptr := positive.

(** Address of a [bimap] object (the [tree] field of a cursor). *)
Definition addr := positive.

(** [struct tree_node_t { node_t *left, *right, *parent; }] *)
Record tree_node_t := TreeNode {
  tn_left : option ptr;
  tn_right : option ptr;
  tn_parent : option ptr
}.

(** [tree_node_t() : left(nullptr), right(nullptr), parent(nullptr)] *)
Definition tree_node_new : tree_node_t := TreeNode None None None.

Global Instance tree_node_eq_dec : EqDecision tree_node_t.
Proof. solve_decision. Defined.

(** [struct node_t]: both values and both linkage triples in one record. *)
Record node_t (Left Right : Type) := Node_t {
  left_value : Left;
  right_value : Right;
  left_tree_data : tree_node_t;
  right_tree_data : tree_node_t
}.
Arguments Node_t {Left Right} _ _ _ _.
Arguments left_value {Left Right} _.
Arguments right_value {Left Right} _.
Arguments left_tree_data {Left Right} _.
Arguments right_tree_data {Left Right} _.

(** [node_t(L left_value, R right_value)] *)
Definition node_new {Left Right} (l : Left) (r : Right) : node_t Left Right :=
  Node_t l r tree_node_new tree_node_new.

(** A side descriptor ([left_descriptor_t], [right_descriptor_t]): which
    linkage triple and which value of a record a tree algorithm works on.
    The C++ accessors return references; [tree_data] reads the triple and
    [with_tree_data] writes it back. *)
Record descriptor (Left Right V : Type) := Descriptor {
  tree_data : node_t Left Right → tree_node_t;
  with_tree_data : tree_node_t → node_t Left Right → node_t Left Right;
  value : node_t Left Right → V
}.
Arguments Descriptor {Left Right V} _ _ _.
Arguments tree_data {Left Right V} _ _.
Arguments with_tree_data {Left Right V} _ _ _.
Arguments value {Left Right V} _ _.

Definition left_descriptor_t {Left Right} : descriptor Left Right Left :=
  Descriptor left_tree_data
    (λ tn n, Node_t (left_value n) (right_value n) tn (right_tree_data n))
    left_value.

Definition right_descriptor_t {Left Right} : descriptor Left Right Right :=
  Descriptor right_tree_data
    (λ tn n, Node_t (left_value n) (right_value n) (left_tree_data n) tn)
    right_value.

(** ** State and undefined-behaviour monad *)

Definition M (S A : Type) : Type := S → option (A * S).

Definition ret {S A} (a : A) : M S A := λ s, Some (a, s).

Definition bind {S A B} (m : M S A) (k : A → M S B) : M S B :=
  λ s, match m s with
       | Some (a, s') => k a s'
       | None => None
       end.

(** Undefined behaviour, or fuel exhausted. *)
Definition undef {S A} : M S A := λ _, None.

Definition get {S} : M S S := λ s, Some (s, s).
Definition put {S} (s : S) : M S unit := λ _, Some (tt, s).

Global Instance M_ret {S} : MRet (M S) := @ret S.
Global Instance M_bind {S} : MBind (M S) := λ A B k m, bind m k.

(** [a && b] with C++ short-circuit evaluation. *)
Definition and_then {S} (a b : M S bool) : M S bool :=
  x ← a; if (x : bool) then b else ret false.

(** [e == v] and [e != v] on pointers. *)
Definition is_ptr {S} (e : M S (option ptr)) (v : option ptr) : M S bool :=
  x ← e; ret (bool_decide (x = v)).
Definition is_not_ptr {S} (e : M S (option ptr)) (v : option ptr) : M S bool :=
  x ← e; ret (bool_decide (x ≠ v)).

(** What a [T const &] parameter is bound to: an object of the caller,
    outside the records, or one of the values stored in the record at
    [p] ([peek] picks the left or the right one). *)
Inductive reference (Left Right V : Type) :=
  | Outside (v : V)
  | Inside (p : ptr) (peek : Left → Right → V).
Arguments Outside {Left Right V} _.
Arguments Inside {Left Right V} _ _.

Section engine.
Context {Left Right : Type}.

Abbreviation node := (node_t Left Right).
Abbreviation heap := (gmap ptr node).
Abbreviation H := (M heap).

(** *** Field access through a descriptor *)

(** Reading the record a [node_t *] points to. *)
Definition deref (t : option ptr) : H node :=
  λ h, match t with
       | Some p => match h !! p with
                   | Some n => Some (n, h)
                   | None => None
                   end
       | None => None
       end.

(** Overwriting the record a [node_t *] points to. *)
Definition modify (t : option ptr) (f : node → node) : H unit :=
  λ h, match t with
       | Some p => match h !! p with
                   | Some n => Some (tt, <[p := f n]> h)
                   | None => None
                   end
       | None => None
       end.

Section descriptor.
Context {V : Type} (d : descriptor Left Right V).

(** [Descriptor::left(t)], [::right(t)], [::parent(t)], [::value(t)]
    read as rvalues. *)
Definition get_left (t : option ptr) : H (option ptr) :=
  n ← deref t; ret (tn_left (tree_data d n)).
Definition get_right (t : option ptr) : H (option ptr) :=
  n ← deref t; ret (tn_right (tree_data d n)).
Definition get_parent (t : option ptr) : H (option ptr) :=
  n ← deref t; ret (tn_parent (tree_data d n)).
Definition get_value (t : option ptr) : H V :=
  n ← deref t; ret (value d n).

(** [Descriptor::left(t) = v], [::right(t) = v], [::parent(t) = v]. *)
Definition put_left (t v : option ptr) : H unit :=
  modify t (λ n, let tn := tree_data d n in
                 with_tree_data d (TreeNode v (tn_right tn) (tn_parent tn)) n).
Definition put_right (t v : option ptr) : H unit :=
  modify t (λ n, let tn := tree_data d n in
                 with_tree_data d (TreeNode (tn_left tn) v (tn_parent tn)) n).
Definition put_parent (t v : option ptr) : H unit :=
  modify t (λ n, let tn := tree_data d n in
                 with_tree_data d (TreeNode (tn_left tn) (tn_right tn) v) n).

(** [set_parent<Descriptor>(t, p)] *)
Definition set_parent (t p : option ptr) : H unit :=
  match t with
  | Some _ => put_parent t p
  | None => ret tt
  end.

(** [rotate_left<Descriptor>(x, p)] *)
Definition rotate_left (x p : option ptr) : H (option ptr) :=
  q ← get_parent p;
  (match q with
      | Some _ =>
          lq ← get_left q;
          if bool_decide (lq = p) then put_left q x else put_right q x
      | None => ret tt
      end);;
  pp ← get_parent p;
  put_parent x pp;;
  put_parent p x;;
  lx ← get_left x;
  put_right p lx;;
  lx' ← get_left x;
  set_parent lx' p;;
  put_left x p;;
  ret x.

(** [rotate_right<Descriptor>(x, p)] *)
Definition rotate_right (x p : option ptr) : H (option ptr) :=
  q ← get_parent p;
  (match q with
      | Some _ =>
          lq ← get_left q;
          if bool_decide (lq = p) then put_left q x else put_right q x
      | None => ret tt
      end);;
  pp ← get_parent p;
  put_parent x pp;;
  put_parent p x;;
  rx ← get_right x;
  put_left p rx;;
  rx' ← get_right x;
  set_parent rx' p;;
  put_right x p;;
  ret x.

(** One iteration of the loop body of [splay], for [t] whose parent
    [p] is not null. *)
Definition splay_step (t p : option ptr) : H (option ptr) :=
  pp ← get_parent p;
  if bool_decide (pp = None) then
    rp ← get_right p;
    if bool_decide (t = rp) then rotate_left t p else rotate_right t p
  else
    g ← get_parent p;
    c1 ← and_then (is_ptr (get_left g) p) (is_ptr (get_left p) t);
    if (c1 : bool) then
      p' ← rotate_right p g;
      rotate_right t p'
    else
      c2 ← and_then (is_ptr (get_right g) p) (is_ptr (get_right p) t);
      if (c2 : bool) then
        p' ← rotate_left p g;
        rotate_left t p'
      else
        c3 ← and_then (is_ptr (get_left g) p) (is_ptr (get_right p) t);
        if (c3 : bool) then
          t' ← rotate_left t p;
          rotate_right t' g
        else
          t' ← rotate_right t p;
          rotate_left t' g.

(** [while (Descriptor::parent(t) != nullptr) { ... }] *)
Fixpoint splay_loop (fuel : nat) (t : option ptr) : H (option ptr) :=
  p ← get_parent t;
  match p with
  | None => ret t
  | Some _ =>
      match fuel with
      | O => undef
      | S fuel' => t' ← splay_step t p; splay_loop fuel' t'
      end
  end.

(** [splay<Descriptor>(t)] *)
Definition splay (fuel : nat) (t : option ptr) : H (option ptr) :=
  match t with
  | None => ret None
  | Some _ => splay_loop fuel t
  end.

(** [sink_left<Descriptor>(t)] *)
Fixpoint sink_left (fuel : nat) (t : option ptr) : H (option ptr) :=
  l ← get_left t;
  match l with
  | None => ret t
  | Some _ =>
      match fuel with
      | O => undef
      | S fuel' => sink_left fuel' l
      end
  end.

(** [sink_right<Descriptor>(t)] *)
Fixpoint sink_right (fuel : nat) (t : option ptr) : H (option ptr) :=
  r ← get_right t;
  match r with
  | None => ret t
  | Some _ =>
      match fuel with
      | O => undef
      | S fuel' => sink_right fuel' r
      end
  end.

(** [minimum<Descriptor>(node)] *)
Definition minimum (fuel : nat) (t : option ptr) : H (option ptr) :=
  m ← sink_left fuel t; splay fuel m.

(** [next<Descriptor>(node)]: the [for] loop climbing to the first
    ancestor reached from its left child. *)
Fixpoint next_climb (fuel : nat) (t : option ptr) : H (option ptr) :=
  p ← get_parent t;
  match p with
  | None => ret None
  | Some _ =>
      lp ← get_left p;
      if bool_decide (lp = t) then ret p
      else match fuel with
           | O => undef
           | S fuel' => next_climb fuel' p
           end
  end.

Definition next (fuel : nat) (t : option ptr) : H (option ptr) :=
  r ← get_right t;
  match r with
  | Some _ => sink_left fuel r
  | None => next_climb fuel t
  end.

(** [previous<Descriptor>(node)] has no embedding.  Its body calls
    [sink_right(Descriptor::left(node))] without a template argument,
    and [sink_right]'s only template parameter cannot be deduced from a
    [node_t const *]: the function template is ill-formed for every
    descriptor, so no program can call it. *)

Context (compare : V → V → bool).

(** [find<Descriptor>(t, x, compare)]: [k] bounds the depth of the
    recursive descent, [fuel] the final [splay]. *)
Fixpoint find_from (fuel k : nat) (t : option ptr) (x : V) : H (option ptr) :=
  match t with
  | None => ret None
  | Some _ =>
      go_left ← and_then (v ← get_value t; ret (compare x v))
                         (is_not_ptr (get_left t) None);
      if (go_left : bool) then
        match k with
        | O => undef
        | S k' => l ← get_left t; find_from fuel k' l x
        end
      else
        go_right ← and_then (v ← get_value t; ret (compare v x))
                            (is_not_ptr (get_right t) None);
        if (go_right : bool) then
          match k with
          | O => undef
          | S k' => r ← get_right t; find_from fuel k' r x
          end
        else splay fuel t
  end.

Definition find (fuel : nat) (t : option ptr) (x : V) : H (option ptr) :=
  find_from fuel fuel t x.

(** [split<Descriptor>(t, x, compare)] *)
Definition split (fuel : nat) (t : option ptr) (x : V)
  : H (option ptr * option ptr) :=
  match t with
  | None => ret (None, None)
  | Some _ =>
      t' ← find fuel t x;
      v ← get_value t';
      if negb (compare x v) then
        q ← get_right t';
        set_parent q None;;
        put_right t' None;;
        ret (t', q)
      else
        q ← get_left t';
        set_parent q None;;
        put_left t' None;;
        ret (q, t')
  end.

(** [merge<Descriptor>(a, b, compare)] *)
Definition merge (fuel : nat) (a b : option ptr) : H (option ptr) :=
  match a with
  | None => ret b
  | Some _ =>
      match b with
      | None => ret a
      | Some _ =>
          va ← get_value a;
          b' ← find fuel b va;
          put_left b' a;;
          set_parent a b';;
          ret b'
      end
  end.
End descriptor.

(** Reading through a reference; undefined when its record is freed. *)
Definition load {V} (key : reference Left Right V) : H V :=
  match key with
  | Outside v => ret v
  | Inside p peek => n ← deref (Some p); ret (peek (left_value n) (right_value n))
  end.

(** [new node_t(left, right)]: one allocation at an address not in use. *)
Definition new_node (l : Left) (r : Right) : H (option ptr) :=
  λ h, let p := fresh (dom h) in Some (Some p, <[p := node_new l r]> h).

(** [delete t] *)
Definition delete_node (t : option ptr) : H unit :=
  λ h, match t with
       | None => Some (tt, h)
       | Some p => match h !! p with
                   | Some _ => Some (tt, delete p h)
                   | None => None
                   end
       end.
End engine.

(** ** The container object *)

(** The data members of [bimap]. *)
Record bimap (Left Right : Type) := Bimap {
  left_root : option ptr;
  right_root : option ptr;
  left_compare : Left → Left → bool;
  right_compare : Right → Right → bool;
  elements_count : Z
}.
Arguments Bimap {Left Right} _ _ _ _ _.
Arguments left_root {Left Right} _.
Arguments right_root {Left Right} _.
Arguments left_compare {Left Right} _.
Arguments right_compare {Left Right} _.
Arguments elements_count {Left Right} _.

(** [size_t] is 64 bits wide. *)
Definition size_max : Z := (2 ^ 64)%Z.

(** A parameter of type [node_t *&]: every call site binds it to one of
    the two root members of [*this]. *)
Inductive root_ref := ref_left_root | ref_right_root.

(** [std::out_of_range] *)
Inductive exception := out_of_range.

(** A call either returns or leaves by an exception. *)
Inductive outcome (A : Type) := Returned (a : A) | Thrown (e : exception).
Arguments Returned {A} _.
Arguments Thrown {A} _.

(** [basic_iterator<MainDescriptor, FlipDescriptor, MainType, FlipType>] *)
Record basic_iterator {Left Right MainType FlipType : Type}
    (MainDescriptor : descriptor Left Right MainType)
    (FlipDescriptor : descriptor Left Right FlipType) := Iterator {
  tree : addr;
  node : option ptr
}.
Arguments Iterator {Left Right MainType FlipType} _ _ _ _.
Arguments tree {Left Right MainType FlipType MainDescriptor FlipDescriptor} _.
Arguments node {Left Right MainType FlipType MainDescriptor FlipDescriptor} _.

Section container.
Context {Left Right : Type} `{EqDecision Left, EqDecision Right}.

Abbreviation node_ := (node_t Left Right).
Abbreviation heap_ := (gmap ptr node_).
Abbreviation bimap_ := (bimap Left Right).
Abbreviation H := (M heap_).
(** Member functions run on the heap and on [*this]. *)
Abbreviation C := (M (heap_ * bimap_)).

Definition lift {A} (m : H A) : C A :=
  λ s, match m s.1 with
       | Some (a, h') => Some (a, (h', s.2))
       | None => None
       end.

Definition this_ : C bimap_ := λ s, Some (s.2, s).

Definition read_root (r : root_ref) : C (option ptr) :=
  b ← this_;
  ret (match r with
       | ref_left_root => left_root b
       | ref_right_root => right_root b
       end).

Definition write_root (r : root_ref) (v : option ptr) : C unit :=
  λ s, let b := s.2 in
       Some (tt, (s.1,
         match r with
         | ref_left_root =>
             Bimap v (right_root b) (left_compare b) (right_compare b) (elements_count b)
         | ref_right_root =>
             Bimap (left_root b) v (left_compare b) (right_compare b) (elements_count b)
         end)).

Definition read_count : C Z := b ← this_; ret (elements_count b).

Definition write_count (c : Z) : C unit :=
  λ s, let b := s.2 in
       Some (tt, (s.1,
         Bimap (left_root b) (right_root b) (left_compare b) (right_compare b) c)).

(** *** Cursors *)

Section iterator.
Context {MainType FlipType : Type}
  (MainDescriptor : descriptor Left Right MainType)
  (FlipDescriptor : descriptor Left Right FlipType).

Abbreviation iterator := (basic_iterator MainDescriptor FlipDescriptor).

(** [basic_iterator::increment] *)
Definition increment (fuel : nat) (it : iterator) : H iterator :=
  n ← next MainDescriptor fuel (node it);
  ret (Iterator MainDescriptor FlipDescriptor (tree it) n).

(** [basic_iterator::decrement], and with it both [operator--], has no
    embedding either: its [else] branch instantiates
    [previous<MainDescriptor>], so it compiles for no cursor.  (Its
    [then] branch, [sink_right<MainDescriptor>(tree->left_root)], starts
    from the Left root whatever the side of the cursor.) *)

(** [basic_iterator::operator*] *)
Definition star (it : iterator) : H MainType :=
  get_value MainDescriptor (node it).

(** [basic_iterator::operator==] and [operator!=] *)
Definition iterator_eq (it other : iterator) : bool :=
  bool_decide (tree it = tree other) && bool_decide (node it = node other).
Definition iterator_ne (it other : iterator) : bool :=
  negb (iterator_eq it other).

(** [basic_iterator::flip] *)
Definition flip (it : iterator) : basic_iterator FlipDescriptor MainDescriptor :=
  Iterator FlipDescriptor MainDescriptor (tree it) (node it).
End iterator.

Definition left_iterator : Type :=
  basic_iterator (@left_descriptor_t Left Right) (@right_descriptor_t Left Right).
Definition right_iterator : Type :=
  basic_iterator (@right_descriptor_t Left Right) (@left_descriptor_t Left Right).

(** *** Static helpers taking roots by reference *)

Section one_side.
Context {FirstType : Type}
  (FirstDescriptor : descriptor Left Right FirstType).

(** [insert<Descriptor>(root, new_node, compare)] *)
Definition insert_node (fuel : nat) (root : root_ref) (new_node : option ptr)
    (compare : FirstType → FirstType → bool) : C unit :=
  r ← read_root root;
  v ← lift (get_value FirstDescriptor new_node);
  p ← lift (split FirstDescriptor compare fuel r v);
  write_root root new_node;;
  r1 ← read_root root;
  lift (put_left FirstDescriptor r1 p.1);;
  r2 ← read_root root;
  lift (put_right FirstDescriptor r2 p.2);;
  r3 ← read_root root;
  lift (set_parent FirstDescriptor p.1 r3);;
  r4 ← read_root root;
  lift (set_parent FirstDescriptor p.2 r4).

(** [erase<Descriptor>(root, compare)] *)
Definition erase (fuel : nat) (root : root_ref)
    (compare : FirstType → FirstType → bool) : C (option ptr) :=
  r ← read_root root;
  l ← lift (get_left FirstDescriptor r);
  lift (set_parent FirstDescriptor l None);;
  r' ← lift (get_right FirstDescriptor r);
  lift (set_parent FirstDescriptor r' None);;
  a ← lift (get_left FirstDescriptor r);
  b ← lift (get_right FirstDescriptor r);
  new_root ← lift (merge FirstDescriptor compare fuel a b);
  result ← read_root root;
  write_root root new_root;;
  ret result.

(** [lower_bound<Descriptor>(root, x, compare)] *)
Definition lower_bound (fuel : nat) (root : root_ref) (x : FirstType)
    (compare : FirstType → FirstType → bool) : C (option ptr) :=
  r ← read_root root;
  f ← lift (find FirstDescriptor compare fuel r x);
  write_root root f;;
  match f with
  | Some _ =>
      v ← lift (get_value FirstDescriptor f);
      if negb (compare v x) then ret f
      else
        rr ← lift (get_right FirstDescriptor f);
        match rr with
        | Some _ =>
            m ← lift (minimum FirstDescriptor fuel rr);
            write_root root m;;
            ret m
        | None => ret None
        end
  | None => ret None
  end.

(** [upper_bound<Descriptor>(root, x, compare)] *)
Definition upper_bound (fuel : nat) (root : root_ref) (x : FirstType)
    (compare : FirstType → FirstType → bool) : C (option ptr) :=
  r ← read_root root;
  f ← lift (find FirstDescriptor compare fuel r x);
  write_root root f;;
  match f with
  | Some _ =>
      v ← lift (get_value FirstDescriptor f);
      if compare x v then ret f
      else
        rr ← lift (get_right FirstDescriptor f);
        match rr with
        | Some _ =>
            m ← lift (minimum FirstDescriptor fuel rr);
            write_root root m;;
            ret m
        | None => ret None
        end
  | None => ret None
  end.

End one_side.

Section two_sides.
Context {FirstType SecondType : Type} `{EqDecision FirstType}
  (FirstDescriptor : descriptor Left Right FirstType)
  (SecondDescriptor : descriptor Left Right SecondType).

(** [find_element<Descriptor, Iterator>(root, desired, compare)] *)
Definition find_element (this : addr) (fuel : nat) (root : root_ref)
    (desired : FirstType) (compare : FirstType → FirstType → bool)
  : C (basic_iterator FirstDescriptor SecondDescriptor) :=
  r ← read_root root;
  found ← lift (find FirstDescriptor compare fuel r desired);
  match found with
  | Some _ =>
      write_root root found;;
      r' ← read_root root;
      v ← lift (get_value FirstDescriptor r');
      if bool_decide (v = desired)
      then ret (Iterator FirstDescriptor SecondDescriptor this r')
      else ret (Iterator FirstDescriptor SecondDescriptor this None)
  | None => ret (Iterator FirstDescriptor SecondDescriptor this None)
  end.

(** [at_element<FirstDescriptor, SecondDescriptor>(root, key, compare)] *)
Definition at_element (fuel : nat) (root : root_ref) (key : FirstType)
    (compare : FirstType → FirstType → bool) : C (outcome SecondType) :=
  r ← read_root root;
  f ← lift (find FirstDescriptor compare fuel r key);
  write_root root f;;
  match f with
  | None => ret (Thrown out_of_range)
  | Some _ =>
      v ← lift (get_value FirstDescriptor f);
      if bool_decide (v = key)
      then w ← lift (get_value SecondDescriptor f); ret (Returned w)
      else ret (Thrown out_of_range)
  end.

(** [erase_root<FirstDescriptor, SecondDescriptor>] *)
Definition erase_root (fuel : nat) (first_root second_root : root_ref)
    (first_compare : FirstType → FirstType → bool)
    (second_compare : SecondType → SecondType → bool) : C unit :=
  excess ← erase FirstDescriptor fuel first_root first_compare;
  erase SecondDescriptor fuel second_root second_compare;;
  lift (delete_node excess);;
  c ← read_count;
  write_count ((c - 1) `mod` size_max)%Z.

(** [erase_element<FirstDescriptor, SecondDescriptor>] *)
Definition erase_element (fuel : nat) (first_root second_root : root_ref)
    (key : FirstType)
    (first_compare : FirstType → FirstType → bool)
    (second_compare : SecondType → SecondType → bool) : C unit :=
  r ← read_root first_root;
  f ← lift (find FirstDescriptor first_compare fuel r key);
  write_root first_root f;;
  r1 ← read_root first_root;
  s ← lift (splay SecondDescriptor fuel r1);
  write_root second_root s;;
  hit ← and_then (is_not_ptr (read_root first_root) None)
                 (r2 ← read_root first_root;
                  v ← lift (get_value FirstDescriptor r2);
                  ret (bool_decide (v = key)));
  if (hit : bool)
  then erase_root fuel first_root second_root first_compare second_compare
  else ret tt.
End two_sides.

(** [at_element_or_default<FirstDescriptor, SecondDescriptor>];
    [default_value] is [SecondType()] and [insert_function] the closure
    over [*this] and [key] the caller passes.  [key] is a reference:
    [find] and [==] read through it before anything is freed, and
    [insert_function] reads through it again after [erase_element]. *)
Definition at_element_or_default {FirstType SecondType : Type}
    `{EqDecision FirstType, EqDecision SecondType}
    (FirstDescriptor : descriptor Left Right FirstType)
    (SecondDescriptor : descriptor Left Right SecondType)
    (fuel : nat) (first_root second_root : root_ref)
    (key : reference Left Right FirstType)
    (first_compare : FirstType → FirstType → bool)
    (second_compare : SecondType → SecondType → bool)
    (default_value : SecondType) (insert_function : C unit) : C SecondType :=
  r ← read_root first_root;
  k ← lift (load key);
  f ← lift (find FirstDescriptor first_compare fuel r k);
  write_root first_root f;;
  hit ← and_then (is_not_ptr (read_root first_root) None)
                 (r1 ← read_root first_root;
                  v ← lift (get_value FirstDescriptor r1);
                  k' ← lift (load key);
                  ret (bool_decide (v = k')));
  if (hit : bool) then
    r2 ← read_root first_root;
    lift (get_value SecondDescriptor r2)
  else
    erase_element SecondDescriptor FirstDescriptor fuel second_root first_root
      default_value second_compare first_compare;;
    insert_function;;
    r3 ← read_root second_root;
    lift (get_value SecondDescriptor r3).

(** *** Member functions *)

Abbreviation LD := (@left_descriptor_t Left Right).
Abbreviation RD := (@right_descriptor_t Left Right).

(** [bimap(LeftComparator, RightComparator)] *)
Definition bimap_new (lc : Left → Left → bool) (rc : Right → Right → bool)
  : bimap_ := Bimap None None lc rc 0%Z.

(** [insert_by_values(left, right)] *)
Definition insert_by_values (fuel : nat) (l : Left) (r : Right)
  : C (option ptr) :=
  b ← this_;
  lr ← lift (find LD (left_compare b) fuel (left_root b) l);
  write_root ref_left_root lr;;
  b1 ← this_;
  rr ← lift (find RD (right_compare b1) fuel (right_root b1) r);
  write_root ref_right_root rr;;
  b2 ← this_;
  free_l ← (match left_root b2 with
            | None => ret true
            | Some _ =>
                v ← lift (get_value LD (left_root b2));
                ret (negb (bool_decide (v = l)))
            end);
  ok ← and_then (ret free_l)
         (match right_root b2 with
          | None => ret true
          | Some _ =>
              v ← lift (get_value RD (right_root b2));
              ret (negb (bool_decide (v = r)))
          end);
  if (ok : bool) then
    n ← lift (new_node l r);
    insert_node LD fuel ref_left_root n (left_compare b2);;
    insert_node RD fuel ref_right_root n (right_compare b2);;
    c ← read_count;
    write_count ((c + 1) `mod` size_max)%Z;;
    read_root ref_left_root
  else ret None.

(** [size()] and [empty()] *)
Definition size (b : bimap_) : Z := elements_count b.
Definition empty (b : bimap_) : bool := bool_decide (elements_count b = 0%Z).

Section members.
Context (this : addr) (fuel : nat).

(** [begin_left()], [end_left()], [begin_right()], [end_right()]:
    [const] members, reading [*this] as [b]. *)
Definition begin_left (b : bimap_) : H left_iterator :=
  n ← sink_left LD fuel (left_root b);
  ret (Iterator LD RD this n).
Definition end_left : left_iterator := Iterator LD RD this None.
Definition begin_right (b : bimap_) : H right_iterator :=
  n ← sink_left RD fuel (right_root b);
  ret (Iterator RD LD this n).
Definition end_right : right_iterator := Iterator RD LD this None.

(** [find_left(desired)], [find_right(desired)] *)
Definition find_left (desired : Left) : C left_iterator :=
  b ← this_;
  find_element LD RD this fuel ref_left_root desired (left_compare b).
Definition find_right (desired : Right) : C right_iterator :=
  b ← this_;
  find_element RD LD this fuel ref_right_root desired (right_compare b).

(** [insert(left, right)], all four overloads *)
Definition insert (l : Left) (r : Right) : C left_iterator :=
  n ← insert_by_values fuel l r;
  ret (Iterator LD RD this n).

(** [erase_left(Left const &)], [erase_right(Right const &)] *)
Definition erase_left_key (key : Left) : C bool :=
  previous_elements_count ← read_count;
  b ← this_;
  erase_element LD RD fuel ref_left_root ref_right_root key
    (left_compare b) (right_compare b);;
  c ← read_count;
  ret (bool_decide (c < previous_elements_count)%Z).

(** [erase_left(left_iterator const &)],
    [erase_right(right_iterator const &)] *)
Definition erase_left (it : left_iterator) : C left_iterator :=
  l ← lift (splay LD fuel (node it));
  write_root ref_left_root l;;
  r ← lift (splay RD fuel (node it));
  write_root ref_right_root r;;
  b ← this_;
  erase_root LD RD fuel ref_left_root ref_right_root
    (left_compare b) (right_compare b);;
  l' ← read_root ref_left_root;
  ret (Iterator LD RD this l').
Definition erase_right (it : right_iterator) : C right_iterator :=
  l ← lift (splay LD fuel (node it));
  write_root ref_left_root l;;
  r ← lift (splay RD fuel (node it));
  write_root ref_right_root r;;
  b ← this_;
  erase_root RD LD fuel ref_right_root ref_left_root
    (right_compare b) (left_compare b);;
  r' ← read_root ref_right_root;
  ret (Iterator RD LD this r').


(** [lower_bound_left], [upper_bound_left], [lower_bound_right],
    [upper_bound_right] *)
Definition lower_bound_left (v : Left) : C left_iterator :=
  b ← this_;
  n ← lower_bound LD fuel ref_left_root v (left_compare b);
  ret (Iterator LD RD this n).
Definition upper_bound_left (v : Left) : C left_iterator :=
  b ← this_;
  n ← upper_bound LD fuel ref_left_root v (left_compare b);
  ret (Iterator LD RD this n).
Definition lower_bound_right (v : Right) : C right_iterator :=
  b ← this_;
  n ← lower_bound RD fuel ref_right_root v (right_compare b);
  ret (Iterator RD LD this n).
Definition upper_bound_right (v : Right) : C right_iterator :=
  b ← this_;
  n ← upper_bound RD fuel ref_right_root v (right_compare b);
  ret (Iterator RD LD this n).

(** [at_left(key)], [at_right(key)] *)
Definition at_left (key : Left) : C (outcome Right) :=
  b ← this_;
  at_element LD RD fuel ref_left_root key (left_compare b).
Definition at_right (key : Right) : C (outcome Left) :=
  b ← this_;
  at_element RD LD fuel ref_right_root key (right_compare b).

(** [at_left_or_default(key)], [at_right_or_default(key)];
    [default_right] is [Right()] and [default_left] is [Left()].  The
    closure [insert_function] captures [key] by reference and copies it
    into the by-value parameter of [insert_by_values] when it runs. *)
Context (default_left : Left) (default_right : Right).

Definition at_left_or_default (key : reference Left Right Left) : C Right :=
  b ← this_;
  at_element_or_default LD RD fuel ref_left_root ref_right_root key
    (left_compare b) (right_compare b) default_right
    (k ← lift (load key); insert_by_values fuel k default_right;; ret tt).
Definition at_right_or_default (key : reference Left Right Right) : C Left :=
  b ← this_;
  at_element_or_default RD LD fuel ref_right_root ref_left_root key
    (right_compare b) (left_compare b) default_left
    (k ← lift (load key); insert_by_values fuel default_left k;; ret tt).
End members.

(** *** Construction, assignment, destruction, comparison *)

(** The loop of the copy constructor; [*this] is the container under
    construction, [other] the address of the source and [n] bounds the
    number of iterations. *)
Fixpoint copy_loop (other : addr) (fuel n : nat) (it : left_iterator)
  : C unit :=
  if iterator_ne LD RD it (end_left other) then
    match n with
    | O => undef
    | S n' =>
        l ← lift (star LD RD it);
        r ← lift (star RD LD (flip LD RD it));
        b ← this_;
        lr ← lift (find LD (left_compare b) fuel (left_root b) l);
        write_root ref_left_root lr;;
        b1 ← this_;
        rr ← lift (find RD (right_compare b1) fuel (right_root b1) r);
        write_root ref_right_root rr;;
        nn ← lift (new_node l r);
        b2 ← this_;
        insert_node LD fuel ref_left_root nn (left_compare b2);;
        insert_node RD fuel ref_right_root nn (right_compare b2);;
        it' ← lift (increment LD RD fuel it);
        copy_loop other fuel n' it'
    end
  else ret tt.

(** [bimap(bimap const & other)]; returns the new container. *)
Definition bimap_copy (other_addr : addr) (fuel n : nat) (other : bimap_)
  : H bimap_ :=
  λ h,
    let init := Bimap None None (left_compare other) (right_compare other)
                      (elements_count other) in
    match begin_left other_addr fuel other h with
    | Some (it, h1) =>
        match copy_loop other_addr fuel n it (h1, init) with
        | Some (_, (h2, b)) => Some (b, h2)
        | None => None
        end
    | None => None
    end.

(** [bimap(bimap && other)]: the body runs on a [*this] whose pointer
    and count members were not initialised; [this] stands for whatever
    they hold.  Returns the new container and what is left of [other]. *)
Definition bimap_move (this other : bimap_) : bimap_ * bimap_ :=
  let this1 := Bimap (left_root other) (right_root this)
                 (left_compare this) (right_compare this) (elements_count this) in
  let other1 := Bimap None (right_root other)
                  (left_compare other) (right_compare other) (elements_count other) in
  let this2 := Bimap (left_root other1) (right_root this1)
                 (left_compare this1) (right_compare this1) (elements_count this1) in
  let other2 := Bimap None (right_root other1)
                  (left_compare other1) (right_compare other1) (elements_count other1) in
  let this3 := Bimap (left_root this2) (right_root this2)
                 (left_compare other2) (right_compare this2) (elements_count this2) in
  let this4 := Bimap (left_root this3) (right_root this3)
                 (left_compare this3) (right_compare other2) (elements_count this3) in
  let this5 := Bimap (left_root this4) (right_root this4)
                 (left_compare this4) (right_compare this4) (elements_count other2) in
  let other3 := Bimap (left_root other2) (right_root other2)
                  (left_compare other2) (right_compare other2) 0%Z in
  (this5, other3).

(** [swap(other)] *)
Definition swap (this other : bimap_) : bimap_ * bimap_ := (other, this).

(** [~bimap()]: the recursive [dfs] over the left tree. *)
Fixpoint dfs (fuel : nat) (t : option ptr) : H unit :=
  match t with
  | None => ret tt
  | Some _ =>
      match fuel with
      | O => undef
      | S fuel' =>
          l ← get_left LD t;
          dfs fuel' l;;
          r ← get_right LD t;
          dfs fuel' r;;
          delete_node t
      end
  end.
Definition bimap_destroy (fuel : nat) (b : bimap_) : H unit :=
  dfs fuel (left_root b).

(** [operator=(bimap other)]: [other] is the by-value parameter, which
    is destroyed when the call returns. *)
Definition assign (fuel : nat) (this other : bimap_) : H bimap_ :=
  let '(this', other') := swap this other in
  bimap_destroy fuel other';; ret this'.

(** [operator=(bimap && other)] *)
Definition assign_move (this other : bimap_) : bimap_ * bimap_ :=
  swap this other.

(** The loop of [operator==]. *)
Fixpoint equal_loop (this : addr) (fuel n : nat)
    (first second : left_iterator) : H bool :=
  if iterator_ne LD RD first (end_left this) then
    match n with
    | O => undef
    | S n' =>
        a ← star LD RD first;
        b ← star LD RD second;
        if negb (bool_decide (a = b)) then ret false
        else
          first' ← increment LD RD fuel first;
          second' ← increment LD RD fuel second;
          equal_loop this fuel n' first' second'
    end
  else ret true.

(** [operator==(other)] and [operator!=(other)] *)
Definition bimap_eq (this_addr other_addr : addr) (fuel n : nat)
    (this other : bimap_) : H bool :=
  if negb (bool_decide (size this = size other)) then ret false
  else
    first ← begin_left this_addr fuel this;
    second ← begin_left other_addr fuel other;
    equal_loop this_addr fuel n first second.
Definition bimap_ne (this_addr other_addr : addr) (fuel n : nat)
    (this other : bimap_) : H bool :=
  e ← bimap_eq this_addr other_addr fuel n this other; ret (negb e).
End container.

(** ** Sample containers of integers *)

(** The empty container of integers ordered by [<], on an empty heap. *)
Definition start : gmap ptr (node_t Z Z) * bimap Z Z :=
  (∅, bimap_new Z.ltb Z.ltb).

(** The heap and the container that [insert(1, 20)] followed by
    [insert(2, 10)] leave: record 2 is the root of both trees, record 1
    its left child in the Left tree and its right child in the Right tree. *)
Definition two_heap : gmap ptr (node_t Z Z) :=
  {[ 1%positive := Node_t 1%Z 20%Z
                     (TreeNode None None (Some 2%positive))
                     (TreeNode None None (Some 2%positive));
     2%positive := Node_t 2%Z 10%Z
                     (TreeNode (Some 1%positive) None None)
                     (TreeNode None (Some 1%positive) None) ]}.
Definition two_bimap : bimap Z Z :=
  Bimap (Some 2%positive) (Some 2%positive) Z.ltb Z.ltb 2%Z.

Abbreviation LDz := (@left_descriptor_t Z Z).
Abbreviation RDz := (@right_descriptor_t Z Z).

(** The heap and the container that the copy constructor makes of
    [two_bimap] on [two_heap]: the records 3 and 4 are the copies of the
    records 1 and 2, which are still there. *)
Definition four_heap : gmap ptr (node_t Z Z) :=
  {[ 1%positive := Node_t 1%Z 20%Z
                     (TreeNode None None (Some 2%positive))
                     (TreeNode None None (Some 2%positive));
     2%positive := Node_t 2%Z 10%Z
                     (TreeNode (Some 1%positive) None None)
                     (TreeNode None (Some 1%positive) None);
     3%positive := Node_t 1%Z 20%Z
                     (TreeNode None None (Some 4%positive))
                     (TreeNode None None (Some 4%positive));
     4%positive := Node_t 2%Z 10%Z
                     (TreeNode (Some 3%positive) None None)
                     (TreeNode None (Some 3%positive) None) ]}.
Definition copy_bimap : bimap Z Z :=
  Bimap (Some 4%positive) (Some 4%positive) Z.ltb Z.ltb 2%Z.

(** Integers compared by absolute value: a strict weak order in which 1
    and -1 are equivalent although they are not [==]. *)
Definition absltb (a b : Z) : bool := (Z.abs a <? Z.abs b)%Z.

(** The empty container whose Left comparator is [absltb]. *)
Definition abs_start : gmap ptr (node_t Z Z) * bimap Z Z :=
  (∅, bimap_new absltb Z.ltb).

(** The heap and the container that [insert(1, 20)] followed by
    [insert(-1, 10)] leave when the Left comparator is [absltb]: record 2
    is the root of both trees, record 1 its left child in the Left tree
    and its right child in the Right tree. *)
Definition abs_heap : gmap ptr (node_t Z Z) :=
  {[ 1%positive := Node_t 1%Z 20%Z
                     (TreeNode None None (Some 2%positive))
                     (TreeNode None None (Some 2%positive));
     2%positive := Node_t (-1)%Z 10%Z
                     (TreeNode (Some 1%positive) None None)
                     (TreeNode None (Some 1%positive) None) ]}.
Definition abs_bimap : bimap Z Z :=
  Bimap (Some 2%positive) (Some 2%positive) absltb Z.ltb 2%Z.

(** ** Reasoning about monadic code *)

(** [wp m s Q]: the computation [m] started in [s] returns (no undefined
    behaviour, enough fuel) with a result and final state satisfying [Q]. *)
Definition wp {S A} (m : M S A) (s : S) (Q : A → S → Prop) : Prop :=
  ∃ a s', m s = Some (a, s') ∧ Q a s'.

Section wp.
Context {S : Type}.

Lemma wp_ret {A} (a : A) (s : S) Q : Q a s → wp (mret a) s Q.
Proof. intros HQ. exists a, s. done. Qed.

Lemma wp_ret' {A} (a : A) (s : S) Q : Q a s → wp (ret a) s Q.
Proof. intros HQ. exists a, s. done. Qed.

Lemma wp_bind {A B} (m : M S A) (k : A → M S B) s Q :
  wp m s (λ a s', wp (k a) s' Q) → wp (m ≫= k) s Q.
Proof.
  intros (a & s' & Hm & b & s'' & Hk & HQ). exists b, s''.
  split; [|done]. unfold mbind, M_bind, bind. by rewrite Hm.
Qed.

Lemma wp_mono {A} (m : M S A) s (Q Q' : A → S → Prop) :
  wp m s Q → (∀ a s', Q a s' → Q' a s') → wp m s Q'.
Proof. intros (a & s' & Hm & HQ) HQQ'. exists a, s'. auto. Qed.

Lemma wp_run {A} (m : M S A) s a s' (Q : A → S → Prop) :
  m s = Some (a, s') → Q a s' → wp m s Q.
Proof. intros. by exists a, s'. Qed.

Lemma wp_inv {A} (m : M S A) s a s' (Q : A → S → Prop) :
  wp m s Q → m s = Some (a, s') → Q a s'.
Proof. intros (a' & s'' & Hm & HQ) Hm'. congruence. Qed.

Lemma wp_and_then (a b : M S bool) s Q :
  wp a s (λ x s', if x then wp b s' Q else Q false s') → wp (and_then a b) s Q.
Proof.
  intros Ha. unfold and_then. apply wp_bind. eapply wp_mono; [exact Ha|].
  intros [] s' HQ; [done|]. by apply wp_ret.
Qed.

Lemma wp_is_ptr (e : M S (option ptr)) v s Q :
  wp e s (λ x s', Q (bool_decide (x = v)) s') → wp (is_ptr e v) s Q.
Proof.
  intros He. unfold is_ptr. apply wp_bind. eapply wp_mono; [exact He|].
  intros x s' HQ. by apply wp_ret.
Qed.

Lemma wp_is_not_ptr (e : M S (option ptr)) v s Q :
  wp e s (λ x s', Q (bool_decide (x ≠ v)) s') → wp (is_not_ptr e v) s Q.
Proof.
  intros He. unfold is_not_ptr. apply wp_bind. eapply wp_mono; [exact He|].
  intros x s' HQ. by apply wp_ret.
Qed.
End wp.

(** ** Descriptor laws *)

(** What the tree algorithms rely on: a descriptor reads back the linkage
    it wrote and never touches the value it exposes. *)
Class DescriptorLaws {Left Right V} (d : descriptor Left Right V) := {
  tree_data_with : ∀ tn n, tree_data d (with_tree_data d tn n) = tn;
  value_with : ∀ tn n, value d (with_tree_data d tn n) = value d n;
  with_with : ∀ tn tn' n,
    with_tree_data d tn (with_tree_data d tn' n) = with_tree_data d tn n;
  with_same : ∀ n, with_tree_data d (tree_data d n) n = n
}.

(** Writing through [d1] leaves what [d2] reads untouched. *)
Class Independent {Left Right V1 V2}
    (d1 : descriptor Left Right V1) (d2 : descriptor Left Right V2) := {
  tree_data_other : ∀ tn n, tree_data d2 (with_tree_data d1 tn n) = tree_data d2 n;
  value_other : ∀ tn n, value d2 (with_tree_data d1 tn n) = value d2 n
}.

Global Instance left_descriptor_laws {Left Right} :
  DescriptorLaws (@left_descriptor_t Left Right).
Proof. split; try done. by intros []. Qed.

Global Instance right_descriptor_laws {Left Right} :
  DescriptorLaws (@right_descriptor_t Left Right).
Proof. split; try done. by intros []. Qed.

Global Instance left_right_independent {Left Right} :
  Independent (@left_descriptor_t Left Right) (@right_descriptor_t Left Right).
Proof. by split. Qed.

Global Instance right_left_independent {Left Right} :
  Independent (@right_descriptor_t Left Right) (@left_descriptor_t Left Right).
Proof. by split. Qed.

(** Membership in a list built from [::] and [++], from an assumption. *)
Ltac mem :=
  first [ assumption
        | apply list_elem_of_here
        | apply list_elem_of_further; mem
        | apply elem_of_app; first [ left; mem | right; mem ]
        | progress simpl; mem ].

(** Two memberships that the parts of a [NoDup] exclude. *)
Ltac clash :=
  match goal with
  | H : ?z ∉ _ |- _ => apply H; mem
  | H : ∀ x, x ∈ _ → x ∉ _, Hy : ?z ∈ _ |- _ => apply (H z); mem
  | H : ∀ x, x ∈ _ → x ∉ _, z : ptr |- _ => apply (H z); mem
  end.

Ltac split_mem :=
  repeat match goal with
         | H : _ ∈ _ ++ _ |- _ => apply elem_of_app in H as [H|H]
         | H : _ ∈ _ :: _ |- _ => apply elem_of_cons in H as [H|H]
         | H : _ ∈ [] |- _ => apply elem_of_nil in H; destruct H
         | H : _ ∈ _ |- _ => progress simpl in H
         end.

(** Distinctness and non-membership goals. *)
Ltac disj :=
  repeat match goal with
         | |- _ ≠ _ => intros ?
         | |- _ ∉ _ => intros ?
         end;
  split_mem; subst; clash.

(** Inclusion in a list described by an equivalence in the context. *)
Ltac incl :=
  let y := fresh "y" in
  let Hy := fresh "Hy" in
  intros y Hy;
  match goal with
  | H : ∀ z, z ∈ ?S ↔ _ |- _ ∈ ?S => apply H
  | _ => idtac
  end;
  split_mem; subst; mem.

(** ** The heap seen from one side *)

Section heap_view.
Context {Left Right V : Type} (d : descriptor Left Right V).

Abbreviation heap := (gmap ptr (node_t Left Right)).

(** The linkage triples of one side. *)
Definition lk (h : heap) : gmap ptr tree_node_t := tree_data d <$> h.

(** The value of one side stored at an address. *)
Definition key (h : heap) (p : ptr) : option V := value d <$> h !! p.

(** [h'] has the records of [h], with nothing but the linkage of side
    [d] rewritten. *)
Definition relinked (h h' : heap) : Prop :=
  ∀ p, match h !! p, h' !! p with
       | Some n, Some n' => n' = with_tree_data d (tree_data d n') n
       | None, None => True
       | _, _ => False
       end.

(** ... and only at the addresses in [S]. *)
Definition frame (S : list ptr) (h h' : heap) : Prop :=
  relinked h h' ∧ ∀ p, p ∉ S → h' !! p = h !! p.

Lemma frame_weaken S S' h h' : S ⊆ S' → frame S h h' → frame S' h h'.
Proof. intros HS [Hr Ho]. split; [done|]. intros p Hp. apply Ho. set_solver. Qed.

Context `{!DescriptorLaws d}.

Lemma relinked_refl h : relinked h h.
Proof. intros p. destruct (h !! p); [|done]. by rewrite with_same. Qed.

Lemma relinked_trans h1 h2 h3 : relinked h1 h2 → relinked h2 h3 → relinked h1 h3.
Proof.
  intros H12 H23 p. specialize (H12 p). specialize (H23 p).
  destruct (h1 !! p), (h2 !! p), (h3 !! p); try done.
  rewrite H23 at 1. rewrite H12. by rewrite with_with.
Qed.

Lemma frame_refl S h : frame S h h.
Proof. split; [apply relinked_refl|done]. Qed.

Lemma frame_trans S h1 h2 h3 : frame S h1 h2 → frame S h2 h3 → frame S h1 h3.
Proof.
  intros [H12 G12] [H23 G23]. split; [by eapply relinked_trans|].
  intros p Hp. rewrite G23, G12; done.
Qed.

Lemma frame_key S h h' p : frame S h h' → key h' p = key h p.
Proof.
  intros [Hr _]. specialize (Hr p). unfold key.
  destruct (h !! p), (h' !! p); try done. simpl. by rewrite Hr, value_with.
Qed.

Lemma frame_is_Some S h h' p : frame S h h' → is_Some (h' !! p) ↔ is_Some (h !! p).
Proof.
  intros [Hr _]. specialize (Hr p).
  destruct (h !! p), (h' !! p); try done; split; intros [? ?]; done.
Qed.

Lemma frame_dom S h h' : frame S h h' → dom h' = dom h.
Proof.
  intros Hf. apply set_eq. intros p. rewrite !elem_of_dom.
  by eapply frame_is_Some.
Qed.

Lemma frame_lk_outside S h h' p : frame S h h' → p ∉ S → lk h' !! p = lk h !! p.
Proof. intros [_ Ho] Hp. unfold lk. by rewrite !lookup_fmap, Ho. Qed.

Lemma frame_other {V2} (d2 : descriptor Left Right V2) `{!Independent d d2} S h h' :
  frame S h h' → tree_data d2 <$> h' = tree_data d2 <$> h.
Proof.
  intros [Hr _]. apply map_eq. intros p. rewrite !lookup_fmap.
  specialize (Hr p). destruct (h !! p), (h' !! p); try done. simpl.
  by rewrite Hr, tree_data_other.
Qed.

Lemma frame_other_value {V2} (d2 : descriptor Left Right V2) `{!Independent d d2}
    S h h' p :
  frame S h h' → value d2 <$> h' !! p = value d2 <$> h !! p.
Proof.
  intros [Hr _]. specialize (Hr p). destruct (h !! p), (h' !! p); try done.
  simpl. by rewrite Hr, value_other.
Qed.

Lemma lk_Some h p tn :
  lk h !! p = Some tn ↔ ∃ n, h !! p = Some n ∧ tree_data d n = tn.
Proof.
  unfold lk. rewrite lookup_fmap. destruct (h !! p) as [n|]; simpl; split.
  - intros [= <-]. eauto.
  - intros (n' & [= <-] & <-). done.
  - done.
  - intros (? & ? & ?). done.
Qed.

Lemma key_Some h p v :
  key h p = Some v ↔ ∃ n, h !! p = Some n ∧ value d n = v.
Proof.
  unfold key. destruct (h !! p) as [n|]; simpl; split.
  - intros [= <-]. eauto.
  - intros (n' & [= <-] & <-). done.
  - done.
  - intros (? & ? & ?). done.
Qed.

(** *** Rules for the field accesses *)

Lemma wp_get_left h p tn Q :
  lk h !! p = Some tn → Q (tn_left tn) h → wp (get_left d (Some p)) h Q.
Proof.
  intros (n & Hn & <-)%lk_Some HQ. eapply wp_run; [|exact HQ].
  unfold get_left, mbind, M_bind, bind, deref. by rewrite Hn.
Qed.

Lemma wp_get_right h p tn Q :
  lk h !! p = Some tn → Q (tn_right tn) h → wp (get_right d (Some p)) h Q.
Proof.
  intros (n & Hn & <-)%lk_Some HQ. eapply wp_run; [|exact HQ].
  unfold get_right, mbind, M_bind, bind, deref. by rewrite Hn.
Qed.

Lemma wp_get_parent h p tn Q :
  lk h !! p = Some tn → Q (tn_parent tn) h → wp (get_parent d (Some p)) h Q.
Proof.
  intros (n & Hn & <-)%lk_Some HQ. eapply wp_run; [|exact HQ].
  unfold get_parent, mbind, M_bind, bind, deref. by rewrite Hn.
Qed.

Lemma wp_get_value h p v Q :
  key h p = Some v → Q v h → wp (get_value d (Some p)) h Q.
Proof.
  intros (n & Hn & <-)%key_Some HQ. eapply wp_run; [|exact HQ].
  unfold get_value, mbind, M_bind, bind, deref. by rewrite Hn.
Qed.

Lemma wp_modify_links h p tn tn' (f : node_t Left Right → node_t Left Right) Q :
  lk h !! p = Some tn →
  (∀ n, tree_data d n = tn → f n = with_tree_data d tn' n) →
  (∀ h', lk h' = <[p := tn']> (lk h) → frame [p] h h' → Q tt h') →
  wp (modify (Some p) f) h Q.
Proof.
  intros (n & Hn & Htn)%lk_Some Hf HQ.
  eapply wp_run; [unfold modify; by rewrite Hn|].
  rewrite (Hf n Htn). apply HQ.
  - unfold lk. by rewrite fmap_insert, tree_data_with.
  - split.
    + intros q. destruct (decide (q = p)) as [->|Hne].
      * rewrite Hn, lookup_insert_eq. by rewrite tree_data_with.
      * rewrite lookup_insert_ne by done. apply relinked_refl.
    + intros q Hq. rewrite lookup_insert_ne; [done|]. set_solver.
Qed.

Lemma wp_put_left h p tn v Q :
  lk h !! p = Some tn →
  (∀ h', lk h' = <[p := TreeNode v (tn_right tn) (tn_parent tn)]> (lk h) →
         frame [p] h h' → Q tt h') →
  wp (put_left d (Some p) v) h Q.
Proof.
  intros Hp HQ. eapply wp_modify_links; [exact Hp| |exact HQ].
  by intros n <-.
Qed.

Lemma wp_put_right h p tn v Q :
  lk h !! p = Some tn →
  (∀ h', lk h' = <[p := TreeNode (tn_left tn) v (tn_parent tn)]> (lk h) →
         frame [p] h h' → Q tt h') →
  wp (put_right d (Some p) v) h Q.
Proof.
  intros Hp HQ. eapply wp_modify_links; [exact Hp| |exact HQ].
  by intros n <-.
Qed.

Lemma wp_put_parent h p tn v Q :
  lk h !! p = Some tn →
  (∀ h', lk h' = <[p := TreeNode (tn_left tn) (tn_right tn) v]> (lk h) →
         frame [p] h h' → Q tt h') →
  wp (put_parent d (Some p) v) h Q.
Proof.
  intros Hp HQ. eapply wp_modify_links; [exact Hp| |exact HQ].
  by intros n <-.
Qed.
End heap_view.

(** ** Tree shapes *)

(** The shape of one side's tree: which record sits where. *)
Inductive shape := Leaf | Node (l : shape) (x : ptr) (r : shape).

Fixpoint inorder (t : shape) : list ptr :=
  match t with
  | Leaf => []
  | Node l x r => inorder l ++ x :: inorder r
  end.

Definition root (t : shape) : option ptr :=
  match t with
  | Leaf => None
  | Node _ x _ => Some x
  end.

(** The linkage [m] holds the shape [t] below a node whose parent field
    is [par]. *)
Fixpoint trep (m : gmap ptr tree_node_t) (par : option ptr) (t : shape) : Prop :=
  match t with
  | Leaf => True
  | Node l x r =>
      m !! x = Some (TreeNode (root l) (root r) par) ∧
      trep m (Some x) l ∧ trep m (Some x) r
  end.

(** One step of the path from a node up to the root: the node hangs to
    the left of [p], whose right subtree is [r], or to the right of [p],
    whose left subtree is [l]. *)
Inductive crumb := LeftOf (p : ptr) (r : shape) | RightOf (l : shape) (p : ptr).

(** The path from a subtree up to the root, nearest ancestor first. *)
Definition path := list crumb.

Fixpoint plug (t : shape) (c : path) : shape :=
  match c with
  | [] => t
  | LeftOf p r :: c' => plug (Node t p r) c'
  | RightOf l p :: c' => plug (Node l p t) c'
  end.

(** The parent of the subtree at the end of the path. *)
Definition cpar (c : path) : option ptr :=
  match c with
  | [] => None
  | LeftOf p _ :: _ => Some p
  | RightOf _ p :: _ => Some p
  end.

(** The records before and after the subtree, in order. *)
Fixpoint before (c : path) : list ptr :=
  match c with
  | [] => []
  | LeftOf _ _ :: c' => before c'
  | RightOf l p :: c' => before c' ++ inorder l ++ [p]
  end.

Fixpoint after (c : path) : list ptr :=
  match c with
  | [] => []
  | LeftOf p r :: c' => p :: inorder r ++ after c'
  | RightOf _ _ :: c' => after c'
  end.

(** The linkage [m] holds the path [c] above a subtree rooted at [hole]. *)
Fixpoint crep (m : gmap ptr tree_node_t) (c : path) (hole : option ptr) : Prop :=
  match c with
  | [] => True
  | LeftOf p r :: c' =>
      m !! p = Some (TreeNode hole (root r) (cpar c')) ∧
      trep m (Some p) r ∧ crep m c' (Some p)
  | RightOf l p :: c' =>
      m !! p = Some (TreeNode (root l) hole (cpar c')) ∧
      trep m (Some p) l ∧ crep m c' (Some p)
  end.

(** The root [merge] leaves, given the record sequences of its two
    arguments: the first record of the second sequence when neither is
    empty, otherwise the root of the tree that is not empty. *)
Definition merged_root (a c : list ptr) (rt : option ptr) : Prop :=
  match a, c with
  | [], [] => rt = None
  | [], _ :: _ => ∃ p, rt = Some p ∧ p ∈ c
  | _ :: _, [] => ∃ p, rt = Some p ∧ p ∈ a
  | _ :: _, y :: _ => rt = Some y
  end.

Section shapes.
Implicit Types (m : gmap ptr tree_node_t) (t : shape) (c : path).

Lemma inorder_plug t c : inorder (plug t c) = before c ++ inorder t ++ after c.
Proof.
  revert t. induction c as [|[p r|l p] c IH]; intros t; simpl.
  - by rewrite app_nil_r.
  - rewrite IH. simpl. by rewrite <- !app_assoc.
  - rewrite IH. simpl. by rewrite <- !app_assoc.
Qed.

Lemma trep_plug m t c :
  trep m None (plug t c) ↔ trep m (cpar c) t ∧ crep m c (root t).
Proof.
  revert t. induction c as [|[p r|l p] c IH]; intros t; simpl.
  - tauto.
  - rewrite IH. simpl. tauto.
  - rewrite IH. simpl. tauto.
Qed.

Lemma trep_ext m m' par t :
  (∀ y, y ∈ inorder t → m' !! y = m !! y) → trep m par t → trep m' par t.
Proof.
  revert par. induction t as [|l IHl x r IHr]; intros par Hext; simpl; [done|].
  intros (Hx & Hl & Hr). split_and!.
  - rewrite Hext; [done|]. set_solver.
  - apply IHl; [|done]. intros y Hy. apply Hext. set_solver.
  - apply IHr; [|done]. intros y Hy. apply Hext. set_solver.
Qed.

Lemma crep_ext m m' c hole :
  (∀ y, y ∈ before c ++ after c → m' !! y = m !! y) → crep m c hole → crep m' c hole.
Proof.
  revert hole. induction c as [|[p r|l p] c IH]; intros hole Hext; simpl; [done| |].
  - intros (Hp & Hr & Hc). split_and!.
    + rewrite Hext; [done|]. set_solver.
    + eapply trep_ext; [|done]. intros y Hy. apply Hext. set_solver.
    + apply IH; [|done]. intros y Hy. apply Hext. set_solver.
  - intros (Hp & Hl & Hc). split_and!.
    + rewrite Hext; [done|]. set_solver.
    + eapply trep_ext; [|done]. intros y Hy. apply Hext. set_solver.
    + apply IH; [|done]. intros y Hy. apply Hext. set_solver.
Qed.

Lemma trep_lookup m par t y : trep m par t → y ∈ inorder t → is_Some (m !! y).
Proof.
  revert par. induction t as [|l IHl x r IHr]; intros par; simpl; [set_solver|].
  intros (Hx & Hl & Hr) Hy.
  apply elem_of_app in Hy as [Hy|Hy]; [by eapply IHl|].
  apply elem_of_cons in Hy as [->|Hy]; [by eexists|by eapply IHr].
Qed.

Lemma root_inorder t x : root t = Some x → x ∈ inorder t.
Proof. destruct t; simpl; [done|]. intros [= ->]. set_solver. Qed.

Lemma root_None t : root t = None → t = Leaf.
Proof. by destruct t. Qed.

(** Rewriting the parent field of the root of a subtree. *)
Lemma trep_reparent m par par' t tn :
  NoDup (inorder t) →
  trep m par t →
  match root t with
  | Some x => m !! x = Some tn →
      trep (<[x := TreeNode (tn_left tn) (tn_right tn) par']> m) par' t
  | None => True
  end.
Proof.
  destruct t as [|l x r]; simpl; [done|].
  intros Hnd (Hx & Hl & Hr) Hx'. rewrite Hx in Hx'. injection Hx' as <-. simpl.
  apply NoDup_app in Hnd as (Hndl & Hlx & Hndr). apply NoDup_cons in Hndr as [Hxr _].
  split_and!.
  - by rewrite lookup_insert_eq.
  - eapply trep_ext; [|done]. intros y Hy. rewrite lookup_insert_ne; [done|].
    intros ->. eapply Hlx; [done|]. set_solver.
  - eapply trep_ext; [|done]. intros y Hy. rewrite lookup_insert_ne; [done|].
    by intros ->.
Qed.

(** Every record of a tree is the root of a subtree at the end of some
    path. *)
Lemma member_plug t x :
  x ∈ inorder t → ∃ a b c, t = plug (Node a x b) c.
Proof.
  induction t as [|l IHl y r IHr]; simpl; [set_solver|].
  intros Hx. apply elem_of_app in Hx as [Hx|Hx].
  - destruct (IHl Hx) as (a & b & c & ->).
    exists a, b, (c ++ [LeftOf y r]).
    clear. generalize (Node a x b). induction c as [|[]]; intros; simpl; auto.
  - apply elem_of_cons in Hx as [->|Hx]; [by exists l, r, []|].
    destruct (IHr Hx) as (a & b & c & ->).
    exists a, b, (c ++ [RightOf l y]).
    clear. generalize (Node a x b). induction c as [|[]]; intros; simpl; auto.
Qed.

Lemma path_length c : length c ≤ length (before c ++ after c).
Proof.
  induction c as [|[p r|l p] c IH]; simpl; [done| |];
    rewrite ?length_app in *; simpl; rewrite ?length_app; simpl; lia.
Qed.

Lemma plug_length t c : length c + length (inorder t) ≤ length (inorder (plug t c)).
Proof.
  rewrite inorder_plug. pose proof (path_length c) as Hc.
  rewrite !length_app in *. lia.
Qed.
End shapes.

(** ** Rotations *)

(** Splitting a [NoDup] of appended lists into its parts. *)
Ltac nodup_parts :=
  repeat match goal with
         | H : NoDup (_ ++ _) |- _ => apply NoDup_app in H as (? & ? & ?)
         | H : NoDup (_ :: _) |- _ => apply NoDup_cons in H as (? & ?)
         end.

(** Replacing [lk d h] by what the hypotheses say it is. *)
Ltac lk_chain :=
  repeat match goal with
         | H : lk ?d ?h = _ |- context [lk ?d ?h] => rewrite H
         end.

Section rotations.
Context {Left Right V : Type} (d : descriptor Left Right V) `{!DescriptorLaws d}.

Implicit Types (h : gmap ptr (node_t Left Right)) (t : shape) (c : path).

(** [set_parent] on the root of a subtree. *)
Lemma wp_set_parent_root h par par' t Q :
  trep (lk d h) par t → NoDup (inorder t) →
  (∀ h', trep (lk d h') par' t →
         (∀ y, Some y ≠ root t → lk d h' !! y = lk d h !! y) →
         frame d (inorder t) h h' → Q tt h') →
  wp (set_parent d (root t) par') h Q.
Proof.
  intros Ht Hnd HQ. destruct t as [|l x r]; simpl.
  - apply wp_ret'. apply HQ; [done|done|apply frame_refl; done].
  - pose proof Ht as (Hx & _).
    eapply (wp_put_parent d); [exact Hx|]. simpl. intros h' Hlk Hfr.
    apply HQ.
    + rewrite Hlk.
      apply (trep_reparent _ par par' (Node l x r) _ Hnd Ht Hx).
    + intros y Hy. rewrite Hlk, lookup_insert_ne; [done|]. intros ->. by apply Hy.
    + eapply frame_weaken; [|done]. incl.
Qed.

(** The first statement of both rotations: the parent [q] of [p], if
    any, now points at [x] where it pointed at [p]. *)
Lemma wp_replace_child h c (x p : ptr) Q :
  crep (lk d h) c (Some p) → NoDup (before c ++ after c) →
  p ∉ before c ++ after c →
  (∀ h', crep (lk d h') c (Some x) →
         (∀ y, Some y ≠ cpar c → lk d h' !! y = lk d h !! y) →
         frame d (before c ++ after c) h h' → Q tt h') →
  wp (match cpar c with
      | Some _ =>
          lq ← get_left d (cpar c);
          if bool_decide (lq = Some p)
          then put_left d (cpar c) (Some x)
          else put_right d (cpar c) (Some x)
      | None => ret tt
      end) h Q.
Proof.
  intros Hc Hnd Hp HQ. destruct c as [|[q r|l q] c]; simpl in *.
  - apply wp_ret'. apply HQ; [done|done|apply frame_refl; done].
  - destruct Hc as (Hq & Hr & Hc).
    apply wp_bind. eapply (wp_get_left d); [exact Hq|]. simpl.
    rewrite bool_decide_eq_true_2 by done.
    eapply (wp_put_left d); [exact Hq|]. simpl. intros h' Hlk Hfr.
    nodup_parts.
    apply HQ.
    + split_and!.
      * by rewrite Hlk, lookup_insert_eq.
      * eapply trep_ext; [|exact Hr]. intros y Hy.
        rewrite Hlk, lookup_insert_ne; [done|]. disj.
      * eapply crep_ext; [|exact Hc]. intros y Hy.
        rewrite Hlk, lookup_insert_ne; [done|]. disj.
    + intros y Hy. rewrite Hlk, lookup_insert_ne; [done|]. congruence.
    + eapply frame_weaken; [|done]. incl.
  - destruct Hc as (Hq & Hl & Hc).
    apply wp_bind. eapply (wp_get_left d); [exact Hq|]. simpl.
    rewrite bool_decide_eq_false_2.
    2:{ intros Hroot%root_inorder. apply Hp. mem. }
    eapply (wp_put_right d); [exact Hq|]. simpl. intros h' Hlk Hfr.
    nodup_parts.
    apply HQ.
    + split_and!.
      * by rewrite Hlk, lookup_insert_eq.
      * eapply trep_ext; [|exact Hl]. intros y Hy.
        rewrite Hlk, lookup_insert_ne; [done|]. disj.
      * eapply crep_ext; [|exact Hc]. intros y Hy.
        rewrite Hlk, lookup_insert_ne; [done|]. disj.
    + intros y Hy. rewrite Hlk, lookup_insert_ne; [done|]. congruence.
    + eapply frame_weaken; [|done]. incl.
Qed.

Lemma cpar_elem c q : cpar c = Some q → q ∈ before c ++ after c.
Proof. destruct c as [|[]]; simpl; [done| |]; intros [= ->]; mem. Qed.

Lemma frame_step S S' h h1 h2 :
  frame d S h h1 → frame d S' h1 h2 → S' ⊆ S → frame d S h h2.
Proof.
  intros H1 H2 Hsub. eapply frame_trans; [done|exact H1|].
  by eapply frame_weaken.
Qed.

(** [rotate_left(x, p)] for [x] the right child of [p]. *)
Lemma wp_rotate_left h a x b l p c Q :
  trep (lk d h) None (plug (Node a x b) (RightOf l p :: c)) →
  NoDup (inorder (plug (Node a x b) (RightOf l p :: c))) →
  (∀ h', trep (lk d h') None (plug (Node (Node l p a) x b) c) →
         frame d (inorder (plug (Node a x b) (RightOf l p :: c))) h h' →
         Q (Some x) h') →
  wp (rotate_left d (Some x) (Some p)) h Q.
Proof.
  intros Ht Hnd HQ.
  apply trep_plug in Ht as [Ht Hc]. simpl in Ht, Hc.
  destruct Ht as (Hx & Ha & Hb). destruct Hc as (Hp & Hl & Hc).
  assert (HS : inorder (plug (Node a x b) (RightOf l p :: c))
               ≡ₚ x :: p :: inorder a ++ inorder b ++ inorder l ++ before c ++ after c).
  { rewrite inorder_plug. simpl. rewrite <- !app_assoc. simpl.
    rewrite !Permutation_middle. solve_Permutation. }
  assert (HS' : ∀ y, y ∈ inorder (plug (Node a x b) (RightOf l p :: c))
                ↔ y ∈ x :: p :: inorder a ++ inorder b ++ inorder l ++ before c ++ after c).
  { intros y. by rewrite HS. }
  rewrite HS in Hnd. clear HS. nodup_parts.
  assert (Hndc : NoDup (before c ++ after c)) by (apply NoDup_app; done).
  assert (Hq : ∀ y, y ∉ before c ++ after c → Some y ≠ cpar c).
  { intros y Hy Heq. symmetry in Heq. apply cpar_elem in Heq. done. }
  assert (Hra : ∀ y, y ∉ inorder a → Some y ≠ root a).
  { intros y Hy Heq. symmetry in Heq. apply root_inorder in Heq. done. }
  unfold rotate_left.
  apply wp_bind. eapply (wp_get_parent d); [exact Hp|]. simpl.
  apply wp_bind. eapply wp_replace_child; [exact Hc|exact Hndc|set_solver|].
  intros h1 Hc1 Ho1 Hf1.
  assert (Hx1 : lk d h1 !! x = Some (TreeNode (root a) (root b) (Some p))).
  { rewrite Ho1; [done|]. apply Hq. disj. }
  assert (Hp1 : lk d h1 !! p = Some (TreeNode (root l) (Some x) (cpar c))).
  { rewrite Ho1; [done|]. apply Hq. disj. }
  apply wp_bind. eapply (wp_get_parent d); [exact Hp1|]. simpl.
  apply wp_bind. eapply (wp_put_parent d); [exact Hx1|]. simpl. intros h2 Hlk2 Hf2.
  assert (x ≠ p) by disj.
  apply wp_bind. eapply (wp_put_parent d).
  { rewrite Hlk2, lookup_insert_ne by done. exact Hp1. }
  simpl. intros h3 Hlk3 Hf3.
  apply wp_bind. eapply (wp_get_left d).
  { rewrite Hlk3, lookup_insert_ne, Hlk2, lookup_insert_eq by done. done. }
  simpl.
  apply wp_bind. eapply (wp_put_right d).
  { rewrite Hlk3, lookup_insert_eq. done. }
  simpl. intros h4 Hlk4 Hf4.
  apply wp_bind. eapply (wp_get_left d).
  { rewrite Hlk4, lookup_insert_ne, Hlk3, lookup_insert_ne, Hlk2, lookup_insert_eq by done. done. }
  simpl.
  assert (H41 : ∀ y, y ≠ x → y ≠ p → lk d h4 !! y = lk d h1 !! y).
  { intros y Hyx Hyp. rewrite Hlk4, lookup_insert_ne, Hlk3, lookup_insert_ne,
      Hlk2, lookup_insert_ne by done. done. }
  apply wp_bind. eapply (wp_set_parent_root h4 (Some x) (Some p) a); [|done|].
  { eapply trep_ext; [|exact Ha]. intros y Hy.
    rewrite H41, Ho1; [done|..]; [apply Hq|..]; disj. }
  intros h5 Ha5 Ho5 Hf5.
  apply wp_bind. eapply (wp_put_left d).
  { rewrite Ho5, Hlk4, lookup_insert_ne, Hlk3, lookup_insert_ne, Hlk2, lookup_insert_eq;
      [done|done|done|]. apply Hra. disj. }
  simpl. intros h6 Hlk6 Hf6.
  assert (H61 : ∀ y, y ≠ x → y ≠ p → y ∉ inorder a → lk d h6 !! y = lk d h1 !! y).
  { intros y Hyx Hyp Hya. rewrite Hlk6, lookup_insert_ne, Ho5, H41 by auto. done. }
  apply wp_ret. apply HQ.
  - apply trep_plug. simpl. split_and!.
    + by rewrite Hlk6, lookup_insert_eq.
    + rewrite Hlk6, lookup_insert_ne, Ho5, Hlk4, lookup_insert_eq; [done| |done].
      apply Hra. disj.
    + eapply trep_ext; [|exact Hl]. intros y Hy.
      rewrite H61, Ho1; [done|..]; [apply Hq|..]; disj.
    + eapply trep_ext; [|exact Ha5]. intros y Hy.
      rewrite Hlk6, lookup_insert_ne; [done|]. disj.
    + eapply trep_ext; [|exact Hb]. intros y Hy.
      rewrite H61, Ho1; [done|..]; [apply Hq|..]; disj.
    + eapply crep_ext; [|exact Hc1]. intros y Hy.
      rewrite H61; [done|..]; disj.
  - eapply frame_step; [|exact Hf6|incl].
    eapply frame_step; [|exact Hf5|incl].
    eapply frame_step; [|exact Hf4|incl].
    eapply frame_step; [|exact Hf3|incl].
    eapply frame_step; [|exact Hf2|incl].
    eapply frame_weaken; [|exact Hf1]. incl.
Qed.

(** [rotate_right(x, p)] for [x] the left child of [p]. *)
Lemma wp_rotate_right h a x b r p c Q :
  trep (lk d h) None (plug (Node a x b) (LeftOf p r :: c)) →
  NoDup (inorder (plug (Node a x b) (LeftOf p r :: c))) →
  (∀ h', trep (lk d h') None (plug (Node a x (Node b p r)) c) →
         frame d (inorder (plug (Node a x b) (LeftOf p r :: c))) h h' →
         Q (Some x) h') →
  wp (rotate_right d (Some x) (Some p)) h Q.
Proof.
  intros Ht Hnd HQ.
  apply trep_plug in Ht as [Ht Hc]. simpl in Ht, Hc.
  destruct Ht as (Hx & Ha & Hb). destruct Hc as (Hp & Hr & Hc).
  assert (HS : inorder (plug (Node a x b) (LeftOf p r :: c))
               ≡ₚ x :: p :: inorder a ++ inorder b ++ inorder r ++ before c ++ after c).
  { rewrite inorder_plug. simpl. rewrite <- !app_assoc. simpl.
    rewrite !Permutation_middle. solve_Permutation. }
  assert (HS' : ∀ y, y ∈ inorder (plug (Node a x b) (LeftOf p r :: c))
                ↔ y ∈ x :: p :: inorder a ++ inorder b ++ inorder r ++ before c ++ after c).
  { intros y. by rewrite HS. }
  rewrite HS in Hnd. clear HS. nodup_parts.
  assert (Hndc : NoDup (before c ++ after c)) by (apply NoDup_app; done).
  assert (Hq : ∀ y, y ∉ before c ++ after c → Some y ≠ cpar c).
  { intros y Hy Heq. symmetry in Heq. apply cpar_elem in Heq. done. }
  assert (Hrb : ∀ y, y ∉ inorder b → Some y ≠ root b).
  { intros y Hy Heq. symmetry in Heq. apply root_inorder in Heq. done. }
  unfold rotate_right.
  apply wp_bind. eapply (wp_get_parent d); [exact Hp|]. simpl.
  apply wp_bind. eapply wp_replace_child; [exact Hc|exact Hndc|set_solver|].
  intros h1 Hc1 Ho1 Hf1.
  assert (Hx1 : lk d h1 !! x = Some (TreeNode (root a) (root b) (Some p))).
  { rewrite Ho1; [done|]. apply Hq. disj. }
  assert (Hp1 : lk d h1 !! p = Some (TreeNode (Some x) (root r) (cpar c))).
  { rewrite Ho1; [done|]. apply Hq. disj. }
  apply wp_bind. eapply (wp_get_parent d); [exact Hp1|]. simpl.
  apply wp_bind. eapply (wp_put_parent d); [exact Hx1|]. simpl. intros h2 Hlk2 Hf2.
  assert (x ≠ p) by disj.
  apply wp_bind. eapply (wp_put_parent d).
  { rewrite Hlk2, lookup_insert_ne by done. exact Hp1. }
  simpl. intros h3 Hlk3 Hf3.
  apply wp_bind. eapply (wp_get_right d).
  { rewrite Hlk3, lookup_insert_ne, Hlk2, lookup_insert_eq by done. done. }
  simpl.
  apply wp_bind. eapply (wp_put_left d).
  { rewrite Hlk3, lookup_insert_eq. done. }
  simpl. intros h4 Hlk4 Hf4.
  apply wp_bind. eapply (wp_get_right d).
  { rewrite Hlk4, lookup_insert_ne, Hlk3, lookup_insert_ne, Hlk2, lookup_insert_eq by done. done. }
  simpl.
  assert (H41 : ∀ y, y ≠ x → y ≠ p → lk d h4 !! y = lk d h1 !! y).
  { intros y Hyx Hyp. rewrite Hlk4, lookup_insert_ne, Hlk3, lookup_insert_ne,
      Hlk2, lookup_insert_ne by done. done. }
  apply wp_bind. eapply (wp_set_parent_root h4 (Some x) (Some p) b); [|done|].
  { eapply trep_ext; [|exact Hb]. intros y Hy.
    rewrite H41, Ho1; [done|..]; [apply Hq|..]; disj. }
  intros h5 Hb5 Ho5 Hf5.
  apply wp_bind. eapply (wp_put_right d).
  { rewrite Ho5, Hlk4, lookup_insert_ne, Hlk3, lookup_insert_ne, Hlk2, lookup_insert_eq;
      [done|done|done|]. apply Hrb. disj. }
  simpl. intros h6 Hlk6 Hf6.
  assert (H61 : ∀ y, y ≠ x → y ≠ p → y ∉ inorder b → lk d h6 !! y = lk d h1 !! y).
  { intros y Hyx Hyp Hyb. rewrite Hlk6, lookup_insert_ne, Ho5, H41 by auto. done. }
  apply wp_ret. apply HQ.
  - apply trep_plug. simpl. split_and!.
    + by rewrite Hlk6, lookup_insert_eq.
    + eapply trep_ext; [|exact Ha]. intros y Hy.
      rewrite H61, Ho1; [done|..]; [apply Hq|..]; disj.
    + rewrite Hlk6, lookup_insert_ne, Ho5, Hlk4, lookup_insert_eq; [done| |done].
      apply Hrb. disj.
    + eapply trep_ext; [|exact Hb5]. intros y Hy.
      rewrite Hlk6, lookup_insert_ne; [done|]. disj.
    + eapply trep_ext; [|exact Hr]. intros y Hy.
      rewrite H61, Ho1; [done|..]; [apply Hq|..]; disj.
    + eapply crep_ext; [|exact Hc1]. intros y Hy.
      rewrite H61; [done|..]; disj.
  - eapply frame_step; [|exact Hf6|incl].
    eapply frame_step; [|exact Hf5|incl].
    eapply frame_step; [|exact Hf4|incl].
    eapply frame_step; [|exact Hf3|incl].
    eapply frame_step; [|exact Hf2|incl].
    eapply frame_weaken; [|exact Hf1]. incl.
Qed.
End rotations.

(** ** Splaying *)

(** Equations between in-order lists. *)
Ltac list_eq :=
  rewrite ?inorder_plug; simpl;
  repeat (rewrite <- app_assoc; simpl);
  rewrite ?app_nil_r; try reflexivity.

(** Stepping over one field read whose value hypothesis [H] gives. *)
Ltac wp_read H :=
  lazymatch goal with
  | |- wp (_ ≫= _) _ _ => apply wp_bind
  | _ => idtac
  end;
  first [ eapply (wp_get_parent _) | eapply (wp_get_left _)
        | eapply (wp_get_right _) | eapply (wp_get_value _) ];
  [exact H|]; simpl.

(** The two halves of [e1 == v1 && e2 == v2]. *)
Ltac wp_cond1 H :=
  apply wp_bind; apply wp_and_then; apply wp_is_ptr; wp_read H.
Ltac wp_cond2 H := apply wp_is_ptr; wp_read H.
Ltac yes := try rewrite bool_decide_eq_true_2 by done.
Ltac no := try (rewrite bool_decide_eq_false_2;
  [|first [ done
          | let E := fresh in intros E; apply root_inorder in E; disj
          | let E := fresh in intros E; symmetry in E; apply root_inorder in E; disj ]]).

Section splaying.
Context {Left Right V : Type} (d : descriptor Left Right V) `{!DescriptorLaws d}.

Implicit Types (h : gmap ptr (node_t Left Right)) (t : shape) (c : path).

Lemma zip_top m a x b c :
  trep m None (plug (Node a x b) c) →
  m !! x = Some (TreeNode (root a) (root b) (cpar c)).
Proof. intros [Ht _]%trep_plug. by destruct Ht. Qed.

Lemma root_ne t x : x ∉ inorder t → root t ≠ Some x.
Proof. intros Hx Hr%root_inorder. done. Qed.

(** The zig, zig-zig and zig-zag cases of one iteration. *)
Lemma wp_splay_step h a x b k c Q :
  trep (lk d h) None (plug (Node a x b) (k :: c)) →
  NoDup (inorder (plug (Node a x b) (k :: c))) →
  (∀ h' a' b' c',
      trep (lk d h') None (plug (Node a' x b') c') →
      inorder (plug (Node a' x b') c') = inorder (plug (Node a x b) (k :: c)) →
      before c' ++ inorder a' = before (k :: c) ++ inorder a →
      inorder b' ++ after c' = inorder b ++ after (k :: c) →
      length c' < length (k :: c) →
      frame d (inorder (plug (Node a x b) (k :: c))) h h' →
      Q (Some x) h') →
  wp (splay_step d (Some x) (cpar (k :: c))) h Q.
Proof.
  intros Ht Hnd HQ.
  pose proof Hnd as Hnd'. rewrite inorder_plug in Hnd'.
  destruct k as [p r|l p]; (destruct c as [|[g rr|ll g] c]); simpl in Hnd' |- *;
    nodup_parts; unfold splay_step.
  - (* zig: x is the left child of the root p *)
    pose proof (zip_top _ (Node a x b) p r [] Ht) as Hp. simpl in Hp.
    wp_read Hp. yes. wp_read Hp. no.
    eapply (wp_rotate_right d); [exact Ht|exact Hnd|]. intros h' Ht' Hf'.
    apply (HQ h' a (Node b p r) []); [exact Ht'|list_eq..|simpl; lia|exact Hf'].
  - (* zig-zig to the left *)
    pose proof (zip_top _ (Node a x b) p r (LeftOf g rr :: c) Ht) as Hp.
    pose proof (zip_top _ (Node (Node a x b) p r) g rr c Ht) as Hg.
    simpl in Hp, Hg.
    wp_read Hp. no. wp_read Hp.
    wp_cond1 Hg. yes. wp_cond2 Hp. yes.
    apply wp_bind. eapply (wp_rotate_right d h (Node a x b) p r rr g c);
      [exact Ht|exact Hnd|]. intros h1 Ht1 Hf1.
    assert (E : inorder (plug (Node a x b) (LeftOf p (Node r g rr) :: c))
                = inorder (plug (Node a x b) (LeftOf p r :: LeftOf g rr :: c)))
      by list_eq.
    eapply (wp_rotate_right d h1 a x b (Node r g rr) p c);
      [exact Ht1|by rewrite E|]. intros h2 Ht2 Hf2. rewrite E in Hf2.
    apply (HQ h2 a (Node b p (Node r g rr)) c);
      [exact Ht2|list_eq..|simpl; lia|].
    eapply frame_trans; [done|exact Hf1|exact Hf2].
  - (* zig-zag: x left of p, p right of g *)
    pose proof (zip_top _ (Node a x b) p r (RightOf ll g :: c) Ht) as Hp.
    pose proof (zip_top _ ll g (Node (Node a x b) p r) c Ht) as Hg.
    simpl in Hp, Hg.
    wp_read Hp. no. wp_read Hp.
    wp_cond1 Hg. no.
    wp_cond1 Hg. yes. wp_cond2 Hp. no.
    wp_cond1 Hg. no.
    apply wp_bind. eapply (wp_rotate_right d h a x b r p (RightOf ll g :: c));
      [exact Ht|exact Hnd|]. intros h1 Ht1 Hf1.
    assert (E : inorder (plug (Node a x (Node b p r)) (RightOf ll g :: c))
                = inorder (plug (Node a x b) (LeftOf p r :: RightOf ll g :: c)))
      by list_eq.
    eapply (wp_rotate_left d h1 a x (Node b p r) ll g c);
      [exact Ht1|by rewrite E|]. intros h2 Ht2 Hf2. rewrite E in Hf2.
    apply (HQ h2 (Node ll g a) (Node b p r) c);
      [exact Ht2|list_eq..|simpl; lia|].
    eapply frame_trans; [done|exact Hf1|exact Hf2].
  - (* zig: x is the right child of the root p *)
    pose proof (zip_top _ l p (Node a x b) [] Ht) as Hp. simpl in Hp.
    wp_read Hp. yes. wp_read Hp. yes.
    eapply (wp_rotate_left d); [exact Ht|exact Hnd|]. intros h' Ht' Hf'.
    apply (HQ h' (Node l p a) b []); [exact Ht'|list_eq..|simpl; lia|exact Hf'].
  - (* zig-zag: x right of p, p left of g *)
    pose proof (zip_top _ l p (Node a x b) (LeftOf g rr :: c) Ht) as Hp.
    pose proof (zip_top _ (Node l p (Node a x b)) g rr c Ht) as Hg.
    simpl in Hp, Hg.
    wp_read Hp. no. wp_read Hp.
    wp_cond1 Hg. yes. wp_cond2 Hp. no.
    wp_cond1 Hg. no.
    wp_cond1 Hg. yes. wp_cond2 Hp. yes.
    apply wp_bind. eapply (wp_rotate_left d h a x b l p (LeftOf g rr :: c));
      [exact Ht|exact Hnd|]. intros h1 Ht1 Hf1.
    assert (E : inorder (plug (Node (Node l p a) x b) (LeftOf g rr :: c))
                = inorder (plug (Node a x b) (RightOf l p :: LeftOf g rr :: c)))
      by list_eq.
    eapply (wp_rotate_right d h1 (Node l p a) x b rr g c);
      [exact Ht1|by rewrite E|]. intros h2 Ht2 Hf2. rewrite E in Hf2.
    apply (HQ h2 (Node l p a) (Node b g rr) c);
      [exact Ht2|list_eq..|simpl; lia|].
    eapply frame_trans; [done|exact Hf1|exact Hf2].
  - (* zig-zig to the right *)
    pose proof (zip_top _ l p (Node a x b) (RightOf ll g :: c) Ht) as Hp.
    pose proof (zip_top _ ll g (Node l p (Node a x b)) c Ht) as Hg.
    simpl in Hp, Hg.
    wp_read Hp. no. wp_read Hp.
    wp_cond1 Hg. no.
    wp_cond1 Hg. yes. wp_cond2 Hp. yes.
    apply wp_bind. eapply (wp_rotate_left d h l p (Node a x b) ll g c);
      [exact Ht|exact Hnd|]. intros h1 Ht1 Hf1.
    assert (E : inorder (plug (Node a x b) (RightOf (Node ll g l) p :: c))
                = inorder (plug (Node a x b) (RightOf l p :: RightOf ll g :: c)))
      by list_eq.
    eapply (wp_rotate_left d h1 a x b (Node ll g l) p c);
      [exact Ht1|by rewrite E|]. intros h2 Ht2 Hf2. rewrite E in Hf2.
    apply (HQ h2 (Node (Node ll g l) p a) b c);
      [exact Ht2|list_eq..|simpl; lia|].
    eapply frame_trans; [done|exact Hf1|exact Hf2].
Qed.

(** [splay] brings [x] to the root and keeps the order of the records:
    what was before [x] ends up in its left subtree, what was after it
    in its right subtree. *)
Lemma wp_splay_loop fuel : ∀ c a x b h Q,
  trep (lk d h) None (plug (Node a x b) c) →
  NoDup (inorder (plug (Node a x b) c)) →
  length c ≤ fuel →
  (∀ h' l r,
      trep (lk d h') None (Node l x r) →
      inorder l = before c ++ inorder a →
      inorder r = inorder b ++ after c →
      frame d (inorder (plug (Node a x b) c)) h h' →
      Q (Some x) h') →
  wp (splay_loop d fuel (Some x)) h Q.
Proof.
  induction fuel as [|fuel IH]; intros c a x b h Q Ht Hnd Hlen HQ;
    pose proof (zip_top _ _ _ _ _ Ht) as Hx.
  - destruct c; [|simpl in Hlen; lia]. simpl.
    wp_read Hx. apply wp_ret'.
    apply (HQ h a b); [exact Ht|by list_eq..|by apply frame_refl].
  - destruct c as [|k c].
    + simpl. wp_read Hx. apply wp_ret'.
      apply (HQ h a b); [exact Ht|by list_eq..|by apply frame_refl].
    + cbn [splay_loop]. wp_read Hx.
      assert (Hstep : ∀ Q', (∀ h1 a1 b1 c1,
                 trep (lk d h1) None (plug (Node a1 x b1) c1) →
                 inorder (plug (Node a1 x b1) c1) = inorder (plug (Node a x b) (k :: c)) →
                 before c1 ++ inorder a1 = before (k :: c) ++ inorder a →
                 inorder b1 ++ after c1 = inorder b ++ after (k :: c) →
                 length c1 < length (k :: c) →
                 frame d (inorder (plug (Node a x b) (k :: c))) h h1 →
                 Q' (Some x) h1) →
               wp (splay_step d (Some x) (cpar (k :: c))) h Q').
      { intros Q' HQ'.
        apply (wp_splay_step h a x b k c Q' Ht Hnd HQ'). }
      assert (Hrest : ∀ h1 a1 b1 c1,
                 trep (lk d h1) None (plug (Node a1 x b1) c1) →
                 inorder (plug (Node a1 x b1) c1) = inorder (plug (Node a x b) (k :: c)) →
                 before c1 ++ inorder a1 = before (k :: c) ++ inorder a →
                 inorder b1 ++ after c1 = inorder b ++ after (k :: c) →
                 length c1 < length (k :: c) →
                 frame d (inorder (plug (Node a x b) (k :: c))) h h1 →
                 wp (splay_loop d fuel (Some x)) h1 Q).
      { intros h1 a1 b1 c1 Ht1 E Eb Ea Hlen1 Hf1.
        eapply (IH c1 a1 x b1 h1); [exact Ht1|by rewrite E|simpl in *; lia|].
        intros h2 l' r' Ht2 El Er Hf2. rewrite E in Hf2.
        apply (HQ h2 l' r'); [exact Ht2|congruence..|].
        eapply frame_trans; [done|exact Hf1|exact Hf2]. }
      destruct k as [p r|l p]; simpl cpar in Hstep |- *;
        apply wp_bind; apply Hstep; exact Hrest.
Qed.

Lemma wp_splay fuel h t x Q :
  trep (lk d h) None t → NoDup (inorder t) → x ∈ inorder t →
  length (inorder t) ≤ fuel →
  (∀ h' l r,
      trep (lk d h') None (Node l x r) →
      inorder (Node l x r) = inorder t →
      frame d (inorder t) h h' →
      Q (Some x) h') →
  wp (splay d fuel (Some x)) h Q.
Proof.
  intros Ht Hnd Hx Hlen HQ.
  destruct (member_plug t x Hx) as (a & b & c & ->).
  pose proof (plug_length (Node a x b) c) as Hc. simpl in Hc.
  rewrite length_app in Hc. simpl in Hc.
  unfold splay. eapply wp_splay_loop; [exact Ht|exact Hnd|lia|].
  intros h' l r Ht' El Er Hf. apply (HQ h' l r); [exact Ht'| |exact Hf].
  simpl. rewrite El, Er. by list_eq.
Qed.
End splaying.

(** ** Searching *)

(** What the container requires of a comparator: a strict order that is
    total with respect to [==]. *)
Class StrictTotal {V} (compare : V → V → bool) := {
  compare_irrefl : ∀ a, compare a a = false;
  compare_trans : ∀ a b c,
    compare a b = true → compare b c = true → compare a c = true;
  compare_total : ∀ a b, compare a b = true ∨ a = b ∨ compare b a = true
}.

Lemma compare_asym {V} (compare : V → V → bool) `{!StrictTotal compare} a b :
  compare a b = true → compare b a = false.
Proof.
  intros Hab. destruct (compare b a) eqn:Hba; [|done].
  pose proof (compare_trans a b a Hab Hba) as Haa.
  by rewrite compare_irrefl in Haa.
Qed.

Section searching.
Context {Left Right V : Type} (d : descriptor Left Right V) `{!DescriptorLaws d}.
Context (compare : V → V → bool) `{!StrictTotal compare}.

Implicit Types (h : gmap ptr (node_t Left Right)) (t : shape) (c : path).

(** The order of two records by their values on this side. *)
Definition plt h (p q : ptr) : Prop :=
  ∃ a b, key d h p = Some a ∧ key d h q = Some b ∧ compare a b = true.

(** The record at [p] holds a value less than [x], greater than [x]. *)
Definition below h (x : V) (p : ptr) : Prop :=
  ∃ a, key d h p = Some a ∧ compare a x = true.
Definition above h (x : V) (p : ptr) : Prop :=
  ∃ a, key d h p = Some a ∧ compare x a = true.

Lemma plt_below h x p q : plt h p q → below h x q → below h x p.
Proof.
  intros (a & b & Ha & Hb & Hab) (b' & Hb' & Hbx). exists a. split; [done|].
  rewrite Hb in Hb'. injection Hb' as <-. by eapply compare_trans.
Qed.

Lemma plt_above h x p q : plt h p q → above h x p → above h x q.
Proof.
  intros (a & b & Ha & Hb & Hab) (a' & Ha' & Hxa). exists b. split; [done|].
  rewrite Ha in Ha'. injection Ha' as <-. by eapply compare_trans.
Qed.

Lemma plt_frame S h h' p q : frame d S h h' → plt h p q → plt h' p q.
Proof.
  intros Hf (a & b & Ha & Hb & Hab). exists a, b.
  by rewrite !(frame_key d S h h' _ Hf).
Qed.

Lemma sorted_frame S h h' s :
  frame d S h h' → StronglySorted (plt h) s → StronglySorted (plt h') s.
Proof.
  intros Hf. induction 1 as [|p s Hs IH Hp]; constructor; [done|].
  eapply Forall_impl; [exact Hp|]. intros q. by apply (plt_frame S).
Qed.

Lemma lk_key h p tn : lk d h !! p = Some tn → is_Some (key d h p).
Proof. intros (n & Hn & _)%lk_Some. unfold key. rewrite Hn. by eexists. Qed.

Lemma find_from_unfold fuel k (t : option ptr) x :
  find_from d compare fuel k t x =
  match t with
  | None => ret None
  | Some _ =>
      go_left ← and_then (v ← get_value d t; ret (compare x v))
                         (is_not_ptr (get_left d t) None);
      if (go_left : bool) then
        match k with
        | O => undef
        | S k' => l ← get_left d t; find_from d compare fuel k' l x
        end
      else
        go_right ← and_then (v ← get_value d t; ret (compare v x))
                            (is_not_ptr (get_right d t) None);
        if (go_right : bool) then
          match k with
          | O => undef
          | S k' => r ← get_right d t; find_from d compare fuel k' r x
          end
        else splay d fuel t
  end.
Proof. by destruct k. Qed.

(** [find] stops at a record [z] and splays it to the root.  If the
    sought value is less than that of [z], every record before [z]
    holds a smaller value than the sought one; if it is greater, every
    record after [z] holds a greater one. *)
Lemma wp_find_from fuel x : ∀ t c k h Q,
  t ≠ Leaf →
  trep (lk d h) None (plug t c) →
  NoDup (inorder (plug t c)) →
  StronglySorted (plt h) (inorder (plug t c)) →
  Forall (below h x) (before c) → Forall (above h x) (after c) →
  length (inorder t) ≤ S k →
  length (inorder (plug t c)) ≤ fuel →
  (∀ h' z l r kz,
      trep (lk d h') None (Node l z r) →
      inorder (Node l z r) = inorder (plug t c) →
      frame d (inorder (plug t c)) h h' →
      key d h z = Some kz →
      (compare x kz = true → Forall (below h x) (inorder l)) →
      (compare kz x = true → Forall (above h x) (inorder r)) →
      Q (Some z) h') →
  wp (find_from d compare fuel k (root t) x) h Q.
Proof.
  induction t as [|a IHa y b IHb]; intros c k h Q Hne Ht Hnd Hso Hbe Haf Hk Hfuel HQ;
    [done|].
  pose proof (zip_top _ _ _ _ _ Ht) as Hy.
  destruct (lk_key _ _ _ Hy) as [ky Hky].
  pose proof (plug_length (Node a y b) c) as Hlen.
  assert (Hsplay : wp (splay d fuel (Some y)) h (λ r h',
            ∃ l r', r = Some y ∧ trep (lk d h') None (Node l y r') ∧
              inorder l = before c ++ inorder a ∧
              inorder r' = inorder b ++ after c ∧
              frame d (inorder (plug (Node a y b) c)) h h')).
  { unfold splay. eapply (wp_splay_loop d); [exact Ht|exact Hnd|lia|].
    intros h' l r Ht' El Er Hf. exists l, r. done. }
  assert (Hin : ∀ l r, inorder l = before c ++ inorder a →
            inorder r = inorder b ++ after c →
            inorder (Node l y r) = inorder (plug (Node a y b) c)).
  { intros l r El Er. simpl. rewrite El, Er. by list_eq. }
  assert (Hstop : (compare x ky = true → a = Leaf) →
                  (compare ky x = true → b = Leaf) →
                  wp (splay d fuel (Some y)) h Q).
  { intros Ha Hb. eapply wp_mono; [exact Hsplay|].
    intros ? h' (l & r' & -> & Ht' & El & Er & Hf).
    apply (HQ h' y l r' ky); [exact Ht'|by apply Hin|exact Hf|exact Hky| |].
    - intros Hxy. rewrite El, (Ha Hxy). simpl. by rewrite app_nil_r.
    - intros Hyx. rewrite Er, (Hb Hyx). done. }
  pose proof Hso as Hso'. rewrite inorder_plug in Hso'.
  simpl in Hso', Hk. rewrite length_app in Hk. simpl in Hk.
  rewrite find_from_unfold. simpl root. cbv iota.
  apply wp_bind. apply wp_and_then. apply wp_bind. wp_read Hky. apply wp_ret'.
  destruct (compare x ky) eqn:Hxy.
  - (* the sought value is smaller *)
    apply wp_is_not_ptr. wp_read Hy.
    destruct a as [|al ay ar].
    + simpl.
      apply wp_bind. apply wp_and_then. apply wp_bind. wp_read Hky. apply wp_ret'.
      rewrite (compare_asym compare x ky Hxy).
      apply Hstop; [done|]. by rewrite (compare_asym compare x ky Hxy).
    + simpl. destruct k as [|k]; [simpl in Hk; rewrite length_app in Hk; simpl in Hk; lia|].
      wp_read Hy.
      apply (IHa (LeftOf y b :: c) k h Q); try done.
      * simpl. constructor.
        { by exists ky. }
        apply Forall_app. split; [|done].
        apply Forall_forall. intros e He.
        apply (plt_above h x y e); [|by exists ky].
        apply (StronglySorted_app_1_elem_of _
                 (before c ++ inorder (Node al ay ar) ++ [y]) (inorder b ++ after c)).
        -- revert Hso'. by list_eq.
        -- mem.
        -- mem.
      * simpl in Hk |- *. lia.
  - (* the sought value is not smaller *)
    apply wp_bind. apply wp_and_then. apply wp_bind. wp_read Hky. apply wp_ret'.
    destruct (compare ky x) eqn:Hyx.
    + apply wp_is_not_ptr. wp_read Hy.
      destruct b as [|bl by_ br].
      * simpl. apply Hstop; done.
      * simpl. destruct k as [|k]; [simpl in Hk; rewrite length_app in Hk; simpl in Hk; lia|].
        wp_read Hy.
        apply (IHb (RightOf a y :: c) k h Q); try done.
        -- simpl. apply Forall_app. split; [done|].
           apply Forall_app. split; [|by repeat constructor; exists ky].
           apply Forall_forall. intros e He.
           apply (plt_below h x e y); [|by exists ky].
           apply (StronglySorted_app_1_elem_of _
                    (before c ++ inorder a) (y :: inorder (Node bl by_ br) ++ after c)).
           ++ revert Hso'. by list_eq.
           ++ mem.
           ++ mem.
        -- simpl in Hk |- *. lia.
    + apply Hstop; done.
Qed.

Lemma wp_find fuel x t h Q :
  t ≠ Leaf →
  trep (lk d h) None t → NoDup (inorder t) →
  StronglySorted (plt h) (inorder t) →
  length (inorder t) ≤ fuel →
  (∀ h' z l r kz,
      trep (lk d h') None (Node l z r) →
      inorder (Node l z r) = inorder t →
      frame d (inorder t) h h' →
      key d h z = Some kz →
      (compare x kz = true → Forall (below h x) (inorder l)) →
      (compare kz x = true → Forall (above h x) (inorder r)) →
      Q (Some z) h') →
  wp (find d compare fuel (root t) x) h Q.
Proof.
  intros Hne Ht Hnd Hso Hfuel HQ. unfold find.
  apply (wp_find_from fuel x t [] fuel h Q); try done.
  lia.
Qed.

(** [sink_left] walks to the first record of a subtree and changes
    nothing. *)
Lemma wp_sink_left fuel : ∀ t par h Q,
  t ≠ Leaf → trep (lk d h) par t → length (inorder t) ≤ S fuel →
  (∀ z rest, inorder t = z :: rest → Q (Some z) h) →
  wp (sink_left d fuel (root t)) h Q.
Proof.
  induction fuel as [|fuel IH]; intros t par h Q Hne Ht Hlen HQ;
    (destruct t as [|a y b]; [done|]); destruct Ht as (Hy & Ha & Hb);
    simpl in Hlen; rewrite length_app in Hlen; simpl in Hlen; simpl root.
  - cbn [sink_left]. wp_read Hy. destruct a as [|al ay ar].
    + simpl. apply wp_ret'. by eapply HQ.
    + simpl in Hlen. rewrite length_app in Hlen. simpl in Hlen. lia.
  - cbn [sink_left]. wp_read Hy. destruct a as [|al ay ar].
    + simpl. apply wp_ret'. by eapply HQ.
    + simpl root. cbv iota.
      apply (IH (Node al ay ar) (Some y) h Q); [done|exact Ha|lia|].
      intros z rest E. apply (HQ z (rest ++ y :: inorder b)).
      change (inorder (Node (Node al ay ar) y b))
        with (inorder (Node al ay ar) ++ y :: inorder b).
      by rewrite E.
Qed.

Lemma inorder_nil t : inorder t = [] → t = Leaf.
Proof. destruct t as [|l x r]; [done|]. simpl. by destruct (inorder l). Qed.

(** Where an element sits in a list without duplicates. *)
Lemma nodup_split_unique (a a' b b' : list ptr) x :
  NoDup (a ++ x :: b) → a ++ x :: b = a' ++ x :: b' → a = a' ∧ b = b'.
Proof.
  revert a'. induction a as [|y a IH]; intros a' Hnd E.
  - destruct a' as [|y' a']; simpl in *.
    + by injection E.
    + injection E as -> E. apply NoDup_cons in Hnd as [Hx _].
      exfalso. apply Hx. rewrite E. mem.
  - destruct a' as [|y' a']; simpl in *.
    + injection E as -> E. apply NoDup_cons in Hnd as [Hx _].
      exfalso. apply Hx. mem.
    + injection E as -> E. apply NoDup_cons in Hnd as [_ Hnd].
      destruct (IH a' Hnd E) as [-> ->]. done.
Qed.

(** The record at [p] holds a value that [x] is not less than. *)
Definition not_above h (x : V) (p : ptr) : Prop :=
  ∃ a, key d h p = Some a ∧ compare x a = false.

(** [split] cuts the tree in two: the records whose value [x] is not
    less than, and those it is less than. *)
Lemma wp_split fuel x t h Q :
  trep (lk d h) None t → NoDup (inorder t) →
  StronglySorted (plt h) (inorder t) →
  length (inorder t) ≤ fuel →
  (∀ h' ta tb,
      trep (lk d h') None ta → trep (lk d h') None tb →
      inorder ta ++ inorder tb = inorder t →
      Forall (not_above h x) (inorder ta) →
      Forall (above h x) (inorder tb) →
      frame d (inorder t) h h' →
      Q (root ta, root tb) h') →
  wp (split d compare fuel (root t) x) h Q.
Proof.
  intros Ht Hnd Hso Hfuel HQ. destruct t as [|a y b].
  { simpl. apply wp_ret'. apply (HQ h Leaf Leaf); try done. by apply frame_refl. }
  unfold split. simpl root. cbv iota.
  apply wp_bind. apply (wp_find fuel x (Node a y b) h); try done.
  intros h' z l r kz Ht' E Hf Hkz Hlo Hhi.
  rewrite <- E in Hnd, Hso, Hf, HQ. simpl in Hnd, Hso.
  pose proof Ht' as (Hz & Hl & Hr).
  assert (Hkz' : key d h' z = Some kz) by (by rewrite (frame_key d _ h h' z Hf)).
  assert (Hlz : ∀ e, e ∈ inorder l → plt h e z).
  { intros e He. apply (StronglySorted_app_1_elem_of _ _ _ _ _ Hso); [done|mem]. }
  assert (Hzr : ∀ e, e ∈ inorder r → plt h z e).
  { intros e He. apply StronglySorted_app_1_r, StronglySorted_inv in Hso as [_ Hso].
    by eapply Forall_forall in Hso. }
  nodup_parts.
  wp_read Hkz'. destruct (compare x kz) eqn:Hxz; simpl.
  - (* the root goes to the second part *)
    wp_read Hz.
    apply wp_bind. eapply (wp_set_parent_root d h' (Some z) None l); [exact Hl|done|].
    intros h1 Hl1 Ho1 Hf1.
    apply wp_bind. eapply (wp_put_left d).
    { rewrite Ho1; [exact Hz|]. apply not_eq_sym, root_ne. disj. }
    simpl. intros h2 Hlk2 Hf2. apply wp_ret'.
    apply (HQ h2 l (Node Leaf z r)).
    + eapply trep_ext; [|exact Hl1]. intros e He.
      rewrite Hlk2, lookup_insert_ne; [done|]. disj.
    + simpl. split_and!; [by rewrite Hlk2, lookup_insert_eq|done|].
      eapply trep_ext; [|exact Hr]. intros e He.
      rewrite Hlk2, lookup_insert_ne, Ho1; [done| |disj].
      apply not_eq_sym, root_ne. disj.
    + done.
    + apply Forall_forall. intros e He.
      specialize (Hlo eq_refl). eapply Forall_forall in Hlo as (ke & Hke & Hex); [|done].
      exists ke. split; [done|]. by apply compare_asym.
    + simpl. constructor; [by exists kz|].
      apply Forall_forall. intros e He. apply (plt_above h x z e); [by apply Hzr|].
      by exists kz.
    + eapply (frame_step d); [|exact Hf2|incl].
      eapply (frame_step d); [exact Hf|exact Hf1|incl].
  - (* the root goes to the first part *)
    wp_read Hz.
    apply wp_bind. eapply (wp_set_parent_root d h' (Some z) None r); [exact Hr|done|].
    intros h1 Hr1 Ho1 Hf1.
    apply wp_bind. eapply (wp_put_right d).
    { rewrite Ho1; [exact Hz|]. apply not_eq_sym, root_ne. disj. }
    simpl. intros h2 Hlk2 Hf2. apply wp_ret'.
    apply (HQ h2 (Node l z Leaf) r).
    + simpl. split_and!; [by rewrite Hlk2, lookup_insert_eq| |done].
      eapply trep_ext; [|exact Hl]. intros e He.
      rewrite Hlk2, lookup_insert_ne, Ho1; [done| |disj].
      apply not_eq_sym, root_ne. disj.
    + eapply trep_ext; [|exact Hr1]. intros e He.
      rewrite Hlk2, lookup_insert_ne; [done|]. disj.
    + simpl. by rewrite <- app_assoc.
    + simpl. apply Forall_app. split; [|by repeat constructor; exists kz].
      apply Forall_forall. intros e He.
      destruct (Hlz e He) as (ke & kz' & Hke & Hkz2 & Hez).
      rewrite Hkz in Hkz2. injection Hkz2 as <-.
      exists ke. split; [done|].
      destruct (compare x ke) eqn:Hxe; [|done].
      by rewrite (compare_trans x ke kz Hxe Hez) in Hxz.
    + apply Forall_forall. intros e He.
      destruct (compare_total kz x) as [Hzx|[->|Hzx]].
      * specialize (Hhi Hzx). by eapply Forall_forall in Hhi.
      * destruct (Hzr e He) as (kz' & ke & Hkz2 & Hke & Hze).
        rewrite Hkz in Hkz2. injection Hkz2 as <-. by exists ke.
      * congruence.
    + eapply (frame_step d); [|exact Hf2|incl].
      eapply (frame_step d); [exact Hf|exact Hf1|incl].
Qed.

(** [merge] joins two trees, the records of the first all before those
    of the second. *)
Lemma wp_merge fuel ta tb h Q :
  trep (lk d h) None ta → trep (lk d h) None tb →
  NoDup (inorder ta ++ inorder tb) →
  StronglySorted (plt h) (inorder ta ++ inorder tb) →
  length (inorder tb) ≤ fuel →
  (∀ h' t',
      trep (lk d h') None t' →
      inorder t' = inorder ta ++ inorder tb →
      frame d (inorder ta ++ inorder tb) h h' →
      merged_root (inorder ta) (inorder tb) (root t') →
      Q (root t') h') →
  wp (merge d compare fuel (root ta) (root tb)) h Q.
Proof.
  intros Hta Htb Hnd Hso Hfuel HQ.
  destruct ta as [|al a ar].
  { simpl. apply wp_ret'. apply (HQ h tb); try done; [by apply frame_refl|].
    destruct tb as [|bl b br]; [done|]. simpl.
    destruct (inorder bl ++ b :: inorder br) eqn:E; [by destruct (inorder bl)|].
    exists b. split; [done|]. rewrite <- E. mem. }
  destruct tb as [|bl b br].
  { simpl. apply wp_ret'. apply (HQ h (Node al a ar)); try done.
    - simpl. by rewrite app_nil_r.
    - by apply frame_refl.
    - simpl. destruct (inorder al ++ a :: inorder ar) eqn:E;
        [by destruct (inorder al)|].
      exists a. split; [done|]. rewrite <- E. mem. }
  unfold merge. simpl root. cbv iota.
  pose proof Hta as (Ha & _).
  destruct (lk_key _ _ _ Ha) as [ka Hka].
  wp_read Hka.
  pose proof Hnd as Hnd'. apply NoDup_app in Hnd' as (Hnda & Hab & Hndb).
  apply wp_bind. apply (wp_find fuel ka (Node bl b br) h); try done.
  { by apply StronglySorted_app_1_r in Hso. }
  intros h1 z l r kz Ht1 E Hf1 Hkz Hlo Hhi.
  assert (Haz : ∀ e, e ∈ inorder (Node bl b br) → plt h a e).
  { intros e He. apply (StronglySorted_app_1_elem_of _ _ _ _ _ Hso); [|done].
    simpl. mem. }
  assert (Hl : l = Leaf).
  { apply inorder_nil. destruct (inorder l) as [|e l'] eqn:El; [done|]. exfalso.
    destruct (Haz z) as (ka' & kz' & Hka' & Hkz' & Hlt).
    { rewrite <- E. simpl. mem. }
    rewrite Hka in Hka'. injection Hka' as <-.
    rewrite Hkz in Hkz'. injection Hkz' as <-.
    specialize (Hlo Hlt). apply Forall_cons in Hlo as [(ke & Hke & Hea) _].
    destruct (Haz e) as (ka' & ke' & Hka' & Hke' & Hae).
    { rewrite <- E. simpl. rewrite El. mem. }
    rewrite Hka in Hka'. injection Hka' as <-.
    rewrite Hke in Hke'. injection Hke' as <-.
    by rewrite (compare_asym compare ka ke Hae) in Hea. }
  subst l. change (inorder (Node Leaf z r)) with (z :: inorder r) in E.
  rewrite <- E in Hnd, Hf1, HQ, Hab.
  pose proof Ht1 as (Hz & _ & Hr).
  simpl in Hnd. nodup_parts.
  assert (Hout : ∀ e, e ∈ inorder (Node al a ar) → lk d h1 !! e = lk d h !! e).
  { intros e He. apply (frame_lk_outside d _ h h1 e Hf1). by apply Hab. }
  apply wp_bind. eapply (wp_put_left d); [exact Hz|]. simpl. intros h2 Hlk2 Hf2.
  apply wp_bind.
  eapply (wp_set_parent_root d h2 None (Some z) (Node al a ar)).
  { eapply trep_ext; [|exact Hta]. intros e He.
    rewrite Hlk2, lookup_insert_ne, Hout; [done|done|]. simpl in He. disj. }
  { simpl. apply NoDup_app. split_and!; [done| |by apply NoDup_cons].
    intros e He. disj. }
  intros h3 Hta3 Ho3 Hf3. apply wp_ret'.
  apply (HQ h3 (Node (Node al a ar) z r)).
  - split_and!.
    + rewrite Ho3, Hlk2, lookup_insert_eq; [done|]. simpl. intros [= ->]. disj.
    + exact Hta3.
    + eapply trep_ext; [|exact Hr]. intros e He.
      rewrite Ho3, Hlk2, lookup_insert_ne; [done|disj|].
      simpl. intros [= ->]. disj.
  - done.
  - eapply (frame_step d); [|exact Hf3|incl].
    eapply (frame_step d); [|exact Hf2|incl].
    eapply frame_weaken; [|exact Hf1]. incl.
  - simpl. by destruct (inorder al ++ a :: inorder ar) eqn:Ea;
      [destruct (inorder al)|].
Qed.
End searching.

(** ** The container: one side at a time *)

(** The member a [root_ref] stands for. *)
Definition get_root {Left Right} (r : root_ref) (b : bimap Left Right) : option ptr :=
  match r with
  | ref_left_root => left_root b
  | ref_right_root => right_root b
  end.

Definition set_root {Left Right} (r : root_ref) (v : option ptr)
    (b : bimap Left Right) : bimap Left Right :=
  match r with
  | ref_left_root =>
      Bimap v (right_root b) (left_compare b) (right_compare b) (elements_count b)
  | ref_right_root =>
      Bimap (left_root b) v (left_compare b) (right_compare b) (elements_count b)
  end.

Definition set_count {Left Right} (c : Z) (b : bimap Left Right) : bimap Left Right :=
  Bimap (left_root b) (right_root b) (left_compare b) (right_compare b) c.

(** One side of a well-formed container: the root member points at a
    tree over the records [s], in this order, without repetition and
    sorted by the comparator of the side. *)
Definition side_ok {Left Right V} (d : descriptor Left Right V)
    (compare : V → V → bool) (h : gmap ptr (node_t Left Right))
    (rt : option ptr) (s : list ptr) : Prop :=
  ∃ t, trep (lk d h) None t ∧ root t = rt ∧ inorder t = s ∧
       NoDup s ∧ StronglySorted (plt d compare h) s.

Section container_rules.
Context {Left Right : Type}.

Implicit Types (h : gmap ptr (node_t Left Right)) (b : bimap Left Right).

Lemma wp_lift {A} (m : M (gmap ptr (node_t Left Right)) A) h b Q :
  wp m h (λ a h', Q a (h', b)) → wp (lift m) (h, b) Q.
Proof.
  intros (a & h' & Hm & HQ). exists a, (h', b). split; [|done].
  unfold lift. simpl. by rewrite Hm.
Qed.

Lemma wp_this h b Q : Q b (h, b) → wp this_ (h, b) Q.
Proof. intros HQ. by exists b, (h, b). Qed.

Lemma wp_read_root r h b Q : Q (get_root r b) (h, b) → wp (read_root r) (h, b) Q.
Proof. intros HQ. exists (get_root r b), (h, b). split; [|done]. by destruct r. Qed.

Lemma wp_write_root r v h b Q :
  Q tt (h, set_root r v b) → wp (write_root r v) (h, b) Q.
Proof. intros HQ. exists tt, (h, set_root r v b). split; [|done]. by destruct r. Qed.

Lemma wp_read_count h b Q : Q (elements_count b) (h, b) → wp read_count (h, b) Q.
Proof. intros HQ. by exists (elements_count b), (h, b). Qed.

Lemma wp_write_count c h b Q : Q tt (h, set_count c b) → wp (write_count c) (h, b) Q.
Proof. intros HQ. by exists tt, (h, set_count c b). Qed.

Lemma get_set_root r v b : get_root r (set_root r v b) = v.
Proof. by destruct r. Qed.

Lemma get_set_root_ne r r' v b : r ≠ r' → get_root r' (set_root r v b) = get_root r' b.
Proof. by destruct r, r'. Qed.

Lemma set_set_root r v v' b : set_root r v (set_root r v' b) = set_root r v b.
Proof. by destruct r. Qed.

Lemma set_get_root r b : set_root r (get_root r b) b = b.
Proof. by destruct r, b. Qed.
End container_rules.

(** Stepping over reads and writes of the members of [*this]. *)
Ltac wp_member :=
  lazymatch goal with
  | |- wp (_ ≫= _) _ _ => apply wp_bind
  | _ => idtac
  end;
  first [ apply wp_read_root | apply wp_write_root | apply wp_this
        | apply wp_read_count | apply wp_write_count ];
  rewrite ?get_set_root.

Section one_side_specs.
Context {Left Right V : Type} `{EqDecision Left, EqDecision Right}.
Context (d : descriptor Left Right V) `{!DescriptorLaws d}.
Context (compare : V → V → bool) `{!StrictTotal compare}.

Implicit Types (h : gmap ptr (node_t Left Right)) (b : bimap Left Right).

Lemma side_ok_length h rt s : side_ok d compare h rt s → rt = None ↔ s = [].
Proof.
  intros (t & Ht & <- & <- & _). split.
  - by intros ->%root_None.
  - by intros ->%inorder_nil.
Qed.

(** [insert<Descriptor>(root, new_node, compare)]: the new record
    becomes the root, between the two parts of the old tree. *)
Lemma wp_insert_node fuel r (n : ptr) x h b s Q :
  side_ok d compare h (get_root r b) s →
  n ∉ s →
  lk d h !! n = Some (TreeNode None None None) →
  key d h n = Some x →
  Forall (λ p, key d h p ≠ Some x) s →
  length s ≤ fuel →
  (∀ h' s1 s2,
      s = s1 ++ s2 →
      side_ok d compare h' (Some n) (s1 ++ n :: s2) →
      frame d (n :: s) h h' →
      Q tt (h', set_root r (Some n) b)) →
  wp (insert_node d fuel r (Some n) compare) (h, b) Q.
Proof.
  intros (t & Ht & Hrt & <- & Hnd & Hso) Hn Hlkn Hkn Habs Hfuel HQ.
  unfold insert_node.
  wp_member. apply wp_bind, wp_lift. wp_read Hkn.
  apply wp_bind, wp_lift. rewrite <- Hrt.
  apply (wp_split d compare fuel x t h); try done.
  intros h1 ta tb Hta Htb E Hlo Hhi Hf1.
  rewrite <- E in Hnd, Hso, Hn, Hf1, HQ, Habs. clear E.
  assert (Hn1 : lk d h1 !! n = Some (TreeNode None None None)).
  { by rewrite (frame_lk_outside d _ h h1 n Hf1). }
  apply NoDup_app in Hnd as (Hnda & H2 & Hndb).
  assert (H2' : ∀ x, x ∈ inorder tb → x ∉ inorder ta) by (intros e He1 He2; by eapply H2).
  assert (Hnta : n ∉ inorder ta) by (intros ?; apply Hn; mem).
  assert (Hntb : n ∉ inorder tb) by (intros ?; apply Hn; mem).
  cbn beta. wp_member. wp_member.
  apply wp_bind, wp_lift. eapply (wp_put_left d); [exact Hn1|]. simpl.
  intros h2 Hlk2 Hf2.
  wp_member.
  apply wp_bind, wp_lift. eapply (wp_put_right d).
  { rewrite Hlk2, lookup_insert_eq. done. }
  simpl. intros h3 Hlk3 Hf3.
  wp_member.
  apply wp_bind, wp_lift.
  eapply (wp_set_parent_root d h3 None (Some n) ta); [|done|].
  { eapply trep_ext; [|exact Hta]. intros e He.
    rewrite Hlk3, lookup_insert_ne, Hlk2, lookup_insert_ne; [done|..];
      intros ->; done. }
  intros h4 Hta4 Ho4 Hf4.
  wp_member.
  apply wp_lift.
  eapply (wp_set_parent_root d h4 None (Some n) tb); [|done|].
  { eapply trep_ext; [|exact Htb]. intros e He.
    rewrite Ho4, Hlk3, lookup_insert_ne, Hlk2, lookup_insert_ne; [done|..].
    - intros ->; done.
    - intros ->; done.
    - apply not_eq_sym, root_ne. by apply H2'. }
  intros h5 Htb5 Ho5 Hf5.
  assert (Hf : frame d (n :: inorder ta ++ inorder tb) h h5).
  { eapply (frame_step d); [|exact Hf5|incl].
    eapply (frame_step d); [|exact Hf4|incl].
    eapply (frame_step d); [|exact Hf3|incl].
    eapply (frame_step d); [|exact Hf2|incl].
    eapply frame_weaken; [|exact Hf1]. incl. }
  apply (HQ h5 (inorder ta) (inorder tb)); [done| |done].
  exists (Node ta n tb). split_and!.
  - simpl. split_and!.
    + rewrite Ho5, Ho4, Hlk3, lookup_insert_eq; [done|..];
        by apply not_eq_sym, root_ne.
    + eapply trep_ext; [|exact Hta4]. intros e He. rewrite Ho5; [done|].
      apply not_eq_sym, root_ne. by eapply H2.
    + exact Htb5.
  - done.
  - done.
  - apply NoDup_app. split_and!; [done| |by apply NoDup_cons].
    intros e He [->|He']%elem_of_cons; [done|]. by eapply H2.
  - eapply sorted_frame; [done|exact Hf|].
    apply StronglySorted_app_2.
    + intros e1 e2 He1 [->|He2]%elem_of_cons.
      * eapply Forall_forall in Hlo as (k1 & Hk1 & Hx1); [|exact He1].
        exists k1, x. split_and!; [done..|].
        destruct (compare_total k1 x) as [?|[->|Hc]]; [done| |congruence].
        eapply Forall_forall in Habs; [|apply elem_of_app; left; exact He1].
        done.
      * by apply (StronglySorted_app_1_elem_of _ _ _ _ _ Hso).
    + by apply StronglySorted_app_1_l in Hso.
    + constructor; [by apply StronglySorted_app_1_r in Hso|].
      eapply Forall_impl; [exact Hhi|]. intros e (ke & Hke & Hxe).
      by exists x, ke.
Qed.

Lemma sorted_remove h (s1 s2 : list ptr) z :
  StronglySorted (plt d compare h) (s1 ++ z :: s2) →
  StronglySorted (plt d compare h) (s1 ++ s2).
Proof.
  intros Hso. apply StronglySorted_app in Hso as (Hx & H1 & H2).
  apply StronglySorted_inv in H2 as [H2 _].
  apply StronglySorted_app_2; [|done..].
  intros e1 e2 He1 He2. apply Hx; [done|mem].
Qed.

(** [erase<Descriptor>(root, compare)]: the root record leaves the
    tree, the rest keeps its order. *)
Lemma wp_erase fuel r h b l z rr Q :
  trep (lk d h) None (Node l z rr) → get_root r b = Some z →
  NoDup (inorder (Node l z rr)) →
  StronglySorted (plt d compare h) (inorder (Node l z rr)) →
  length (inorder (Node l z rr)) ≤ fuel →
  (∀ h' rt',
      side_ok d compare h' rt' (inorder l ++ inorder rr) →
      frame d (inorder (Node l z rr)) h h' →
      merged_root (inorder l) (inorder rr) rt' →
      Q (Some z) (h', set_root r rt' b)) →
  wp (erase d fuel r compare) (h, b) Q.
Proof.
  intros Ht Hrt Hnd Hso Hfuel HQ. pose proof Ht as (Hz & Hl & Hr).
  simpl in Hnd, Hso, Hfuel. rewrite length_app in Hfuel. simpl in Hfuel.
  pose proof Hnd as Hnd'.
  apply NoDup_app in Hnd' as (Hndl & Hlr & Hndr).
  apply NoDup_cons in Hndr as (Hzr & Hndr).
  assert (Hzl : z ∉ inorder l) by (intros ?; eapply Hlr; [done|mem]).
  assert (Hlr' : ∀ e, e ∈ inorder l → e ∉ inorder rr)
    by (intros e He ?; eapply Hlr; [done|mem]).
  assert (Hrl' : ∀ e, e ∈ inorder rr → e ∉ inorder l)
    by (intros e He ?; by eapply Hlr').
  unfold erase. wp_member. rewrite Hrt.
  apply wp_bind, wp_lift. wp_read Hz.
  apply wp_bind, wp_lift.
  eapply (wp_set_parent_root d h (Some z) None l); [done..|].
  intros h1 Hl1 Ho1 Hf1.
  assert (Hz1 : lk d h1 !! z = Some (TreeNode (root l) (root rr) None)).
  { rewrite Ho1; [done|]. by apply not_eq_sym, root_ne. }
  apply wp_bind, wp_lift. wp_read Hz1.
  apply wp_bind, wp_lift.
  eapply (wp_set_parent_root d h1 (Some z) None rr); [|done|].
  { eapply trep_ext; [|exact Hr]. intros e He. rewrite Ho1; [done|].
    apply not_eq_sym, root_ne. by apply Hrl'. }
  intros h2 Hr2 Ho2 Hf2.
  assert (Hz2 : lk d h2 !! z = Some (TreeNode (root l) (root rr) None)).
  { rewrite Ho2; [done|]. by apply not_eq_sym, root_ne. }
  apply wp_bind, wp_lift. wp_read Hz2.
  apply wp_bind, wp_lift. wp_read Hz2.
  assert (Hf02 : frame d (inorder l ++ z :: inorder rr) h h2).
  { eapply (frame_step d); [|exact Hf2|incl].
    eapply frame_weaken; [|exact Hf1]. incl. }
  apply wp_bind, wp_lift.
  apply (wp_merge d compare fuel l rr h2).
  { eapply trep_ext; [|exact Hl1]. intros e He. rewrite Ho2; [done|].
    apply not_eq_sym, root_ne. by apply Hlr'. }
  { exact Hr2. }
  { by apply NoDup_app. }
  { eapply sorted_frame; [done|exact Hf02|]. by eapply sorted_remove. }
  { lia. }
  intros h3 t' Ht' E Hf3 Hmr.
  wp_member. rewrite Hrt. wp_member. apply wp_ret'.
  apply HQ.
  - exists t'. split_and!; [done|done|done|by apply NoDup_app|].
    eapply sorted_frame; [done|exact Hf3|].
    eapply sorted_frame; [done|exact Hf02|]. by eapply sorted_remove.
  - eapply (frame_step d); [exact Hf02|exact Hf3|incl].
  - exact Hmr.
Qed.

(** [find] on the tree of one side. *)
Lemma wp_find_side fuel x h rt s Q :
  side_ok d compare h rt s → length s ≤ fuel →
  (s = [] → rt = None → Q None h) →
  (∀ h' z l r kz,
      trep (lk d h') None (Node l z r) →
      inorder l ++ z :: inorder r = s →
      frame d s h h' →
      key d h z = Some kz →
      (compare x kz = true → Forall (below d compare h x) (inorder l)) →
      (compare kz x = true → Forall (above d compare h x) (inorder r)) →
      Q (Some z) h') →
  wp (find d compare fuel rt x) h Q.
Proof.
  intros (t & Ht & <- & <- & Hnd & Hso) Hfuel Hnil Hcons.
  destruct t as [|l y r].
  { unfold find. destruct fuel; simpl; apply wp_ret'; by apply Hnil. }
  apply (wp_find d compare fuel x (Node l y r) h); try done.
Qed.

(** When [find] stops at a record holding another value, no record of
    the tree holds the sought one. *)
Lemma find_miss x h l z r kz :
  StronglySorted (plt d compare h) (inorder l ++ z :: inorder r) →
  key d h z = Some kz → kz ≠ x →
  (compare x kz = true → Forall (below d compare h x) (inorder l)) →
  (compare kz x = true → Forall (above d compare h x) (inorder r)) →
  Forall (λ p, key d h p ≠ Some x) (inorder l ++ z :: inorder r).
Proof.
  intros Hso Hkz Hne Hlo Hhi. apply Forall_forall. intros p Hp Hkp.
  apply elem_of_app in Hp as [Hp|[->|Hp]%elem_of_cons].
  - assert (plt d compare h p z) as (kp & kz' & Hkp' & Hkz' & Hlt).
    { apply (StronglySorted_app_1_elem_of _ _ _ _ _ Hso); [done|mem]. }
    rewrite Hkp in Hkp'. injection Hkp' as <-.
    rewrite Hkz in Hkz'. injection Hkz' as <-.
    specialize (Hlo Hlt). eapply Forall_forall in Hlo as (kp & Hkp' & Hpx); [|done].
    rewrite Hkp in Hkp'. injection Hkp' as <-.
    by rewrite compare_irrefl in Hpx.
  - congruence.
  - assert (plt d compare h z p) as (kz' & kp & Hkz' & Hkp' & Hlt).
    { apply StronglySorted_app_1_r, StronglySorted_inv in Hso as [_ Hso].
      by eapply Forall_forall in Hso. }
    rewrite Hkp in Hkp'. injection Hkp' as <-.
    rewrite Hkz in Hkz'. injection Hkz' as <-.
    specialize (Hhi Hlt). eapply Forall_forall in Hhi as (kp & Hkp' & Hpx); [|done].
    rewrite Hkp in Hkp'. injection Hkp' as <-.
    by rewrite compare_irrefl in Hpx.
Qed.

(** The record at [p] holds a value not less than [x]. *)
Definition not_below h (x : V) (p : ptr) : Prop :=
  ∃ a, key d h p = Some a ∧ compare a x = false.

(** What [lower_bound] returns: the first record, in the order of the
    side, whose value is not less than [x]. *)
Definition is_lower_bound h (x : V) (s : list ptr) (res : option ptr) : Prop :=
  match res with
  | Some m => ∃ s1 s2, s = s1 ++ m :: s2 ∧
                       Forall (below d compare h x) s1 ∧ not_below h x m
  | None => Forall (below d compare h x) s
  end.

(** What [upper_bound] returns: the first record whose value is
    greater than [x]. *)
Definition is_upper_bound h (x : V) (s : list ptr) (res : option ptr) : Prop :=
  match res with
  | Some m => ∃ s1 s2, s = s1 ++ m :: s2 ∧
                       Forall (not_above d compare h x) s1 ∧ above d compare h x m
  | None => Forall (not_above d compare h x) s
  end.

(** [minimum(right(root))] as the two bound queries use it: the first
    record after the root becomes the root. *)
Lemma wp_minimum_right fuel h l z r Q :
  trep (lk d h) None (Node l z r) → r ≠ Leaf →
  NoDup (inorder (Node l z r)) →
  length (inorder (Node l z r)) ≤ fuel →
  (∀ h' m rest t',
      inorder r = m :: rest →
      trep (lk d h') None t' → root t' = Some m →
      inorder t' = inorder (Node l z r) →
      frame d (inorder (Node l z r)) h h' →
      Q (Some m) h') →
  wp (minimum d fuel (root r)) h Q.
Proof.
  intros Ht Hne Hnd Hfuel HQ. pose proof Ht as (Hz & Hl & Hr).
  unfold minimum. apply wp_bind.
  apply (wp_sink_left d fuel r (Some z) h); [done|done| |].
  { simpl in Hfuel. rewrite length_app in Hfuel. simpl in Hfuel. lia. }
  intros m rest E.
  apply (wp_splay d fuel h (Node l z r) m); [done|done| |done|].
  { simpl. rewrite E. mem. }
  intros h' l' r' Ht' E' Hf.
  apply (HQ h' m rest (Node l' m r')); done.
Qed.

Lemma sorted_before h (s1 s2 : list ptr) z e :
  StronglySorted (plt d compare h) (s1 ++ z :: s2) → e ∈ s1 → plt d compare h e z.
Proof. intros Hso He. apply (StronglySorted_app_1_elem_of _ _ _ _ _ Hso); [done|mem]. Qed.

Lemma sorted_after h (s1 s2 : list ptr) z e :
  StronglySorted (plt d compare h) (s1 ++ z :: s2) → e ∈ s2 → plt d compare h z e.
Proof.
  intros Hso He. apply StronglySorted_app_1_r, StronglySorted_inv in Hso as [_ Hso].
  by eapply Forall_forall in Hso.
Qed.

Lemma plt_key h p q kp kq :
  plt d compare h p q → key d h p = Some kp → key d h q = Some kq →
  compare kp kq = true.
Proof. intros (a & b' & Ha & Hb & Hab) Hp Hq. congruence. Qed.

Lemma wp_lower_bound fuel r x h b s Q :
  side_ok d compare h (get_root r b) s → length s ≤ fuel →
  (∀ h' rt' res,
      side_ok d compare h' rt' s → frame d s h h' →
      is_lower_bound h x s res →
      Q res (h', set_root r rt' b)) →
  wp (lower_bound d fuel r x compare) (h, b) Q.
Proof.
  intros Hok Hfuel HQ. pose proof Hok as (t0 & _ & _ & _ & Hnd & Hso).
  unfold lower_bound. wp_member. apply wp_bind, wp_lift.
  eapply (wp_find_side fuel x h); [exact Hok|done| |].
  { intros -> Hrt. wp_member. apply wp_ret'. rewrite Hrt in Hok.
    apply (HQ h None None); [done|by apply frame_refl|by constructor]. }
  intros h' z l rr kz Ht' E Hf Hkz Hlo Hhi. subst s.
  wp_member. cbv iota.
  assert (Hkz' : key d h' z = Some kz) by (by rewrite (frame_key d _ h h' z Hf)).
  apply wp_bind, wp_lift. wp_read Hkz'.
  assert (Hok' : side_ok d compare h' (Some z) (inorder l ++ z :: inorder rr)).
  { exists (Node l z rr). split_and!; try done. by eapply sorted_frame. }
  assert (Hl : compare kz x = true → Forall (below d compare h x) (inorder l ++ [z])).
  { intros Hzx. apply Forall_app. split; [|by repeat constructor; exists kz].
    apply Forall_forall. intros e He.
    apply (plt_below d compare h x e z); [by eapply sorted_before|by exists kz]. }
  destruct (compare kz x) eqn:Hzx; simpl.
  - (* the root is less: look to its right *)
    pose proof Ht' as (Hz & _ & _).
    apply wp_bind, wp_lift. wp_read Hz.
    destruct rr as [|rl ry rr].
    + simpl. apply wp_ret'.
      apply (HQ h' (Some z) None); [done|done|].
      simpl. by apply Hl.
    + simpl root. cbv iota. apply wp_bind, wp_lift.
      apply (wp_minimum_right fuel h' l z (Node rl ry rr)); [done..|].
      intros h2 m rest t' E Ht2 Hrt2 E2 Hf2.
      wp_member. rewrite set_set_root. apply wp_ret'.
      apply (HQ h2 (Some m) (Some m)).
      * exists t'. split_and!; try done.
        eapply sorted_frame; [done|exact Hf2|]. by eapply sorted_frame.
      * eapply frame_trans; [done|exact Hf|exact Hf2].
      * exists (inorder l ++ [z]), rest. split_and!.
        -- rewrite E. by rewrite <- app_assoc.
        -- by apply Hl.
        -- specialize (Hhi eq_refl). rewrite E in Hhi.
           apply Forall_cons in Hhi as [(km & Hkm & Hxm) _].
           exists km. split; [done|]. by apply compare_asym.
  - (* the root is not less *)
    apply wp_ret'. apply (HQ h' (Some z) (Some z)); [done|done|].
    exists (inorder l), (inorder rr). split_and!; [done| |by exists kz].
    destruct (compare_total x kz) as [Hxz|[->|Hxz]]; [by apply Hlo| |congruence].
    apply Forall_forall. intros e He. destruct (sorted_before h _ _ _ e Hso He)
      as (ke & kz' & Hke & Hkz2 & Hlt).
    exists ke. split; [done|]. congruence.
Qed.

Lemma wp_upper_bound fuel r x h b s Q :
  side_ok d compare h (get_root r b) s → length s ≤ fuel →
  (∀ h' rt' res,
      side_ok d compare h' rt' s → frame d s h h' →
      is_upper_bound h x s res →
      Q res (h', set_root r rt' b)) →
  wp (upper_bound d fuel r x compare) (h, b) Q.
Proof.
  intros Hok Hfuel HQ. pose proof Hok as (t0 & _ & _ & _ & Hnd & Hso).
  unfold upper_bound. wp_member. apply wp_bind, wp_lift.
  eapply (wp_find_side fuel x h); [exact Hok|done| |].
  { intros -> Hrt. wp_member. apply wp_ret'. rewrite Hrt in Hok.
    apply (HQ h None None); [done|by apply frame_refl|by constructor]. }
  intros h' z l rr kz Ht' E Hf Hkz Hlo Hhi. subst s.
  wp_member. cbv iota.
  assert (Hkz' : key d h' z = Some kz) by (by rewrite (frame_key d _ h h' z Hf)).
  apply wp_bind, wp_lift. wp_read Hkz'.
  assert (Hok' : side_ok d compare h' (Some z) (inorder l ++ z :: inorder rr)).
  { exists (Node l z rr). split_and!; try done. by eapply sorted_frame. }
  assert (Hl : compare x kz = false →
               Forall (not_above d compare h x) (inorder l ++ [z])).
  { intros Hxz. apply Forall_app. split; [|by repeat constructor; exists kz].
    apply Forall_forall. intros e He.
    destruct (sorted_before h _ _ _ e Hso He) as (ke & kz' & Hke & Hkz2 & Hlt).
    rewrite Hkz in Hkz2. injection Hkz2 as <-.
    exists ke. split; [done|]. destruct (compare x ke) eqn:Hxe; [|done].
    by rewrite (compare_trans x ke kz Hxe Hlt) in Hxz. }
  destruct (compare x kz) eqn:Hxz; simpl.
  - (* the root is greater *)
    apply wp_ret'. apply (HQ h' (Some z) (Some z)); [done|done|].
    exists (inorder l), (inorder rr). split_and!; [done| |by exists kz].
    eapply Forall_impl; [by apply Hlo|]. intros e (ke & Hke & Hex).
    exists ke. split; [done|]. by apply compare_asym.
  - (* the root is not greater: look to its right *)
    pose proof Ht' as (Hz & _ & _).
    apply wp_bind, wp_lift. wp_read Hz.
    destruct rr as [|rl ry rr].
    + simpl. apply wp_ret'.
      apply (HQ h' (Some z) None); [done|done|].
      simpl. by apply Hl.
    + simpl root. cbv iota. apply wp_bind, wp_lift.
      apply (wp_minimum_right fuel h' l z (Node rl ry rr)); [done..|].
      intros h2 m rest t' E Ht2 Hrt2 E2 Hf2.
      wp_member. rewrite set_set_root. apply wp_ret'.
      apply (HQ h2 (Some m) (Some m)).
      * exists t'. split_and!; try done.
        eapply sorted_frame; [done|exact Hf2|]. by eapply sorted_frame.
      * eapply frame_trans; [done|exact Hf|exact Hf2].
      * exists (inorder l ++ [z]), rest. split_and!.
        -- rewrite E. by rewrite <- app_assoc.
        -- by apply Hl.
        -- assert (Hm : m ∈ inorder (Node rl ry rr)) by (rewrite E; mem).
           destruct (compare_total kz x) as [Hzx|[->|Hzx]]; [| |congruence].
           ++ specialize (Hhi Hzx). by eapply Forall_forall in Hhi.
           ++ destruct (sorted_after h _ _ _ m Hso Hm) as (kz' & km & Hkz2 & Hkm & Hlt).
              exists km. split; [done|]. congruence.
Qed.
End one_side_specs.

(** ** The container: one side reading the other *)

Section lookup_specs.
Context {Left Right V V2 : Type} `{EqDecision V}.
Context (d : descriptor Left Right V) `{!DescriptorLaws d}.
Context (d2 : descriptor Left Right V2) `{!Independent d d2}.
Context (compare : V → V → bool) `{!StrictTotal compare}.

Implicit Types (h : gmap ptr (node_t Left Right)) (b : bimap Left Right).

(** What a lookup of [x] finds among the records [s]: the record
    holding [x], or that none does. *)
Definition is_found h (x : V) (s : list ptr) (res : option ptr) : Prop :=
  match res with
  | Some p => p ∈ s ∧ key d h p = Some x
  | None => Forall (λ p, key d h p ≠ Some x) s
  end.

Lemma other_key_frame S h h' p : frame d S h h' → key d2 h' p = key d2 h p.
Proof. intros Hf. by apply (frame_other_value d d2 S h h' p). Qed.

Lemma wp_find_element this fuel r x h b s Q :
  side_ok d compare h (get_root r b) s → length s ≤ fuel →
  (∀ h' rt' res,
      side_ok d compare h' rt' s → frame d s h h' →
      is_found h x s res →
      Q (Iterator d d2 this res) (h', set_root r rt' b)) →
  wp (find_element d d2 this fuel r x compare) (h, b) Q.
Proof.
  intros Hok Hfuel HQ. pose proof Hok as (t0 & _ & _ & _ & Hnd & Hso).
  unfold find_element. wp_member. apply wp_bind, wp_lift.
  eapply (wp_find_side d compare fuel x h); [exact Hok|done| |].
  { intros -> Hrt. apply wp_ret'.
    pose proof (HQ h (get_root r b) None) as HQ'. rewrite set_get_root in HQ'.
    apply HQ'; [done|by apply frame_refl|by constructor]. }
  intros h' z l rr kz Ht' E Hf Hkz Hlo Hhi. subst s.
  cbv iota. wp_member. wp_member.
  assert (Hkz' : key d h' z = Some kz) by (by rewrite (frame_key d _ h h' z Hf)).
  assert (Hok' : side_ok d compare h' (Some z) (inorder l ++ z :: inorder rr)).
  { exists (Node l z rr). split_and!; try done. by eapply sorted_frame. }
  apply wp_bind, wp_lift. wp_read Hkz'.
  case_bool_decide as Hx; apply wp_ret'.
  - subst kz. apply (HQ h' (Some z) (Some z)); [done|done|].
    split; [mem|done].
  - apply (HQ h' (Some z) None); [done|done|].
    by apply (find_miss d compare x h l z rr kz).
Qed.

(** [at_element<FirstDescriptor, SecondDescriptor>]: the value of the
    other side at the record holding [x], or the exception. *)
Lemma wp_at_element fuel r x h b s Q :
  side_ok d compare h (get_root r b) s → length s ≤ fuel →
  (∀ h' rt' res,
      side_ok d compare h' rt' s → frame d s h h' →
      match res with
      | Returned w => ∃ p, p ∈ s ∧ key d h p = Some x ∧ key d2 h p = Some w
      | Thrown _ => Forall (λ p, key d h p ≠ Some x) s
      end →
      Q res (h', set_root r rt' b)) →
  wp (at_element d d2 fuel r x compare) (h, b) Q.
Proof.
  intros Hok Hfuel HQ. pose proof Hok as (t0 & _ & _ & _ & Hnd & Hso).
  unfold at_element. wp_member. apply wp_bind, wp_lift.
  eapply (wp_find_side d compare fuel x h); [exact Hok|done| |].
  { intros -> Hrt. wp_member. apply wp_ret'. rewrite Hrt in Hok.
    apply (HQ h None (Thrown out_of_range)); [done|by apply frame_refl|by constructor]. }
  intros h' z l rr kz Ht' E Hf Hkz Hlo Hhi. subst s.
  wp_member. cbv iota.
  assert (Hkz' : key d h' z = Some kz) by (by rewrite (frame_key d _ h h' z Hf)).
  assert (Hok' : side_ok d compare h' (Some z) (inorder l ++ z :: inorder rr)).
  { exists (Node l z rr). split_and!; try done. by eapply sorted_frame. }
  apply wp_bind, wp_lift. wp_read Hkz'.
  case_bool_decide as Hx.
  - subst kz. pose proof Hkz' as (n & Hn & Hv)%key_Some.
    assert (Hw : key d2 h' z = Some (value d2 n)) by (unfold key; by rewrite Hn).
    apply wp_bind, wp_lift. wp_read Hw. apply wp_ret'.
    apply (HQ h' (Some z) (Returned (value d2 n))); [done|done|].
    exists z. split_and!; [mem|done|]. by rewrite <- (other_key_frame _ h h' z Hf).
  - apply wp_ret'. apply (HQ h' (Some z) (Thrown out_of_range)); [done|done|].
    by apply (find_miss d compare x h l z rr kz).
Qed.

(** What [find] leaves at the root: the record holding [x], or some
    record of a tree in which none holds [x]. *)
Definition root_found h (x : V) (s : list ptr) (rt : option ptr) : Prop :=
  match rt with
  | None => s = []
  | Some z => ∃ kz, key d h z = Some kz ∧ z ∈ s ∧
                    (kz = x ∨ Forall (λ p, key d h p ≠ Some x) s)
  end.

Lemma root_found_keys h h' x s rt :
  (∀ p, key d h' p = key d h p) → root_found h x s rt → root_found h' x s rt.
Proof.
  intros Hk. destruct rt as [z|]; simpl; [|done].
  intros (kz & Hkz & Hz & Hcase). exists kz. rewrite Hk. split_and!; [done..|].
  destruct Hcase as [->|Habs]; [by left|right].
  eapply Forall_impl; [exact Habs|]. intros p Hp. by rewrite Hk.
Qed.

Lemma wp_find_root fuel x h rt s Q :
  side_ok d compare h rt s → length s ≤ fuel →
  (∀ h' rt',
      side_ok d compare h' rt' s → frame d s h h' →
      root_found h x s rt' →
      Q rt' h') →
  wp (find d compare fuel rt x) h Q.
Proof.
  intros Hok Hfuel HQ. pose proof Hok as (t0 & _ & _ & _ & Hnd & Hso).
  eapply (wp_find_side d compare fuel x h); [exact Hok|done| |].
  { intros -> Hrt. rewrite Hrt in Hok.
    apply (HQ h None); [done|by apply frame_refl|done]. }
  intros h' z l rr kz Ht' E Hf Hkz Hlo Hhi. subst s.
  apply (HQ h' (Some z)); [|done|].
  - exists (Node l z rr). split_and!; try done. by eapply sorted_frame.
  - exists kz. split_and!; [done|mem|].
    destruct (decide (kz = x)) as [->|Hne]; [by left|right].
    by apply (find_miss d compare x h l z rr kz).
Qed.

(** The test [root == nullptr || !(value(root) == x)] of
    [insert_by_values]. *)
Lemma wp_root_free x h b rt s Q :
  NoDup s → root_found h x s rt →
  (∀ free : bool,
      (if free then Forall (λ p, key d h p ≠ Some x) s
       else ∃ p, p ∈ s ∧ key d h p = Some x) →
      Q free (h, b)) →
  wp (match rt with
      | None => ret true
      | Some _ => v ← lift (get_value d rt); ret (negb (bool_decide (v = x)))
      end) (h, b) Q.
Proof.
  intros Hnd Hrf HQ. destruct rt as [z|]; simpl in Hrf.
  - destruct Hrf as (kz & Hkz & Hz & Hcase).
    apply wp_bind, wp_lift. wp_read Hkz. apply wp_ret'.
    case_bool_decide as Hx; simpl; apply HQ.
    + subst kz. by exists z.
    + by destruct Hcase.
  - subst s. apply wp_ret'. apply HQ. constructor.
Qed.
End lookup_specs.

(** ** The container: what one side's changes leave of the other *)

Section preservation.
Context {Left Right V V' : Type}.
Context (d : descriptor Left Right V) `{!DescriptorLaws d}.
Context (d' : descriptor Left Right V') `{!DescriptorLaws d'} `{!Independent d' d}.
Context (compare : V → V → bool).

Implicit Types (h : gmap ptr (node_t Left Right)).

Lemma side_ok_alive h rt s p : side_ok d compare h rt s → p ∈ s → is_Some (h !! p).
Proof.
  intros (t & Ht & _ & <- & _) Hp.
  destruct (trep_lookup _ _ _ _ Ht Hp) as [tn Htn].
  apply lk_Some in Htn as (n & Hn & _). by exists n.
Qed.

Lemma sorted_same_keys h h' (s : list ptr) :
  (∀ p, p ∈ s → key d h' p = key d h p) →
  StronglySorted (plt d compare h) s → StronglySorted (plt d compare h') s.
Proof.
  intros Hk Hso. induction Hso as [|p s Hs IH Hp]; constructor.
  - apply IH. intros q Hq. apply Hk. mem.
  - apply Forall_forall. intros q Hq.
    eapply Forall_forall in Hp as (a & b & Ha & Hb & Hab); [|done].
    exists a, b. rewrite !Hk; [done|mem..].
Qed.

Lemma side_ok_same h h' rt s :
  (∀ p, p ∈ s → h' !! p = h !! p) →
  side_ok d compare h rt s → side_ok d compare h' rt s.
Proof.
  intros Hsame (t & Ht & Hrt & E & Hnd & Hso). exists t. split_and!; try done.
  - eapply trep_ext; [|exact Ht]. intros y Hy. unfold lk.
    rewrite !lookup_fmap, Hsame; [done|]. by rewrite <- E.
  - eapply sorted_same_keys; [|exact Hso]. intros p Hp. unfold key.
    by rewrite Hsame.
Qed.

(** The other side relinked. *)
Lemma side_ok_frame_other S h h' rt s :
  frame d' S h h' → side_ok d compare h rt s → side_ok d compare h' rt s.
Proof.
  intros Hf (t & Ht & Hrt & E & Hnd & Hso). exists t. split_and!; try done.
  - unfold lk. by rewrite (frame_other d' d S h h' Hf).
  - eapply sorted_same_keys; [|exact Hso]. intros p Hp.
    by apply (frame_other_value d' d S h h' p).
Qed.

(** A record outside the tree freed. *)
Lemma side_ok_delete h rt s z :
  z ∉ s → side_ok d compare h rt s → side_ok d compare (delete z h) rt s.
Proof.
  intros Hz. apply side_ok_same. intros p Hp.
  rewrite lookup_delete_ne; [done|]. by intros ->.
Qed.

(** A record allocated. *)
Lemma side_ok_alloc h rt s z nd :
  h !! z = None → side_ok d compare h rt s →
  side_ok d compare (<[z := nd]> h) rt s.
Proof.
  intros Hz Hok. eapply side_ok_same; [|exact Hok]. intros p Hp.
  rewrite lookup_insert_ne; [done|]. intros ->.
  destruct (side_ok_alive h rt s p Hok Hp) as [? ?]. congruence.
Qed.
End preservation.

Section memory.
Context {Left Right : Type}.

Implicit Types (h : gmap ptr (node_t Left Right)).

Lemma wp_delete_node h z n Q :
  h !! z = Some n → Q tt (delete z h) → wp (delete_node (Some z)) h Q.
Proof. intros Hz HQ. eapply wp_run; [|exact HQ]. unfold delete_node. by rewrite Hz. Qed.

Lemma wp_new_node h (l : Left) (r : Right) Q :
  (∀ n, h !! n = None → Q (Some n) (<[n := node_new l r]> h)) →
  wp (new_node l r) h Q.
Proof.
  intros HQ. eapply wp_run; [reflexivity|]. apply HQ.
  apply not_elem_of_dom. apply is_fresh.
Qed.
End memory.

(** ** The container: both sides together *)

Section two_side_specs.
Context {Left Right V1 V2 : Type} `{EqDecision V1}.
Context (d1 : descriptor Left Right V1) `{!DescriptorLaws d1}.
Context (d2 : descriptor Left Right V2) `{!DescriptorLaws d2}.
Context `{!Independent d1 d2} `{!Independent d2 d1}.
Context (cmp1 : V1 → V1 → bool) `{!StrictTotal cmp1}.
Context (cmp2 : V2 → V2 → bool) `{!StrictTotal cmp2}.
Context (r1 r2 : root_ref) (Hr : r1 ≠ r2).

Implicit Types (h : gmap ptr (node_t Left Right)) (b : bimap Left Right).

(** The same records holding the same values: only links differ. *)
Definition kept h h' : Prop :=
  dom h' = dom h ∧
  (∀ p, key d1 h' p = key d1 h p) ∧ (∀ p, key d2 h' p = key d2 h p).

Lemma kept_refl h : kept h h.
Proof. done. Qed.

Lemma kept_trans h1 h2 h3 : kept h1 h2 → kept h2 h3 → kept h1 h3.
Proof.
  intros (D1 & K1 & K1') (D2 & K2 & K2'). split_and!; [congruence|..].
  - intros p. by rewrite K2, K1.
  - intros p. by rewrite K2', K1'.
Qed.

Lemma kept_frame1 S h h' : frame d1 S h h' → kept h h'.
Proof.
  intros Hf. split_and!.
  - by eapply frame_dom.
  - intros p. by eapply frame_key.
  - intros p. by apply (frame_other_value d1 d2 S h h' p).
Qed.

Lemma kept_frame2 S h h' : frame d2 S h h' → kept h h'.
Proof.
  intros Hf. split_and!.
  - by eapply frame_dom.
  - intros p. by apply (frame_other_value d2 d1 S h h' p).
  - intros p. by eapply frame_key.
Qed.

Lemma set_root_twice (a a' c c' : option ptr) b :
  set_root r2 a (set_root r1 a' (set_root r2 c (set_root r1 c' b)))
  = set_root r2 a (set_root r1 a' b).
Proof using Hr. by destruct r1, r2. Qed.

Lemma count_set_root r v b : elements_count (set_root r v b) = elements_count b.
Proof. by destruct r. Qed.

(** [erase_root]: the record at both roots leaves both trees and is
    freed; the count goes down by one. *)
Lemma wp_erase_root fuel h b l1 z rr1 l2 rr2 Q :
  trep (lk d1 h) None (Node l1 z rr1) → get_root r1 b = Some z →
  NoDup (inorder (Node l1 z rr1)) →
  StronglySorted (plt d1 cmp1 h) (inorder (Node l1 z rr1)) →
  length (inorder (Node l1 z rr1)) ≤ fuel →
  trep (lk d2 h) None (Node l2 z rr2) → get_root r2 b = Some z →
  NoDup (inorder (Node l2 z rr2)) →
  StronglySorted (plt d2 cmp2 h) (inorder (Node l2 z rr2)) →
  length (inorder (Node l2 z rr2)) ≤ fuel →
  (∀ h1 rt1 rt2,
      kept h h1 →
      side_ok d1 cmp1 (delete z h1) rt1 (inorder l1 ++ inorder rr1) →
      side_ok d2 cmp2 (delete z h1) rt2 (inorder l2 ++ inorder rr2) →
      merged_root (inorder l1) (inorder rr1) rt1 →
      merged_root (inorder l2) (inorder rr2) rt2 →
      Q tt (delete z h1,
            set_count ((elements_count b - 1) `mod` size_max)%Z
              (set_root r2 rt2 (set_root r1 rt1 b)))) →
  wp (erase_root d1 d2 fuel r1 r2 cmp1 cmp2) (h, b) Q.
Proof using All.
  intros Ht1 Hr1 Hnd1 Hso1 Hlen1 Ht2 Hr2 Hnd2 Hso2 Hlen2 HQ.
  unfold erase_root.
  apply wp_bind. eapply (wp_erase d1 cmp1 fuel r1 h b l1 z rr1); try done.
  intros h1 rt1 Hok1 Hf1 Hmr1.
  apply wp_bind.
  eapply (wp_erase d2 cmp2 fuel r2 h1 (set_root r1 rt1 b) l2 z rr2); try done.
  { unfold lk. by rewrite (frame_other d1 d2 _ h h1 Hf1). }
  { by rewrite get_set_root_ne. }
  { eapply sorted_same_keys; [|exact Hso2]. intros p _.
    apply (frame_other_value d1 d2 _ h h1 p Hf1). }
  intros h2 rt2 Hok2 Hf2 Hmr2.
  assert (Hz : is_Some (h2 !! z)).
  { apply (frame_is_Some d2 _ h1 h2 z Hf2), (frame_is_Some d1 _ h h1 z Hf1).
    destruct Ht1 as ((n & Hn & _)%lk_Some & _). by exists n. }
  destruct Hz as [n Hn].
  apply wp_bind, wp_lift. eapply wp_delete_node; [exact Hn|].
  wp_member. wp_member. rewrite !count_set_root.
  apply (HQ h2 rt1 rt2).
  - eapply kept_trans; [by eapply kept_frame1|by eapply kept_frame2].
  - apply side_ok_delete.
    + simpl in Hnd1. intros Hz. apply NoDup_app in Hnd1 as (_ & Hd & Hnd1).
      apply NoDup_cons in Hnd1 as (Hzr & _).
      apply elem_of_app in Hz as [Hz|Hz]; [|done]. eapply Hd; [done|mem].
    + by eapply (side_ok_frame_other d1 d2).
  - apply side_ok_delete; [|done].
    simpl in Hnd2. intros Hz. apply NoDup_app in Hnd2 as (_ & Hd & Hnd2).
    apply NoDup_cons in Hnd2 as (Hzr & _).
    apply elem_of_app in Hz as [Hz|Hz]; [|done]. eapply Hd; [done|mem].
  - exact Hmr1.
  - exact Hmr2.
Qed.

(** [erase_element]: the record holding [x] on the first side, if
    there is one, leaves both trees. *)
Lemma wp_erase_element fuel x h b s1 s2 Q :
  side_ok d1 cmp1 h (get_root r1 b) s1 →
  side_ok d2 cmp2 h (get_root r2 b) s2 →
  s1 ≡ₚ s2 → length s1 ≤ fuel →
  (∀ h' rt1 rt2,
      kept h h' →
      side_ok d1 cmp1 h' rt1 s1 → side_ok d2 cmp2 h' rt2 s2 →
      Forall (λ p, key d1 h p ≠ Some x) s1 →
      Q tt (h', set_root r2 rt2 (set_root r1 rt1 b))) →
  (∀ h1 rt1 rt2 z a c a2 c2,
      kept h h1 →
      s1 = a ++ z :: c → s2 = a2 ++ z :: c2 →
      key d1 h z = Some x →
      side_ok d1 cmp1 (delete z h1) rt1 (a ++ c) →
      side_ok d2 cmp2 (delete z h1) rt2 (a2 ++ c2) →
      Q tt (delete z h1,
            set_count ((elements_count b - 1) `mod` size_max)%Z
              (set_root r2 rt2 (set_root r1 rt1 b)))) →
  wp (erase_element d1 d2 fuel r1 r2 x cmp1 cmp2) (h, b) Q.
Proof using All.
  intros Hok1 Hok2 Hperm Hfuel Hmiss Hhit.
  pose proof Hok1 as (t1 & _ & _ & _ & Hnd1 & Hso1).
  unfold erase_element. wp_member. apply wp_bind, wp_lift.
  eapply (wp_find_side d1 cmp1 fuel x h); [exact Hok1|done| |].
  { intros -> Hrt1. apply Permutation_nil_l in Hperm. subst s2.
    pose proof (proj2 (side_ok_length d2 cmp2 h _ _ Hok2) eq_refl) as Hrt2.
    rewrite Hrt1 in Hok1. rewrite Hrt2 in Hok2.
    wp_member. wp_member. apply wp_bind, wp_lift. simpl. apply wp_ret'.
    wp_member.
    apply wp_bind, wp_and_then, wp_is_not_ptr, wp_read_root.
    rewrite get_set_root_ne, get_set_root by done.
    rewrite bool_decide_eq_false_2 by (intros Hne; by apply Hne).
    apply wp_ret'. apply (Hmiss h None None); try done. }
  intros h1 z l rr kz Ht1 E Hf1 Hkz Hlo Hhi. subst s1.
  assert (Hkz1 : key d1 h1 z = Some kz) by (by rewrite (frame_key d1 _ h h1 z Hf1)).
  pose proof (side_ok_frame_other d2 d1 cmp2 _ h h1 _ _ Hf1 Hok2)
    as (t2 & Ht2 & Hrt2 & E2 & Hnd2 & Hso2).
  assert (Hz2 : z ∈ inorder t2) by (rewrite E2, <- Hperm; mem).
  assert (Hlen2 : length (inorder t2) ≤ fuel) by (by rewrite E2, <- Hperm).
  wp_member. wp_member.
  apply wp_bind, wp_lift.
  apply (wp_splay d2 fuel h1 t2 z); [done|by rewrite E2|done|done|].
  intros h2 l2 rr2 Ht2' E2' Hf2. rewrite E2 in Hf2, E2'.
  assert (Hkz2 : key d1 h2 z = Some kz).
  { rewrite <- Hkz1. apply (frame_other_value d2 d1 _ h1 h2 z Hf2). }
  wp_member.
  apply wp_bind, wp_and_then, wp_is_not_ptr, wp_read_root.
  rewrite get_set_root_ne, get_set_root by done.
  rewrite bool_decide_eq_true_2 by done.
  wp_member. rewrite get_set_root_ne, get_set_root by done.
  apply wp_bind, wp_lift. wp_read Hkz2. apply wp_ret'.
  assert (Hk : kept h h2).
  { eapply kept_trans; [by eapply kept_frame1|by eapply kept_frame2]. }
  assert (Ht1' : trep (lk d1 h2) None (Node l z rr)).
  { unfold lk. by rewrite (frame_other d2 d1 _ h1 h2 Hf2). }
  assert (Hso1' : StronglySorted (plt d1 cmp1 h2) (inorder (Node l z rr))).
  { eapply sorted_same_keys; [|exact Hso1]. intros p _.
    destruct Hk as (_ & Hk & _). apply Hk. }
  assert (Hso2' : StronglySorted (plt d2 cmp2 h2) (inorder (Node l2 z rr2))).
  { rewrite E2'. by eapply sorted_frame. }
  case_bool_decide as Hx.
  - subst kz.
    eapply (wp_erase_root fuel h2 _ l z rr l2 rr2); try done.
    + by rewrite get_set_root_ne, get_set_root.
    + by rewrite get_set_root.
    + by rewrite E2'.
    + by rewrite E2', <- Hperm.
    + intros h3 rt1 rt2 Hk3 Hok1' Hok2' _ _.
      rewrite count_set_root, count_set_root, set_root_twice.
      apply (Hhit h3 rt1 rt2 z (inorder l) (inorder rr) (inorder l2) (inorder rr2));
        try done.
      by eapply kept_trans.
  - apply wp_ret'.
    apply (Hmiss h2 (Some z) (Some z)); try done.
    + exists (Node l z rr). split_and!; done.
    + exists (Node l2 z rr2). split_and!; try done. by eapply sorted_frame.
    + by apply (find_miss d1 cmp1 x h l z rr kz).
Qed.
End two_side_specs.

(** ** The container as a whole *)

Section public_specs.
Context {Left Right : Type} `{EqDecision Left, EqDecision Right}.

Abbreviation LD := (@left_descriptor_t Left Right).
Abbreviation RD := (@right_descriptor_t Left Right).

Implicit Types (h : gmap ptr (node_t Left Right)) (b : bimap Left Right).

(** The pair a record holds. *)
Definition entry h (p : ptr) : option (Left * Right) :=
  match key LD h p, key RD h p with
  | Some l, Some r => Some (l, r)
  | _, _ => None
  end.

(** The pairs of the records [s], in the order of [s]. *)
Definition contents h (s : list ptr) : list (Left * Right) := omap (entry h) s.

(** The invariant of the container: [sl] lists its records in the
    order of the Left tree and [sr] the same records in the order of
    the Right tree; the count is their number. *)
Definition bimap_inv h b (sl sr : list ptr) : Prop :=
  StrictTotal (left_compare b) ∧ StrictTotal (right_compare b) ∧
  side_ok LD (left_compare b) h (left_root b) sl ∧
  side_ok RD (right_compare b) h (right_root b) sr ∧
  sl ≡ₚ sr ∧
  elements_count b = Z.of_nat (length sl) ∧
  (Z.of_nat (length sl) < size_max)%Z.

(** [h'] is [h] with one more record, at [n], holding [(l, r)]; the
    links may differ. *)
Definition grown h (n : ptr) (l : Left) (r : Right) h' : Prop :=
  h !! n = None ∧ dom h' = {[n]} ∪ dom h ∧
  key LD h' n = Some l ∧ key RD h' n = Some r ∧
  ∀ p, p ≠ n → key LD h' p = key LD h p ∧ key RD h' p = key RD h p.

(** How the records change when the pair of [k] and a default value is
    put in: a record [n] is allocated for it, and the record that held
    the default value before, if there was one, has been freed. *)
Definition default_put {V} (d : descriptor Left Right V) (dv : V)
    h b (sl : list ptr) (n : ptr) h' b' : Prop :=
  (Forall (λ p, key d h p ≠ Some dv) sl ∧
   n ∉ dom h ∧ dom h' = {[n]} ∪ dom h ∧ size b' = (size b + 1)%Z) ∨
  (∃ z, z ∈ sl ∧ key d h z = Some dv ∧
        n ∉ dom h ∖ {[z]} ∧ dom h' = {[n]} ∪ (dom h ∖ {[z]}) ∧ size b' = size b).

Lemma absent_keys {V} (d : descriptor Left Right V) h h' (x : V) (s : list ptr) :
  (∀ p, p ∈ s → key d h' p = key d h p) →
  Forall (λ p, key d h p ≠ Some x) s → Forall (λ p, key d h' p ≠ Some x) s.
Proof.
  intros Hk Habs. apply Forall_forall. intros p Hp. rewrite Hk by done.
  by eapply Forall_forall in Habs.
Qed.

(** [insert_by_values]: a conflict on either side returns [nullptr]
    and rewrites links only; otherwise one record is allocated and
    linked at the root of both trees. *)
Lemma wp_insert_by_values fuel l r h b sl sr Q :
  bimap_inv h b sl sr → length sl ≤ fuel →
  (Z.of_nat (length sl) + 1 < size_max)%Z →
  (∀ h' rt1 rt2,
      kept LD RD h h' →
      bimap_inv h' (Bimap rt1 rt2 (left_compare b) (right_compare b)
                      (elements_count b)) sl sr →
      (∃ p, p ∈ sl ∧ (key LD h p = Some l ∨ key RD h p = Some r)) →
      Q None (h', Bimap rt1 rt2 (left_compare b) (right_compare b)
                    (elements_count b))) →
  (∀ h' n s1 s2 s1' s2',
      grown h n l r h' →
      sl = s1 ++ s2 → sr = s1' ++ s2' →
      Forall (λ p, key LD h p ≠ Some l) sl →
      Forall (λ p, key RD h p ≠ Some r) sr →
      bimap_inv h' (Bimap (Some n) (Some n) (left_compare b) (right_compare b)
                      (elements_count b + 1)) (s1 ++ n :: s2) (s1' ++ n :: s2') →
      Q (Some n) (h', Bimap (Some n) (Some n) (left_compare b) (right_compare b)
                        (elements_count b + 1)%Z)) →
  wp (insert_by_values fuel l r) (h, b) Q.
Proof.
  intros (Hst1 & Hst2 & Hok1 & Hok2 & Hperm & Hcnt & Hbound) Hfuel Hroom Hconf Hsucc.
  pose proof Hok1 as (_ & _ & _ & _ & Hnd1 & _).
  pose proof Hok2 as (_ & _ & _ & _ & Hnd2 & _).
  unfold insert_by_values. wp_member.
  apply wp_bind, wp_lift.
  eapply (wp_find_root LD (left_compare b) fuel l h); [exact Hok1|done|].
  intros h1 rt1 Hok1' Hf1 Hrf1.
  wp_member. wp_member. simpl.
  apply wp_bind, wp_lift.
  eapply (wp_find_root RD (right_compare b) fuel r h1 (right_root b) sr).
  { by eapply (side_ok_frame_other RD LD). }
  { by rewrite <- Hperm. }
  intros h2 rt2 Hok2' Hf2 Hrf2.
  wp_member. wp_member. simpl.
  assert (Hk1 : kept LD RD h h1) by apply (kept_frame1 LD RD _ _ _ Hf1).
  assert (Hk12 : kept LD RD h1 h2) by apply (kept_frame2 LD RD _ _ _ Hf2).
  assert (Hk2 : kept LD RD h h2) by apply (kept_trans LD RD _ _ _ Hk1 Hk12).
  destruct Hk2 as (Hdom2 & HkL & HkR).
  assert (Hok1'' : side_ok LD (left_compare b) h2 rt1 sl).
  { by eapply (side_ok_frame_other LD RD). }
  assert (Hrf1' : root_found LD h2 l sl rt1).
  { eapply root_found_keys; [exact HkL|exact Hrf1]. }
  assert (Hrf2' : root_found RD h2 r sr rt2).
  { eapply root_found_keys; [|exact Hrf2]. by destruct Hk12 as (_ & _ & ?). }
  assert (Hinv2 : bimap_inv h2 (Bimap rt1 rt2 (left_compare b) (right_compare b)
                                  (elements_count b)) sl sr).
  { split_and!; done. }
  apply wp_bind. eapply (wp_root_free LD l h2 _ rt1 sl); [done|exact Hrf1'|].
  intros free_l Hfree_l.
  apply wp_bind, wp_and_then, wp_ret'.
  destruct free_l; cycle 1.
  { apply wp_ret'. apply (Hconf h2 rt1 rt2); [by split_and!|done|].
    destruct Hfree_l as (p & Hp & Hkp). exists p. split; [done|left].
    by rewrite <- HkL. }
  eapply (wp_root_free RD r h2 _ rt2 sr); [done|exact Hrf2'|].
  intros free_r Hfree_r.
  destruct free_r; cycle 1.
  { apply wp_ret'. apply (Hconf h2 rt1 rt2); [by split_and!|done|].
    destruct Hfree_r as (p & Hp & Hkp). exists p. split; [by rewrite Hperm|right].
    by rewrite <- HkR. }
  apply wp_bind, wp_lift, wp_new_node. intros n Hn.
  assert (Hnsl : n ∉ sl).
  { intros Hin. destruct (side_ok_alive LD _ h2 _ _ n Hok1'' Hin). congruence. }
  assert (Hnsr : n ∉ sr) by (by rewrite <- Hperm).
  assert (Hkeep3 : ∀ p, p ≠ n →
            <[n := node_new l r]> h2 !! p = h2 !! p).
  { intros p Hp. by rewrite lookup_insert_ne. }
  apply wp_bind.
  eapply (wp_insert_node LD (left_compare b) fuel ref_left_root n l
            (<[n := node_new l r]> h2) _ sl).
  { simpl. by apply side_ok_alloc. }
  { done. }
  { unfold lk. by rewrite lookup_fmap, lookup_insert_eq. }
  { unfold key. by rewrite lookup_insert_eq. }
  { apply Forall_forall. intros p Hp. unfold key.
    rewrite Hkeep3 by (by intros ->).
    eapply Forall_forall in Hfree_l; [exact Hfree_l|done]. }
  { done. }
  intros h4 s1 s2 E Hok4 Hf4. simpl.
  apply wp_bind.
  eapply (wp_insert_node RD (right_compare b) fuel ref_right_root n r h4 _ sr).
  { simpl. eapply (side_ok_frame_other RD LD); [exact Hf4|]. by apply side_ok_alloc. }
  { done. }
  { unfold lk. rewrite (frame_other LD RD _ _ h4 Hf4).
    by rewrite lookup_fmap, lookup_insert_eq. }
  { unfold key. rewrite (frame_other_value LD RD _ _ h4 n Hf4).
    by rewrite lookup_insert_eq. }
  { apply Forall_forall. intros p Hp. unfold key.
    rewrite (frame_other_value LD RD _ _ h4 p Hf4).
    rewrite Hkeep3 by (by intros ->).
    eapply Forall_forall in Hfree_r; [exact Hfree_r|done]. }
  { by rewrite <- Hperm. }
  intros h5 s1' s2' E' Hok5 Hf5. simpl.
  wp_member. wp_member. apply wp_read_root. simpl.
  rewrite Z.mod_small by (unfold size_max in *; lia).
  assert (Hk35 : kept LD RD (<[n := node_new l r]> h2) h5).
  { eapply kept_trans; [apply (kept_frame1 LD RD _ _ _ Hf4)|
                        apply (kept_frame2 LD RD _ _ _ Hf5)]. }
  destruct Hk35 as (Hdom5 & HkL5 & HkR5).
  apply (Hsucc h5 n s1 s2 s1' s2'); try done.
  - split_and!.
    + apply not_elem_of_dom. rewrite <- Hdom2. by apply not_elem_of_dom.
    + rewrite Hdom5, dom_insert_L. by rewrite Hdom2.
    + rewrite HkL5. unfold key. by rewrite lookup_insert_eq.
    + rewrite HkR5. unfold key. by rewrite lookup_insert_eq.
    + intros p Hp. rewrite HkL5, HkR5. unfold key at 1 3.
      rewrite Hkeep3 by done. split; [apply HkL|apply HkR].
  - eapply absent_keys; [|exact Hfree_l]. intros p _. by rewrite HkL.
  - eapply absent_keys; [|exact Hfree_r]. intros p _. by rewrite HkR.
  - split_and!; simpl; try done.
    + by eapply (side_ok_frame_other LD RD).
    + rewrite <- !Permutation_middle. by rewrite <- E, <- E', Hperm.
    + rewrite length_app. simpl. rewrite E, length_app in Hcnt. lia.
    + rewrite length_app. simpl. rewrite E, length_app in Hroom. lia.
Qed.

(** *** The pairs a well-formed container holds *)

Lemma entry_alive h p :
  is_Some (h !! p) → ∃ l r, entry h p = Some (l, r) ∧
                            key LD h p = Some l ∧ key RD h p = Some r.
Proof.
  intros [n Hn]. exists (left_value n), (right_value n).
  unfold entry, key. by rewrite Hn.
Qed.

Lemma entry_Some h p l r :
  entry h p = Some (l, r) ↔ key LD h p = Some l ∧ key RD h p = Some r.
Proof.
  unfold entry. destruct (key LD h p), (key RD h p); split;
    try done; intros; simplify_eq; intuition congruence.
Qed.

Lemma contents_same h h' (s : list ptr) :
  (∀ p, p ∈ s → key LD h' p = key LD h p ∧ key RD h' p = key RD h p) →
  contents h' s = contents h s.
Proof.
  intros Hk.
  assert (He : ∀ p, p ∈ s → entry h' p = entry h p).
  { intros p Hp. unfold entry. by destruct (Hk p Hp) as [-> ->]. }
  clear Hk. unfold contents. apply list_omap_ext.
  induction s as [|p s IH]; constructor.
  - apply He. mem.
  - apply IH. intros q Hq. apply He. mem.
Qed.

Lemma contents_kept h h' (s : list ptr) :
  kept LD RD h h' → contents h' s = contents h s.
Proof. intros (_ & HkL & HkR). apply contents_same. intros p _. by split. Qed.

Lemma contents_app h (s1 s2 : list ptr) :
  contents h (s1 ++ s2) = contents h s1 ++ contents h s2.
Proof. unfold contents. by rewrite omap_app. Qed.

Lemma inv_alive h b sl sr p : bimap_inv h b sl sr → p ∈ sl → is_Some (h !! p).
Proof. intros (_ & _ & Hok & _) Hp. by eapply (side_ok_alive LD). Qed.

Lemma contents_elem h b sl sr l r :
  bimap_inv h b sl sr →
  (l, r) ∈ contents h sl ↔ ∃ p, p ∈ sl ∧ key LD h p = Some l ∧ key RD h p = Some r.
Proof.
  intros Hinv. unfold contents. rewrite list_elem_of_omap.
  split; intros (p & Hp & He); exists p; (split; [done|]); by apply entry_Some.
Qed.

Lemma contents_left h b sl sr l :
  bimap_inv h b sl sr →
  l ∈ (contents h sl).*1 ↔ ∃ p, p ∈ sl ∧ key LD h p = Some l.
Proof.
  intros Hinv. rewrite list_elem_of_fmap. split.
  - intros ([l' r] & -> & Hin). apply (contents_elem h b sl sr) in Hin as (p & ? & ? & ?);
      [|done]. by exists p.
  - intros (p & Hp & Hk).
    destruct (entry_alive h p (inv_alive h b sl sr p Hinv Hp)) as (l' & r & He & Hl & Hr).
    exists (l, r). split; [done|]. apply (contents_elem h b sl sr); [done|].
    exists p. split_and!; [done|done|congruence].
Qed.

Lemma contents_right h b sl sr r :
  bimap_inv h b sl sr →
  r ∈ (contents h sl).*2 ↔ ∃ p, p ∈ sl ∧ key RD h p = Some r.
Proof.
  intros Hinv. rewrite list_elem_of_fmap. split.
  - intros ([l r'] & -> & Hin). apply (contents_elem h b sl sr) in Hin as (p & ? & ? & ?);
      [|done]. by exists p.
  - intros (p & Hp & Hk).
    destruct (entry_alive h p (inv_alive h b sl sr p Hinv Hp)) as (l & r' & He & Hl & Hr).
    exists (l, r). split; [done|]. apply (contents_elem h b sl sr); [done|].
    exists p. split_and!; [done|congruence|done].
Qed.

(** Two records of a sorted side hold different values. *)
Lemma sorted_key_inj {V} (d : descriptor Left Right V) (compare : V → V → bool)
    `{!StrictTotal compare} h (s : list ptr) p q x :
  StronglySorted (plt d compare h) s → p ∈ s → q ∈ s →
  key d h p = Some x → key d h q = Some x → p = q.
Proof.
  intros Hso Hp Hq Hkp Hkq. induction Hso as [|e s Hs IH He]; [by apply elem_of_nil in Hp|].
  assert (Hno : ∀ u, u ∈ s → key d h e = Some x → key d h u = Some x → False).
  { intros u Hu Hke Hku. eapply Forall_forall in He; [|exact Hu].
    destruct He as (a & c & Ha & Hc & Hac).
    rewrite Hke in Ha. rewrite Hku in Hc. simplify_eq.
    by rewrite compare_irrefl in Hac. }
  apply elem_of_cons in Hp as [->|Hp]; apply elem_of_cons in Hq as [->|Hq].
  - done.
  - exfalso. by eapply (Hno q).
  - exfalso. by eapply (Hno p).
  - by apply IH.
Qed.

Lemma inv_left_inj h b sl sr p q x :
  bimap_inv h b sl sr → p ∈ sl → q ∈ sl →
  key LD h p = Some x → key LD h q = Some x → p = q.
Proof.
  intros (? & _ & (_ & _ & _ & _ & _ & Hso) & _) Hp Hq.
  by eapply sorted_key_inj.
Qed.

Lemma inv_right_inj h b sl sr p q x :
  bimap_inv h b sl sr → p ∈ sl → q ∈ sl →
  key RD h p = Some x → key RD h q = Some x → p = q.
Proof.
  intros (_ & ? & _ & (_ & _ & _ & _ & _ & Hso) & Hperm & _) Hp Hq.
  rewrite Hperm in Hp, Hq. by eapply sorted_key_inj.
Qed.

Lemma wp_result {S A} (m : M S A) (s : S) (Q : A → S → Prop) :
  wp m s Q → ∃ a s', m s = Some (a, s') ∧ Q a s'.
Proof. done. Qed.

(** Claim C3, as amended.  Let both comparators be strict total orders
    (two values that are not [==] are ordered one way or the other) and
    let the size be below [2^64 - 1].  Then [insert(l, r)] returns the
    end cursor exactly when [l] is already a Left value or [r] already a
    Right value of the container.  In that case no record is allocated,
    the size and the pairs are what they were.  Otherwise exactly one
    record is allocated, it holds [(l, r)], the size grows by one, the
    cursor points at the new record and the record is in both trees. *)
Theorem insert_spec (this : addr) (fuel : nat) (l : Left) (r : Right) h b sl sr :
  StrictTotal (left_compare b) → StrictTotal (right_compare b) →
  bimap_inv h b sl sr → length sl ≤ fuel →
  (Z.of_nat (length sl) + 1 < size_max)%Z →
  ∃ it h' b',
    insert this fuel l r (h, b) = Some (it, (h', b')) ∧
    (it = end_left this ↔ l ∈ (contents h sl).*1 ∨ r ∈ (contents h sl).*2) ∧
    (it = end_left this →
       dom h' = dom h ∧ size b' = size b ∧
       bimap_inv h' b' sl sr ∧ contents h' sl = contents h sl) ∧
    (it ≠ end_left this →
       ∃ n s1 s2 sr',
         it = Iterator LD RD this (Some n) ∧
         (n ∉ dom h) ∧ dom h' = {[n]} ∪ dom h ∧
         size b' = (size b + 1)%Z ∧
         entry h' n = Some (l, r) ∧
         sl = s1 ++ s2 ∧ n ∈ sr' ∧
         bimap_inv h' b' (s1 ++ n :: s2) sr' ∧
         contents h' (s1 ++ n :: s2) = contents h s1 ++ (l, r) :: contents h s2).
Proof.
  intros _ _ Hinv Hfuel Hroom.
  cut (wp (insert this fuel l r) (h, b) (λ it st,
         (it = end_left this ↔ l ∈ (contents h sl).*1 ∨ r ∈ (contents h sl).*2) ∧
         (it = end_left this →
            dom st.1 = dom h ∧ size st.2 = size b ∧
            bimap_inv st.1 st.2 sl sr ∧ contents st.1 sl = contents h sl) ∧
         (it ≠ end_left this →
            ∃ n s1 s2 sr',
              it = Iterator LD RD this (Some n) ∧
              (n ∉ dom h) ∧ dom st.1 = {[n]} ∪ dom h ∧
              size st.2 = (size b + 1)%Z ∧
              entry st.1 n = Some (l, r) ∧
              sl = s1 ++ s2 ∧ n ∈ sr' ∧
              bimap_inv st.1 st.2 (s1 ++ n :: s2) sr' ∧
              contents st.1 (s1 ++ n :: s2)
              = contents h s1 ++ (l, r) :: contents h s2))).
  { intros (it & [h' b'] & Hrun & HQ). by exists it, h', b'. }
  unfold insert. apply wp_bind.
  apply (wp_insert_by_values fuel l r h b sl sr); [done..| |].
  - intros h' rt1 rt2 Hk Hinv' (p & Hp & Hkp). apply wp_ret'. simpl.
    split_and!.
    + split; [intros _|done].
      destruct Hkp as [Hkp|Hkp].
      * left. apply (contents_left h b sl sr); [done|]. by exists p.
      * right. apply (contents_right h b sl sr); [done|]. by exists p.
    + intros _. split_and!; [by destruct Hk|done|done|by apply contents_kept].
    + by intros [].
  - intros h' n s1 s2 s1' s2' (Hn & Hdom & HnL & HnR & Hothers) E E' HabsL HabsR Hinv'.
    apply wp_ret'. simpl.
    assert (Hnsl : n ∉ sl).
    { intros Hin. destruct (inv_alive h b sl sr n Hinv Hin). congruence. }
    split_and!.
    + split; [done|]. intros [Hl|Hr]; exfalso.
      * apply (contents_left h b sl sr) in Hl as (p & Hp & Hkp); [|done].
        by eapply Forall_forall in HabsL.
      * apply (contents_right h b sl sr) in Hr as (p & Hp & Hkp); [|done].
        destruct Hinv as (_ & _ & _ & _ & Hperm & _). rewrite Hperm in Hp.
        by eapply Forall_forall in HabsR.
    + done.
    + intros _. exists n, s1, s2, (s1' ++ n :: s2'). split_and!; try done.
      * by apply not_elem_of_dom.
      * by apply entry_Some.
      * mem.
      * rewrite contents_app. f_equal.
        { apply contents_same. intros p Hp. apply Hothers. intros ->.
          apply Hnsl. rewrite E. mem. }
        unfold contents at 1. simpl.
        replace (entry h' n) with (Some (l, r)) by (symmetry; by apply entry_Some).
        f_equal. apply contents_same. intros p Hp. apply Hothers. intros ->.
        apply Hnsl. rewrite E. mem.
Qed.

Lemma at_left_run fuel key h b sl sr :
  bimap_inv h b sl sr → length sl ≤ fuel →
  ∃ res h' b',
    at_left fuel key (h, b) = Some (res, (h', b')) ∧
    bimap_inv h' b' sl sr ∧ contents h' sl = contents h sl ∧
    (res = Thrown out_of_range ↔ key ∉ (contents h sl).*1) ∧
    (∀ r, res = Returned r ↔ (key, r) ∈ contents h sl).
Proof.
  intros Hinv Hfuel.
  cut (wp (at_left fuel key) (h, b) (λ res st,
         bimap_inv st.1 st.2 sl sr ∧ contents st.1 sl = contents h sl ∧
         (res = Thrown out_of_range ↔ key ∉ (contents h sl).*1) ∧
         (∀ r, res = Returned r ↔ (key, r) ∈ contents h sl))).
  { intros (res & [h' b'] & Hrun & HQ). by exists res, h', b'. }
  pose proof Hinv as (Hst1 & Hst2 & Hok1 & Hok2 & Hperm & Hcnt & Hbound).
  unfold at_left. wp_member.
  apply (wp_at_element LD RD (left_compare b) fuel ref_left_root key h b sl);
    [done..|].
  intros h' rt' res Hok1' Hf Hres. simpl.
  split_and!.
  - split_and!; try done. by eapply (side_ok_frame_other RD LD).
  - apply contents_kept. apply (kept_frame1 LD RD _ _ _ Hf).
  - destruct res as [w|[]].
    + destruct Hres as (p & Hp & Hkp & Hw). split; [done|]. intros Habs.
      exfalso. apply Habs. apply (contents_left h b sl sr); [done|]. by exists p.
    + split; [intros _|done].
      intros (p & Hp & Hkp)%(contents_left h b sl sr); [|done].
      by eapply Forall_forall in Hres.
  - intros r. destruct res as [w|[]].
    + destruct Hres as (p & Hp & Hkp & Hw). split.
      * intros [= <-]. apply (contents_elem h b sl sr); [done|]. by exists p.
      * intros (q & Hq & Hkq & Hr)%(contents_elem h b sl sr); [|done].
        assert (p = q) as <- by (by eapply inv_left_inj). congruence.
    + split; [done|].
      intros (q & Hq & Hkq & Hr)%(contents_elem h b sl sr); [|done].
      by eapply Forall_forall in Hres.
Qed.

Lemma at_right_run fuel key h b sl sr :
  bimap_inv h b sl sr → length sl ≤ fuel →
  ∃ res h' b',
    at_right fuel key (h, b) = Some (res, (h', b')) ∧
    bimap_inv h' b' sl sr ∧ contents h' sl = contents h sl ∧
    (res = Thrown out_of_range ↔ key ∉ (contents h sl).*2) ∧
    (∀ l, res = Returned l ↔ (l, key) ∈ contents h sl).
Proof.
  intros Hinv Hfuel.
  cut (wp (at_right fuel key) (h, b) (λ res st,
         bimap_inv st.1 st.2 sl sr ∧ contents st.1 sl = contents h sl ∧
         (res = Thrown out_of_range ↔ key ∉ (contents h sl).*2) ∧
         (∀ l, res = Returned l ↔ (l, key) ∈ contents h sl))).
  { intros (res & [h' b'] & Hrun & HQ). by exists res, h', b'. }
  pose proof Hinv as (Hst1 & Hst2 & Hok1 & Hok2 & Hperm & Hcnt & Hbound).
  unfold at_right. wp_member.
  apply (wp_at_element RD LD (right_compare b) fuel ref_right_root key h b sr);
    [done|by rewrite <- Hperm|].
  intros h' rt' res Hok2' Hf Hres. simpl.
  split_and!.
  - split_and!; try done. by eapply (side_ok_frame_other LD RD).
  - apply contents_kept. apply (kept_frame2 LD RD _ _ _ Hf).
  - destruct res as [w|[]].
    + destruct Hres as (p & Hp & Hkp & Hw). split; [done|]. intros Habs.
      exfalso. apply Habs. apply (contents_right h b sl sr); [done|].
      exists p. by rewrite Hperm.
    + split; [intros _|done].
      intros (p & Hp & Hkp)%(contents_right h b sl sr); [|done].
      rewrite Hperm in Hp. by eapply Forall_forall in Hres.
  - intros l. destruct res as [w|[]].
    + destruct Hres as (p & Hp & Hkp & Hw). rewrite <- Hperm in Hp. split.
      * intros [= <-]. apply (contents_elem h b sl sr); [done|]. by exists p.
      * intros (q & Hq & Hkq & Hr)%(contents_elem h b sl sr); [|done].
        assert (p = q) as <- by (by eapply inv_right_inj). congruence.
    + split; [done|].
      intros (q & Hq & Hkq & Hr)%(contents_elem h b sl sr); [|done].
      rewrite Hperm in Hq. by eapply Forall_forall in Hres.
Qed.

(** Claim C6, as amended.  Let both comparators be strict total orders
    (two values that are not [==] are ordered one way or the other).
    Then [at_left(key)] throws [out_of_range] exactly when [key] is not
    a Left value of the container and otherwise returns the Right
    value paired with it, and [at_right] likewise; so for every pair
    [(l, r)] of the container [at_left(l)] returns [r] and
    [at_right(r)] returns [l]. *)
Theorem at_spec (fuel : nat) h b sl sr :
  StrictTotal (left_compare b) → StrictTotal (right_compare b) →
  bimap_inv h b sl sr → length sl ≤ fuel →
  (∀ key, ∃ res h' b',
      at_left fuel key (h, b) = Some (res, (h', b')) ∧
      bimap_inv h' b' sl sr ∧ contents h' sl = contents h sl ∧
      (res = Thrown out_of_range ↔ key ∉ (contents h sl).*1) ∧
      (∀ r, res = Returned r ↔ (key, r) ∈ contents h sl)) ∧
  (∀ key, ∃ res h' b',
      at_right fuel key (h, b) = Some (res, (h', b')) ∧
      bimap_inv h' b' sl sr ∧ contents h' sl = contents h sl ∧
      (res = Thrown out_of_range ↔ key ∉ (contents h sl).*2) ∧
      (∀ l, res = Returned l ↔ (l, key) ∈ contents h sl)) ∧
  (∀ l r, (l, r) ∈ contents h sl →
      (∃ h' b', at_left fuel l (h, b) = Some (Returned r, (h', b'))) ∧
      (∃ h' b', at_right fuel r (h, b) = Some (Returned l, (h', b')))).
Proof.
  intros _ _ Hinv Hfuel. split_and!.
  - intros key. by apply at_left_run.
  - intros key. by apply at_right_run.
  - intros l r Hin. split.
    + destruct (at_left_run fuel l h b sl sr Hinv Hfuel)
        as (res & h' & b' & Hrun & _ & _ & _ & Hres).
      apply Hres in Hin as ->. by exists h', b'.
    + destruct (at_right_run fuel r h b sl sr Hinv Hfuel)
        as (res & h' & b' & Hrun & _ & _ & _ & Hres).
      apply Hres in Hin as ->. by exists h', b'.
Qed.

Lemma inv_relink_left h h' b rt sl sr :
  bimap_inv h b sl sr → side_ok LD (left_compare b) h' rt sl → frame LD sl h h' →
  bimap_inv h' (set_root ref_left_root rt b) sl sr ∧ contents h' sl = contents h sl.
Proof.
  intros (Hst1 & Hst2 & Hok1 & Hok2 & Hperm & Hcnt & Hbound) Hok1' Hf. split.
  - split_and!; try done. by eapply (side_ok_frame_other RD LD).
  - apply contents_kept. apply (kept_frame1 LD RD _ _ _ Hf).
Qed.

Lemma inv_relink_right h h' b rt sl sr :
  bimap_inv h b sl sr → side_ok RD (right_compare b) h' rt sr → frame RD sr h h' →
  bimap_inv h' (set_root ref_right_root rt b) sl sr ∧ contents h' sl = contents h sl.
Proof.
  intros (Hst1 & Hst2 & Hok1 & Hok2 & Hperm & Hcnt & Hbound) Hok2' Hf. split.
  - split_and!; try done. by eapply (side_ok_frame_other LD RD).
  - apply contents_kept. apply (kept_frame2 LD RD _ _ _ Hf).
Qed.

(** Claim C7, as amended.  Let both comparators be strict total orders
    (two values that are not [==] are ordered one way or the other).
    Then [lower_bound_left(k)] returns a cursor to the first record, in
    Left order, whose Left value is not less than [k], or the end
    cursor when every Left value is less than [k];
    [upper_bound_left(k)] to the first whose Left value is greater
    than [k], or the end cursor; and the same on the Right side. *)
Theorem bound_spec (this : addr) (fuel : nat) h b sl sr :
  StrictTotal (left_compare b) → StrictTotal (right_compare b) →
  bimap_inv h b sl sr → length sl ≤ fuel →
  (∀ k, ∃ it h' b',
      lower_bound_left this fuel k (h, b) = Some (it, (h', b')) ∧
      bimap_inv h' b' sl sr ∧ contents h' sl = contents h sl ∧ tree it = this ∧
      is_lower_bound LD (left_compare b) h k sl (node it)) ∧
  (∀ k, ∃ it h' b',
      upper_bound_left this fuel k (h, b) = Some (it, (h', b')) ∧
      bimap_inv h' b' sl sr ∧ contents h' sl = contents h sl ∧ tree it = this ∧
      is_upper_bound LD (left_compare b) h k sl (node it)) ∧
  (∀ k, ∃ it h' b',
      lower_bound_right this fuel k (h, b) = Some (it, (h', b')) ∧
      bimap_inv h' b' sl sr ∧ contents h' sl = contents h sl ∧ tree it = this ∧
      is_lower_bound RD (right_compare b) h k sr (node it)) ∧
  (∀ k, ∃ it h' b',
      upper_bound_right this fuel k (h, b) = Some (it, (h', b')) ∧
      bimap_inv h' b' sl sr ∧ contents h' sl = contents h sl ∧ tree it = this ∧
      is_upper_bound RD (right_compare b) h k sr (node it)).
Proof.
  intros _ _ Hinv Hfuel.
  pose proof Hinv as (Hst1 & Hst2 & Hok1 & Hok2 & Hperm & Hcnt & Hbound).
  assert (Hfuel' : length sr ≤ fuel) by (by rewrite <- Hperm).
  split_and!; intros k.
  - cut (wp (lower_bound_left this fuel k) (h, b) (λ it st,
           bimap_inv st.1 st.2 sl sr ∧ contents st.1 sl = contents h sl ∧
           tree it = this ∧ is_lower_bound LD (left_compare b) h k sl (node it))).
    { intros (it & [h' b'] & Hrun & HQ). by exists it, h', b'. }
    unfold lower_bound_left. wp_member. apply wp_bind.
    apply (wp_lower_bound LD (left_compare b) fuel ref_left_root k h b sl); [done..|].
    intros h' rt' res Hok' Hf Hres. apply wp_ret'. simpl.
    destruct (inv_relink_left h h' b rt' sl sr Hinv Hok' Hf). done.
  - cut (wp (upper_bound_left this fuel k) (h, b) (λ it st,
           bimap_inv st.1 st.2 sl sr ∧ contents st.1 sl = contents h sl ∧
           tree it = this ∧ is_upper_bound LD (left_compare b) h k sl (node it))).
    { intros (it & [h' b'] & Hrun & HQ). by exists it, h', b'. }
    unfold upper_bound_left. wp_member. apply wp_bind.
    apply (wp_upper_bound LD (left_compare b) fuel ref_left_root k h b sl); [done..|].
    intros h' rt' res Hok' Hf Hres. apply wp_ret'. simpl.
    destruct (inv_relink_left h h' b rt' sl sr Hinv Hok' Hf). done.
  - cut (wp (lower_bound_right this fuel k) (h, b) (λ it st,
           bimap_inv st.1 st.2 sl sr ∧ contents st.1 sl = contents h sl ∧
           tree it = this ∧ is_lower_bound RD (right_compare b) h k sr (node it))).
    { intros (it & [h' b'] & Hrun & HQ). by exists it, h', b'. }
    unfold lower_bound_right. wp_member. apply wp_bind.
    apply (wp_lower_bound RD (right_compare b) fuel ref_right_root k h b sr); [done..|].
    intros h' rt' res Hok' Hf Hres. apply wp_ret'. simpl.
    destruct (inv_relink_right h h' b rt' sl sr Hinv Hok' Hf). done.
  - cut (wp (upper_bound_right this fuel k) (h, b) (λ it st,
           bimap_inv st.1 st.2 sl sr ∧ contents st.1 sl = contents h sl ∧
           tree it = this ∧ is_upper_bound RD (right_compare b) h k sr (node it))).
    { intros (it & [h' b'] & Hrun & HQ). by exists it, h', b'. }
    unfold upper_bound_right. wp_member. apply wp_bind.
    apply (wp_upper_bound RD (right_compare b) fuel ref_right_root k h b sr); [done..|].
    intros h' rt' res Hok' Hf Hres. apply wp_ret'. simpl.
    destruct (inv_relink_right h h' b rt' sl sr Hinv Hok' Hf). done.
Qed.

(** *** Erasing by value *)

Lemma kept_swap h h' : kept RD LD h h' ↔ kept LD RD h h'.
Proof. unfold kept. tauto. Qed.

Lemma key_delete {V} (d : descriptor Left Right V) h (z p : ptr) :
  p ≠ z → key d (delete z h) p = key d h p.
Proof. intros Hp. unfold key. by rewrite lookup_delete_ne. Qed.

Lemma perm_remove (a c a2 c2 : list ptr) z :
  a2 ++ z :: c2 ≡ₚ a ++ z :: c → a2 ++ c2 ≡ₚ a ++ c.
Proof.
  rewrite <- !Permutation_middle. apply Permutation_cons_inv.
Qed.

Lemma count_down (c : nat) :
  (Z.of_nat (S c) < size_max)%Z →
  ((Z.of_nat (S c) - 1) `mod` size_max)%Z = Z.of_nat c.
Proof. intros Hc. rewrite Z.mod_small; lia. Qed.

(** [erase_element] keyed by a Right value. *)
Lemma wp_erase_by_right fuel x h b sl sr Q :
  bimap_inv h b sl sr → length sl ≤ fuel →
  (∀ h' rt1 rt2,
      kept LD RD h h' →
      bimap_inv h' (Bimap rt1 rt2 (left_compare b) (right_compare b)
                      (elements_count b)) sl sr →
      Forall (λ p, key RD h p ≠ Some x) sl →
      Q tt (h', Bimap rt1 rt2 (left_compare b) (right_compare b)
                  (elements_count b))) →
  (∀ h1 rt1 rt2 z a c sr',
      kept LD RD h h1 →
      sl = a ++ z :: c → key RD h z = Some x →
      bimap_inv (delete z h1)
        (Bimap rt1 rt2 (left_compare b) (right_compare b) (elements_count b - 1))
        (a ++ c) sr' →
      Q tt (delete z h1,
            Bimap rt1 rt2 (left_compare b) (right_compare b)
              (elements_count b - 1)%Z)) →
  wp (erase_element RD LD fuel ref_right_root ref_left_root x
        (right_compare b) (left_compare b)) (h, b) Q.
Proof.
  intros (Hst1 & Hst2 & Hok1 & Hok2 & Hperm & Hcnt & Hbound) Hfuel Hmiss Hhit.
  apply (wp_erase_element RD LD (right_compare b) (left_compare b)
           ref_right_root ref_left_root ltac:(done) fuel x h b sr sl);
    [done|done|done|by rewrite <- Hperm| |].
  - intros h' rt1 rt2 Hk Hok2' Hok1' Habs. simpl.
    apply (Hmiss h' rt2 rt1); [by apply kept_swap|by split_and!|].
    by rewrite Hperm.
  - intros h1 rt1 rt2 z a c a2 c2 Hk Hsr Hsl Hkz Hok2' Hok1'. simpl.
    assert (Hmod : ((elements_count b - 1) `mod` size_max
                    = elements_count b - 1)%Z).
    { apply Z.mod_small. rewrite Hcnt. rewrite Hsl, length_app in Hbound |- *.
      simpl in Hbound |- *. lia. }
    rewrite Hmod.
    apply (Hhit h1 rt2 rt1 z a2 c2 (a ++ c)); [by apply kept_swap|done|done|].
    split_and!; simpl; try done.
    + apply (perm_remove _ _ _ _ z). by rewrite <- Hsl, <- Hsr.
    + rewrite Hcnt, Hsl, !length_app. simpl. lia.
    + rewrite Hsl, !length_app in Hbound. rewrite length_app. simpl in Hbound. lia.
Qed.

(** [erase_element] keyed by a Left value. *)
Lemma wp_erase_by_left fuel x h b sl sr Q :
  bimap_inv h b sl sr → length sl ≤ fuel →
  (∀ h' rt1 rt2,
      kept LD RD h h' →
      bimap_inv h' (Bimap rt1 rt2 (left_compare b) (right_compare b)
                      (elements_count b)) sl sr →
      Forall (λ p, key LD h p ≠ Some x) sl →
      Q tt (h', Bimap rt1 rt2 (left_compare b) (right_compare b)
                  (elements_count b))) →
  (∀ h1 rt1 rt2 z a c sr',
      kept LD RD h h1 →
      sl = a ++ z :: c → key LD h z = Some x →
      bimap_inv (delete z h1)
        (Bimap rt1 rt2 (left_compare b) (right_compare b) (elements_count b - 1))
        (a ++ c) sr' →
      Q tt (delete z h1,
            Bimap rt1 rt2 (left_compare b) (right_compare b)
              (elements_count b - 1)%Z)) →
  wp (erase_element LD RD fuel ref_left_root ref_right_root x
        (left_compare b) (right_compare b)) (h, b) Q.
Proof.
  intros (Hst1 & Hst2 & Hok1 & Hok2 & Hperm & Hcnt & Hbound) Hfuel Hmiss Hhit.
  apply (wp_erase_element LD RD (left_compare b) (right_compare b)
           ref_left_root ref_right_root ltac:(done) fuel x h b sl sr);
    [done|done|done|done| |].
  - intros h' rt1 rt2 Hk Hok1' Hok2' Habs. simpl.
    apply (Hmiss h' rt1 rt2); [done|by split_and!|done].
  - intros h1 rt1 rt2 z a c a2 c2 Hk Hsl Hsr Hkz Hok1' Hok2'. simpl.
    assert (Hmod : ((elements_count b - 1) `mod` size_max
                    = elements_count b - 1)%Z).
    { apply Z.mod_small. rewrite Hcnt. rewrite Hsl, length_app in Hbound |- *.
      simpl in Hbound |- *. lia. }
    rewrite Hmod.
    apply (Hhit h1 rt1 rt2 z a c (a2 ++ c2)); [done..|].
    split_and!; simpl; try done.
    + apply (perm_remove _ _ _ _ z). by rewrite <- Hsl, <- Hsr.
    + rewrite Hcnt, Hsl, !length_app. simpl. lia.
    + rewrite Hsl, !length_app in Hbound. rewrite length_app. simpl in Hbound. lia.
Qed.

(** *** Lookup with a default *)

Lemma contents_cons h p (s : list ptr) e :
  entry h p = Some e → contents h (p :: s) = e :: contents h s.
Proof. intros He. unfold contents. simpl. by rewrite He. Qed.

Lemma grown_contents h n l r h' (s1 s2 : list ptr) :
  grown h n l r h' → n ∉ s1 ++ s2 →
  contents h' (s1 ++ n :: s2) = contents h s1 ++ (l, r) :: contents h s2.
Proof.
  intros (Hn & Hdom & HnL & HnR & Hothers) Hns.
  rewrite contents_app, (contents_cons h' n s2 (l, r)) by (by apply entry_Some).
  f_equal; [|f_equal]; apply contents_same; intros p Hp; apply Hothers;
    intros ->; apply Hns; mem.
Qed.

Lemma filter_contents_all h (s : list ptr) (P : Left * Right → Prop)
    `{∀ e, Decision (P e)} :
  (∀ p e, p ∈ s → entry h p = Some e → P e) →
  filter P (contents h s) = contents h s.
Proof.
  intros HP. induction s as [|p s IH]; [done|].
  unfold contents in *. simpl. destruct (entry h p) as [e|] eqn:He.
  - rewrite filter_cons_True by (apply (HP p e); [mem|done]).
    f_equal. apply IH. intros q e' Hq. apply HP. mem.
  - apply IH. intros q e' Hq. apply HP. mem.
Qed.

Lemma filter_contents_one h (a c : list ptr) z e (P : Left * Right → Prop)
    `{∀ e, Decision (P e)} :
  entry h z = Some e → ¬ P e →
  (∀ p e', p ∈ a ++ c → entry h p = Some e' → P e') →
  filter P (contents h (a ++ z :: c)) = contents h (a ++ c).
Proof.
  intros He HPe HP.
  rewrite !contents_app, (contents_cons h z c e He), filter_app.
  rewrite filter_cons_False by done.
  rewrite !filter_contents_all; [done|..]; intros p e' Hp; apply HP; mem.
Qed.

Lemma inv_nodup h b sl sr : bimap_inv h b sl sr → NoDup sl.
Proof. by intros (_ & _ & (_ & _ & _ & _ & Hnd & _) & _). Qed.

Lemma nodup_mid (a c : list ptr) z : NoDup (a ++ z :: c) → z ∉ a ++ c.
Proof.
  intros Hnd Hz. apply NoDup_app in Hnd as (_ & Hd & Hc).
  apply NoDup_cons in Hc as (Hzc & _).
  apply elem_of_app in Hz as [Hz|Hz]; [|done]. eapply Hd; [done|mem].
Qed.

Lemma elem_mid (a c : list ptr) z p : p ∈ a ++ c → p ∈ a ++ z :: c.
Proof. intros [?|?]%elem_of_app; mem. Qed.

(** A reference reads what it read before as long as the record it
    points into is alive and holds the same pair. *)
Lemma load_same {V} (kr : reference Left Right V) k h h' :
  load kr h = Some (k, h) →
  (∀ p peek, kr = Inside p peek → entry h' p = entry h p) →
  load kr h' = Some (k, h').
Proof.
  destruct kr as [v|p peek]; simpl; [by intros [= ->]|].
  unfold mbind, M_bind, bind, deref. intros Hl Hsame.
  destruct (h !! p) as [n|] eqn:Hn; [|done]. injection Hl as <-.
  specialize (Hsame p peek eq_refl).
  assert (He : entry h p = Some (left_value n, right_value n)).
  { apply entry_Some. unfold key. by rewrite Hn. }
  rewrite He in Hsame. apply entry_Some in Hsame as [HL HR].
  apply key_Some in HL as (n' & Hn' & HL). apply key_Some in HR as (n'' & Hn'' & HR).
  rewrite Hn' in Hn''. injection Hn'' as <-. rewrite Hn'. simpl in HL, HR.
  by rewrite HL, HR.
Qed.

Lemma load_kept {V} (kr : reference Left Right V) k h h' :
  load kr h = Some (k, h) → kept LD RD h h' → load kr h' = Some (k, h').
Proof.
  intros Hl (_ & HkL & HkR). apply (load_same kr k h h' Hl).
  intros p peek _. unfold entry. by rewrite HkL, HkR.
Qed.

Lemma load_alive {V} (kr : reference Left Right V) k h p peek :
  load kr h = Some (k, h) → kr = Inside p peek → is_Some (h !! p).
Proof.
  intros Hl ->. simpl in Hl. unfold mbind, M_bind, bind, deref in Hl.
  destruct (h !! p); [by eexists|done].
Qed.

Lemma wp_load {V A} (kr : reference Left Right V) k h b
    (f : V → M (gmap ptr (node_t Left Right) * bimap Left Right) A) Q :
  load kr h = Some (k, h) → wp (f k) (h, b) Q → wp (lift (load kr) ≫= f) (h, b) Q.
Proof. intros Hl Hf. apply wp_bind, wp_lift. by eapply wp_run. Qed.

(** The branch of [at_left_or_default] taken when the key is absent. *)
Lemma wp_left_default_miss fuel (dr : Right) kr (k : Left) h b sl sr Q :
  bimap_inv h b sl sr → length sl ≤ fuel →
  (Z.of_nat (length sl) + 1 < size_max)%Z →
  load kr h = Some (k, h) →
  (∀ p peek, kr = Inside p peek → key RD h p ≠ Some dr) →
  Forall (λ p, key LD h p ≠ Some k) sl →
  (∀ h' b' sl' sr' n,
      bimap_inv h' b' sl' sr' →
      contents h' sl' ≡ₚ (k, dr) :: filter (λ e, e.2 ≠ dr) (contents h sl) →
      entry h' n = Some (k, dr) →
      default_put RD dr h b sl n h' b' →
      Q dr (h', b')) →
  wp (erase_element RD LD fuel ref_right_root ref_left_root dr
        (right_compare b) (left_compare b);;
      (k' ← lift (load kr); insert_by_values fuel k' dr;; ret tt);;
      r3 ← read_root ref_right_root; lift (get_value RD r3)) (h, b) Q.
Proof.
  intros Hinv Hfuel Hroom Hload Hsafe Habs HQ.
  pose proof (inv_nodup _ _ _ _ Hinv) as Hnd.
  apply wp_bind. apply (wp_erase_by_right fuel dr h b sl sr); [done..| |].
  - intros h1 rt1 rt2 Hk Hinv1 Habs_dr.
    apply wp_bind. apply (wp_load kr k); [by eapply load_kept|].
    apply wp_bind.
    apply (wp_insert_by_values fuel k dr h1 _ sl sr); [done..| |].
    + intros h2 ? ? _ _ (p & Hp & Hkp). exfalso.
      destruct Hk as (_ & HkL & HkR). rewrite HkL, HkR in Hkp.
      destruct Hkp as [Hkp|Hkp].
      * by eapply Forall_forall in Habs.
      * by eapply Forall_forall in Habs_dr.
    + intros h2 n s1 s2 s1' s2' Hg E E' _ _ Hinv2. simpl.
      apply wp_ret'. wp_member. simpl. apply wp_lift.
      pose proof Hg as (Hn1 & Hdom2 & HnL & HnR & _).
      wp_read HnR.
      apply (HQ h2 _ (s1 ++ n :: s2) (s1' ++ n :: s2') n); [done| | |].
      * rewrite (grown_contents h1 n k dr h2 s1 s2 Hg).
        2:{ rewrite <- E. intros Hin.
            destruct (inv_alive h1 _ sl sr n Hinv1 Hin). congruence. }
        rewrite <- Permutation_middle, <- contents_app, <- E.
        rewrite (contents_kept h h1 sl Hk).
        rewrite filter_contents_all; [done|].
        intros p [l' r'] Hp [_ Hr]%entry_Some. simpl. intros ->.
        by eapply Forall_forall in Habs_dr.
      * by apply entry_Some.
      * left. destruct Hk as (Hd & _). split_and!; [done| | |done].
        -- rewrite <- Hd. by apply not_elem_of_dom.
        -- by rewrite Hdom2, Hd.
  - intros h1 rt1 rt2 z a c sr' Hk Hsl Hkz Hinv1.
    rewrite Hsl in Hnd. pose proof (nodup_mid a c z Hnd) as Hz.
    assert (Hkeys : ∀ p, p ≠ z →
              key LD (delete z h1) p = key LD h p ∧
              key RD (delete z h1) p = key RD h p).
    { intros p Hp. destruct Hk as (_ & HkL & HkR).
      rewrite !key_delete by done. by rewrite HkL, HkR. }
    assert (Hne : ∀ p, p ∈ a ++ c → p ≠ z) by (by intros p Hp ->).
    assert (Hroom' : (Z.of_nat (length (a ++ c)) + 1 < size_max)%Z).
    { rewrite Hsl, length_app in Hroom. rewrite length_app. simpl in Hroom. lia. }
    assert (Hfuel' : length (a ++ c) ≤ fuel).
    { rewrite Hsl, length_app in Hfuel. rewrite length_app. simpl in Hfuel. lia. }
    apply wp_bind. apply (wp_load kr k).
    { apply (load_same kr k h _ Hload). intros p peek Hkey. unfold entry.
      destruct (Hkeys p) as [-> ->]; [|done]. intros ->.
      by apply (Hsafe z peek). }
    apply wp_bind.
    apply (wp_insert_by_values fuel k dr (delete z h1) _ (a ++ c) sr'); [done..| |].
    + intros h2 ? ? _ _ (p & Hp & Hkp). exfalso.
      destruct (Hkeys p (Hne p Hp)) as [HL HR]. rewrite HL, HR in Hkp.
      destruct Hkp as [Hkp|Hkp].
      * eapply Forall_forall in Habs; [by apply Habs|]. rewrite Hsl. by apply elem_mid.
      * apply Hz. replace z with p; [done|].
        apply (inv_right_inj h b sl sr p z dr Hinv); [| |done..];
          rewrite Hsl; [by apply elem_mid|mem].
    + intros h2 n s1 s2 s1' s2' Hg E E' _ _ Hinv2. simpl.
      apply wp_ret'. wp_member. simpl. apply wp_lift.
      pose proof Hg as (Hn1 & Hdom2 & HnL & HnR & _).
      wp_read HnR.
      apply (HQ h2 _ (s1 ++ n :: s2) (s1' ++ n :: s2') n); [done| | |].
      * rewrite (grown_contents (delete z h1) n k dr h2 s1 s2 Hg).
        2:{ rewrite <- E. intros Hin.
            destruct (inv_alive (delete z h1) _ (a ++ c) sr' n Hinv1 Hin). congruence. }
        rewrite <- Permutation_middle, <- contents_app, <- E.
        rewrite (contents_same h (delete z h1) (a ++ c)).
        2:{ intros p Hp. by apply Hkeys, Hne. }
        destruct (entry_alive h z) as (lz & rz & Hez & _ & Hrz).
        { apply (inv_alive h b sl sr z Hinv). rewrite Hsl. mem. }
        rewrite Hsl.
        rewrite (filter_contents_one h a c z (lz, rz)); [done|done| |].
        -- simpl. intros Hne'. apply Hne'. congruence.
        -- intros p [l' r'] Hp [_ Hr]%entry_Some. simpl. intros ->.
           apply Hz. replace z with p; [done|].
           apply (inv_right_inj h b sl sr p z dr Hinv); [| |done..];
             rewrite Hsl; [by apply elem_mid|mem].
      * by apply entry_Some.
      * right. exists z. destruct Hk as (Hd & _).
        assert (Hdz : dom (delete z h1) = dom h ∖ {[z]}) by (by rewrite dom_delete_L, Hd).
        split_and!; [rewrite Hsl; mem|done| | |simpl; unfold size; simpl; lia].
        -- rewrite <- Hdz. by apply not_elem_of_dom.
        -- by rewrite Hdom2, Hdz.
Qed.

Lemma at_left_or_default_run fuel (dr : Right) kr (k : Left) h b sl sr :
  bimap_inv h b sl sr → length sl ≤ fuel →
  (Z.of_nat (length sl) + 1 < size_max)%Z →
  load kr h = Some (k, h) →
  (k ∉ (contents h sl).*1 →
   ∀ p peek, kr = Inside p peek → key RD h p ≠ Some dr) →
  ∃ res h' b',
    at_left_or_default fuel dr kr (h, b) = Some (res, (h', b')) ∧
    (∀ r, (k, r) ∈ contents h sl →
       res = r ∧ bimap_inv h' b' sl sr ∧ contents h' sl = contents h sl ∧
       dom h' = dom h ∧ size b' = size b) ∧
    (k ∉ (contents h sl).*1 →
       res = dr ∧
       ∃ sl' sr' n, bimap_inv h' b' sl' sr' ∧
         contents h' sl' ≡ₚ (k, dr) :: filter (λ e, e.2 ≠ dr) (contents h sl) ∧
         entry h' n = Some (k, dr) ∧ default_put RD dr h b sl n h' b').
Proof.
  intros Hinv Hfuel Hroom Hload Hsafe.
  cut (wp (at_left_or_default fuel dr kr) (h, b) (λ res st,
    (∀ r, (k, r) ∈ contents h sl →
       res = r ∧ bimap_inv st.1 st.2 sl sr ∧ contents st.1 sl = contents h sl ∧
       dom st.1 = dom h ∧ size st.2 = size b) ∧
    (k ∉ (contents h sl).*1 →
       res = dr ∧
       ∃ sl' sr' n, bimap_inv st.1 st.2 sl' sr' ∧
         contents st.1 sl' ≡ₚ (k, dr) :: filter (λ e, e.2 ≠ dr) (contents h sl) ∧
         entry st.1 n = Some (k, dr) ∧ default_put RD dr h b sl n st.1 st.2))).
  { intros (res & [h' b'] & Hrun & HQ). by exists res, h', b'. }
  pose proof Hinv as (Hst1 & Hst2 & Hok1 & Hok2 & Hperm & Hcnt & Hbound).
  unfold at_left_or_default. wp_member. unfold at_element_or_default.
  wp_member. apply (wp_load kr k); [done|]. apply wp_bind, wp_lift.
  eapply (wp_find_root LD (left_compare b) fuel k h); [exact Hok1|done|].
  intros h1 rt1 Hok1' Hf1 Hrf. wp_member.
  destruct (inv_relink_left h h1 b rt1 sl sr Hinv Hok1' Hf1) as [Hinv1 Hc1].
  pose proof (kept_frame1 LD RD _ _ _ Hf1) as Hk1.
  pose proof (load_kept kr k h h1 Hload Hk1) as Hload1.
  assert (Hmiss : Forall (λ p, key LD h p ≠ Some k) sl →
    wp (erase_element RD LD fuel ref_right_root ref_left_root dr
          (right_compare b) (left_compare b);;
        (k' ← lift (load kr); insert_by_values fuel k' dr;; ret tt);;
        r3 ← read_root ref_right_root; lift (get_value RD r3))
       (h1, set_root ref_left_root rt1 b) (λ res st,
    (∀ r, (k, r) ∈ contents h sl →
       res = r ∧ bimap_inv st.1 st.2 sl sr ∧ contents st.1 sl = contents h sl ∧
       dom st.1 = dom h ∧ size st.2 = size b) ∧
    (k ∉ (contents h sl).*1 →
       res = dr ∧
       ∃ sl' sr' n, bimap_inv st.1 st.2 sl' sr' ∧
         contents st.1 sl' ≡ₚ (k, dr) :: filter (λ e, e.2 ≠ dr) (contents h sl) ∧
         entry st.1 n = Some (k, dr) ∧ default_put RD dr h b sl n st.1 st.2))).
  { intros Habs. destruct Hk1 as (Hd1 & HkL1 & HkR1).
    assert (Hsafe' : ∀ p peek, kr = Inside p peek → key RD h p ≠ Some dr).
    { apply Hsafe. intros Hin.
      apply (contents_left h b sl sr) in Hin as (p & Hp & Hkp); [|done].
      by eapply Forall_forall in Habs. }
    apply (wp_left_default_miss fuel dr kr k h1 (set_root ref_left_root rt1 b) sl sr);
      [done..| | |].
    - intros p peek Hkey. rewrite HkR1. by eapply Hsafe'.
    - eapply absent_keys; [|exact Habs]. intros p _. by rewrite HkL1.
    - intros h' b' sl' sr' n Hinv' Hc' Hen Hput. split.
      + intros r (p & Hp & Hkp & _)%(contents_elem h b sl sr); [|done].
        exfalso. by eapply Forall_forall in Habs.
      + intros _. split; [done|]. exists sl', sr', n.
        split_and!; [done|by rewrite <- Hc1|done|].
        unfold default_put in *. rewrite Hd1 in Hput.
        destruct Hput as [(Hno & Hn & Hd & Hs)|(z & Hz & Hkz & Hn & Hd & Hs)];
          [left|right].
        * split_and!; [|done|done|exact Hs]. eapply absent_keys; [|exact Hno].
          intros p _. by rewrite HkR1.
        * exists z. rewrite HkR1 in Hkz. split_and!; [done|done|done|done|exact Hs]. }
  apply wp_bind, wp_and_then, wp_is_not_ptr, wp_read_root.
  rewrite ?get_set_root.
  destruct rt1 as [z|]; simpl in Hrf.
  - destruct Hrf as (kz & Hkz & Hz & Hcase).
    rewrite bool_decide_eq_true_2 by done.
    wp_member. rewrite ?get_set_root.
    assert (Hkz1 : key LD h1 z = Some kz) by (by destruct Hk1 as (_ & -> & _)).
    apply wp_bind, wp_lift. wp_read Hkz1.
    apply (wp_load kr k); [done|]. apply wp_ret'.
    case_bool_decide as Hx.
    + subst kz. wp_member. rewrite ?get_set_root. apply wp_lift.
      destruct (entry_alive h z (inv_alive h b sl sr z Hinv Hz))
        as (lz & rz & Hez & HlzL & HrzR).
      assert (Hrz1 : key RD h1 z = Some rz) by (by destruct Hk1 as (_ & _ & ->)).
      wp_read Hrz1. split.
      * intros r (q & Hq & HkqL & HkqR)%(contents_elem h b sl sr); [|done].
        assert (z = q) as <- by (by apply (inv_left_inj h b sl sr z q k Hinv)).
        split_and!; [congruence|done|done|by destruct Hk1|done].
      * intros Habs. exfalso. apply Habs.
        apply (contents_left h b sl sr); [done|]. by exists z.
    + apply Hmiss. by destruct Hcase.
  - subst sl. rewrite bool_decide_eq_false_2 by (intros Hne; by apply Hne).
    apply Hmiss. constructor.
Qed.

(** The branch of [at_right_or_default] taken when the key is absent. *)
Lemma wp_right_default_miss fuel (dl : Left) kr (k : Right) h b sl sr Q :
  bimap_inv h b sl sr → length sl ≤ fuel →
  (Z.of_nat (length sl) + 1 < size_max)%Z →
  load kr h = Some (k, h) →
  (∀ p peek, kr = Inside p peek → key LD h p ≠ Some dl) →
  Forall (λ p, key RD h p ≠ Some k) sl →
  (∀ h' b' sl' sr' n,
      bimap_inv h' b' sl' sr' →
      contents h' sl' ≡ₚ (dl, k) :: filter (λ e, e.1 ≠ dl) (contents h sl) →
      entry h' n = Some (dl, k) →
      default_put LD dl h b sl n h' b' →
      Q dl (h', b')) →
  wp (erase_element LD RD fuel ref_left_root ref_right_root dl
        (left_compare b) (right_compare b);;
      (k' ← lift (load kr); insert_by_values fuel dl k';; ret tt);;
      r3 ← read_root ref_left_root; lift (get_value LD r3)) (h, b) Q.
Proof.
  intros Hinv Hfuel Hroom Hload Hsafe Habs HQ.
  pose proof (inv_nodup _ _ _ _ Hinv) as Hnd.
  apply wp_bind. apply (wp_erase_by_left fuel dl h b sl sr); [done..| |].
  - intros h1 rt1 rt2 Hk Hinv1 Habs_dr.
    apply wp_bind. apply (wp_load kr k); [by eapply load_kept|].
    apply wp_bind.
    apply (wp_insert_by_values fuel dl k h1 _ sl sr); [done..| |].
    + intros h2 ? ? _ _ (p & Hp & Hkp). exfalso.
      destruct Hk as (_ & HkL & HkR). rewrite HkL, HkR in Hkp.
      destruct Hkp as [Hkp|Hkp].
      * by eapply Forall_forall in Habs_dr.
      * by eapply Forall_forall in Habs.
    + intros h2 n s1 s2 s1' s2' Hg E E' _ _ Hinv2. simpl.
      apply wp_ret'. wp_member. simpl. apply wp_lift.
      pose proof Hg as (Hn1 & Hdom2 & HnL & HnR & _).
      wp_read HnL.
      apply (HQ h2 _ (s1 ++ n :: s2) (s1' ++ n :: s2') n); [done| | |].
      * rewrite (grown_contents h1 n dl k h2 s1 s2 Hg).
        2:{ rewrite <- E. intros Hin.
            destruct (inv_alive h1 _ sl sr n Hinv1 Hin). congruence. }
        rewrite <- Permutation_middle, <- contents_app, <- E.
        rewrite (contents_kept h h1 sl Hk).
        rewrite filter_contents_all; [done|].
        intros p [l' r'] Hp [Hr _]%entry_Some. simpl. intros ->.
        by eapply Forall_forall in Habs_dr.
      * by apply entry_Some.
      * left. destruct Hk as (Hd & _). split_and!; [done| | |done].
        -- rewrite <- Hd. by apply not_elem_of_dom.
        -- by rewrite Hdom2, Hd.
  - intros h1 rt1 rt2 z a c sr' Hk Hsl Hkz Hinv1.
    rewrite Hsl in Hnd. pose proof (nodup_mid a c z Hnd) as Hz.
    assert (Hkeys : ∀ p, p ≠ z →
              key LD (delete z h1) p = key LD h p ∧
              key RD (delete z h1) p = key RD h p).
    { intros p Hp. destruct Hk as (_ & HkL & HkR).
      rewrite !key_delete by done. by rewrite HkL, HkR. }
    assert (Hne : ∀ p, p ∈ a ++ c → p ≠ z) by (by intros p Hp ->).
    assert (Hroom' : (Z.of_nat (length (a ++ c)) + 1 < size_max)%Z).
    { rewrite Hsl, length_app in Hroom. rewrite length_app. simpl in Hroom. lia. }
    assert (Hfuel' : length (a ++ c) ≤ fuel).
    { rewrite Hsl, length_app in Hfuel. rewrite length_app. simpl in Hfuel. lia. }
    apply wp_bind. apply (wp_load kr k).
    { apply (load_same kr k h _ Hload). intros p peek Hkey. unfold entry.
      destruct (Hkeys p) as [-> ->]; [|done]. intros ->.
      by apply (Hsafe z peek). }
    apply wp_bind.
    apply (wp_insert_by_values fuel dl k (delete z h1) _ (a ++ c) sr'); [done..| |].
    + intros h2 ? ? _ _ (p & Hp & Hkp). exfalso.
      destruct (Hkeys p (Hne p Hp)) as [HL HR]. rewrite HL, HR in Hkp.
      destruct Hkp as [Hkp|Hkp].
      * apply Hz. replace z with p; [done|].
        apply (inv_left_inj h b sl sr p z dl Hinv); [| |done..];
          rewrite Hsl; [by apply elem_mid|mem].
      * eapply Forall_forall in Habs; [by apply Habs|]. rewrite Hsl. by apply elem_mid.
    + intros h2 n s1 s2 s1' s2' Hg E E' _ _ Hinv2. simpl.
      apply wp_ret'. wp_member. simpl. apply wp_lift.
      pose proof Hg as (Hn1 & Hdom2 & HnL & HnR & _).
      wp_read HnL.
      apply (HQ h2 _ (s1 ++ n :: s2) (s1' ++ n :: s2') n); [done| | |].
      * rewrite (grown_contents (delete z h1) n dl k h2 s1 s2 Hg).
        2:{ rewrite <- E. intros Hin.
            destruct (inv_alive (delete z h1) _ (a ++ c) sr' n Hinv1 Hin). congruence. }
        rewrite <- Permutation_middle, <- contents_app, <- E.
        rewrite (contents_same h (delete z h1) (a ++ c)).
        2:{ intros p Hp. by apply Hkeys, Hne. }
        destruct (entry_alive h z) as (lz & rz & Hez & Hrz & _).
        { apply (inv_alive h b sl sr z Hinv). rewrite Hsl. mem. }
        rewrite Hsl.
        rewrite (filter_contents_one h a c z (lz, rz)); [done|done| |].
        -- simpl. intros Hne'. apply Hne'. congruence.
        -- intros p [l' r'] Hp [Hr _]%entry_Some. simpl. intros ->.
           apply Hz. replace z with p; [done|].
           apply (inv_left_inj h b sl sr p z dl Hinv); [| |done..];
             rewrite Hsl; [by apply elem_mid|mem].
      * by apply entry_Some.
      * right. exists z. destruct Hk as (Hd & _).
        assert (Hdz : dom (delete z h1) = dom h ∖ {[z]}) by (by rewrite dom_delete_L, Hd).
        split_and!; [rewrite Hsl; mem|done| | |simpl; unfold size; simpl; lia].
        -- rewrite <- Hdz. by apply not_elem_of_dom.
        -- by rewrite Hdom2, Hdz.
Qed.

Lemma at_right_or_default_run fuel (dl : Left) kr (k : Right) h b sl sr :
  bimap_inv h b sl sr → length sl ≤ fuel →
  (Z.of_nat (length sl) + 1 < size_max)%Z →
  load kr h = Some (k, h) →
  (k ∉ (contents h sl).*2 →
   ∀ p peek, kr = Inside p peek → key LD h p ≠ Some dl) →
  ∃ res h' b',
    at_right_or_default fuel dl kr (h, b) = Some (res, (h', b')) ∧
    (∀ l, (l, k) ∈ contents h sl →
       res = l ∧ bimap_inv h' b' sl sr ∧ contents h' sl = contents h sl ∧
       dom h' = dom h ∧ size b' = size b) ∧
    (k ∉ (contents h sl).*2 →
       res = dl ∧
       ∃ sl' sr' n, bimap_inv h' b' sl' sr' ∧
         contents h' sl' ≡ₚ (dl, k) :: filter (λ e, e.1 ≠ dl) (contents h sl) ∧
         entry h' n = Some (dl, k) ∧ default_put LD dl h b sl n h' b').
Proof.
  intros Hinv Hfuel Hroom Hload Hsafe.
  cut (wp (at_right_or_default fuel dl kr) (h, b) (λ res st,
    (∀ l, (l, k) ∈ contents h sl →
       res = l ∧ bimap_inv st.1 st.2 sl sr ∧ contents st.1 sl = contents h sl ∧
       dom st.1 = dom h ∧ size st.2 = size b) ∧
    (k ∉ (contents h sl).*2 →
       res = dl ∧
       ∃ sl' sr' n, bimap_inv st.1 st.2 sl' sr' ∧
         contents st.1 sl' ≡ₚ (dl, k) :: filter (λ e, e.1 ≠ dl) (contents h sl) ∧
         entry st.1 n = Some (dl, k) ∧ default_put LD dl h b sl n st.1 st.2))).
  { intros (res & [h' b'] & Hrun & HQ). by exists res, h', b'. }
  pose proof Hinv as (Hst1 & Hst2 & Hok1 & Hok2 & Hperm & Hcnt & Hbound).
  unfold at_right_or_default. wp_member. unfold at_element_or_default.
  wp_member. apply (wp_load kr k); [done|]. apply wp_bind, wp_lift.
  eapply (wp_find_root RD (right_compare b) fuel k h); [exact Hok2|by rewrite <- Hperm|].
  intros h1 rt1 Hok2' Hf1 Hrf. wp_member.
  destruct (inv_relink_right h h1 b rt1 sl sr Hinv Hok2' Hf1) as [Hinv1 Hc1].
  pose proof (kept_frame2 LD RD _ _ _ Hf1) as Hk1.
  pose proof (load_kept kr k h h1 Hload Hk1) as Hload1.
  assert (Hmiss : Forall (λ p, key RD h p ≠ Some k) sl →
    wp (erase_element LD RD fuel ref_left_root ref_right_root dl
          (left_compare b) (right_compare b);;
        (k' ← lift (load kr); insert_by_values fuel dl k';; ret tt);;
        r3 ← read_root ref_left_root; lift (get_value LD r3))
       (h1, set_root ref_right_root rt1 b) (λ res st,
    (∀ l, (l, k) ∈ contents h sl →
       res = l ∧ bimap_inv st.1 st.2 sl sr ∧ contents st.1 sl = contents h sl ∧
       dom st.1 = dom h ∧ size st.2 = size b) ∧
    (k ∉ (contents h sl).*2 →
       res = dl ∧
       ∃ sl' sr' n, bimap_inv st.1 st.2 sl' sr' ∧
         contents st.1 sl' ≡ₚ (dl, k) :: filter (λ e, e.1 ≠ dl) (contents h sl) ∧
         entry st.1 n = Some (dl, k) ∧ default_put LD dl h b sl n st.1 st.2))).
  { intros Habs. destruct Hk1 as (Hd1 & HkL1 & HkR1).
    assert (Hsafe' : ∀ p peek, kr = Inside p peek → key LD h p ≠ Some dl).
    { apply Hsafe. intros Hin.
      apply (contents_right h b sl sr) in Hin as (p & Hp & Hkp); [|done].
      by eapply Forall_forall in Habs. }
    apply (wp_right_default_miss fuel dl kr k h1 (set_root ref_right_root rt1 b) sl sr);
      [done..| | |].
    - intros p peek Hkey. rewrite HkL1. by eapply Hsafe'.
    - eapply absent_keys; [|exact Habs]. intros p _. by rewrite HkR1.
    - intros h' b' sl' sr' n Hinv' Hc' Hen Hput. split.
      + intros l (p & Hp & _ & Hkp)%(contents_elem h b sl sr); [|done].
        exfalso. by eapply Forall_forall in Habs.
      + intros _. split; [done|]. exists sl', sr', n.
        split_and!; [done|by rewrite <- Hc1|done|].
        unfold default_put in *. rewrite Hd1 in Hput.
        destruct Hput as [(Hno & Hn & Hd & Hs)|(z & Hz & Hkz & Hn & Hd & Hs)];
          [left|right].
        * split_and!; [|done|done|exact Hs]. eapply absent_keys; [|exact Hno].
          intros p _. by rewrite HkL1.
        * exists z. rewrite HkL1 in Hkz. split_and!; [done|done|done|done|exact Hs]. }
  apply wp_bind, wp_and_then, wp_is_not_ptr, wp_read_root.
  rewrite ?get_set_root.
  destruct rt1 as [z|]; simpl in Hrf.
  - destruct Hrf as (kz & Hkz & Hz & Hcase).
    rewrite <- Hperm in Hz. rewrite <- Hperm in Hcase.
    rewrite bool_decide_eq_true_2 by done.
    wp_member. rewrite ?get_set_root.
    assert (Hkz1 : key RD h1 z = Some kz) by (by destruct Hk1 as (_ & _ & ->)).
    apply wp_bind, wp_lift. wp_read Hkz1.
    apply (wp_load kr k); [done|]. apply wp_ret'.
    case_bool_decide as Hx.
    + subst kz. wp_member. rewrite ?get_set_root. apply wp_lift.
      destruct (entry_alive h z (inv_alive h b sl sr z Hinv Hz))
        as (lz & rz & Hez & HlzL & HrzR).
      assert (Hlz1 : key LD h1 z = Some lz) by (by destruct Hk1 as (_ & -> & _)).
      wp_read Hlz1. split.
      * intros l (q & Hq & HkqL & HkqR)%(contents_elem h b sl sr); [|done].
        assert (z = q) as <- by (by apply (inv_right_inj h b sl sr z q k Hinv)).
        split_and!; [congruence|done|done|by destruct Hk1|done].
      * intros Habs. exfalso. apply Habs.
        apply (contents_right h b sl sr); [done|]. by exists z.
    + apply Hmiss. by destruct Hcase.
  - subst sr. apply Permutation_nil_r in Hperm. subst sl.
    rewrite bool_decide_eq_false_2 by (intros Hne; by apply Hne).
    apply Hmiss. constructor.
Qed.

(** Claim C8, as amended.  Let the comparators be strict total orders,
    let the argument [key], a reference, read [l] (resp. [r]), and, when
    that key is absent, let it not refer into the record that holds the
    default value [d] of the other side.  Then [at_left_or_default(key)]
    and [at_right_or_default(key)] return.  When the key is present the
    paired value of the other side is returned and the pairs, the
    records and the size are what they were.  When it is absent [d] is
    returned, a record [n] holding the pair of the key and [d] has been
    allocated, and the container holds that pair together with exactly
    those former pairs whose other-side value differs from [d]: either
    no record carried [d] and the records are the former ones and [n],
    the size one more; or the record [z] that carried [d] has been freed
    and the records are the former ones without [z], and [n], the size
    unchanged. *)
Theorem at_or_default_spec fuel h b sl sr
    (dr : Right) (kl : reference Left Right Left) (l : Left)
    (dl : Left) (kr : reference Left Right Right) (r : Right) :
  StrictTotal (left_compare b) → StrictTotal (right_compare b) →
  bimap_inv h b sl sr → length sl ≤ fuel →
  (Z.of_nat (length sl) + 1 < size_max)%Z →
  load kl h = Some (l, h) →
  (l ∉ (contents h sl).*1 →
   ∀ p peek, kl = Inside p peek → key RD h p ≠ Some dr) →
  load kr h = Some (r, h) →
  (r ∉ (contents h sl).*2 →
   ∀ p peek, kr = Inside p peek → key LD h p ≠ Some dl) →
  (∃ res h' b',
    at_left_or_default fuel dr kl (h, b) = Some (res, (h', b')) ∧
    (∀ r', (l, r') ∈ contents h sl →
       res = r' ∧ bimap_inv h' b' sl sr ∧ contents h' sl = contents h sl ∧
       dom h' = dom h ∧ size b' = size b) ∧
    (l ∉ (contents h sl).*1 →
       res = dr ∧
       ∃ sl' sr' n, bimap_inv h' b' sl' sr' ∧
         contents h' sl' ≡ₚ (l, dr) :: filter (λ e, e.2 ≠ dr) (contents h sl) ∧
         entry h' n = Some (l, dr) ∧
         ((Forall (λ p, key RD h p ≠ Some dr) sl ∧
           n ∉ dom h ∧ dom h' = {[n]} ∪ dom h ∧ size b' = (size b + 1)%Z) ∨
          (∃ z, z ∈ sl ∧ key RD h z = Some dr ∧
                n ∉ dom h ∖ {[z]} ∧ dom h' = {[n]} ∪ (dom h ∖ {[z]}) ∧
                size b' = size b)))) ∧
  (∃ res h' b',
    at_right_or_default fuel dl kr (h, b) = Some (res, (h', b')) ∧
    (∀ l', (l', r) ∈ contents h sl →
       res = l' ∧ bimap_inv h' b' sl sr ∧ contents h' sl = contents h sl ∧
       dom h' = dom h ∧ size b' = size b) ∧
    (r ∉ (contents h sl).*2 →
       res = dl ∧
       ∃ sl' sr' n, bimap_inv h' b' sl' sr' ∧
         contents h' sl' ≡ₚ (dl, r) :: filter (λ e, e.1 ≠ dl) (contents h sl) ∧
         entry h' n = Some (dl, r) ∧
         ((Forall (λ p, key LD h p ≠ Some dl) sl ∧
           n ∉ dom h ∧ dom h' = {[n]} ∪ dom h ∧ size b' = (size b + 1)%Z) ∨
          (∃ z, z ∈ sl ∧ key LD h z = Some dl ∧
                n ∉ dom h ∖ {[z]} ∧ dom h' = {[n]} ∪ (dom h ∖ {[z]}) ∧
                size b' = size b)))).
Proof.
  intros _ _ Hinv Hfuel Hroom Hl Hsl Hr Hsr. split.
  - by apply at_left_or_default_run.
  - by apply at_right_or_default_run.
Qed.

(** Claim C10.  Flipping a cursor twice gives a cursor that [operator==]
    finds equal to the original one, on the Left side and on the Right
    side, whatever the cursor points at and also for the end cursor. *)
Theorem flip_flip_spec :
  (∀ it : left_iterator,
     flip RD LD (flip LD RD it) = it ∧
     iterator_eq LD RD (flip RD LD (flip LD RD it)) it = true) ∧
  (∀ it : right_iterator,
     flip LD RD (flip RD LD it) = it ∧
     iterator_eq RD LD (flip LD RD (flip RD LD it)) it = true) ∧
  (∀ this : addr,
     flip LD RD (end_left this) = end_right this ∧
     flip RD LD (end_right this) = end_left this).
Proof.
  split_and!.
  - intros [t n]. split; [done|]. unfold iterator_eq. simpl.
    by rewrite !bool_decide_eq_true_2.
  - intros [t n]. split; [done|]. unfold iterator_eq. simpl.
    by rewrite !bool_decide_eq_true_2.
  - done.
Qed.
End public_specs.

(** * Runs on integer keys *)

#[global] Instance Z_ltb_strict : StrictTotal Z.ltb.
Proof.
  split.
  - intros a. apply Z.ltb_irrefl.
  - intros a b c Hab%Z.ltb_lt Hbc%Z.ltb_lt. apply Z.ltb_lt. lia.
  - intros a b. destruct (Z.lt_trichotomy a b) as [Hlt|[Heq|Hgt]].
    + left. by apply Z.ltb_lt.
    + right. by left.
    + right. right. by apply Z.ltb_lt.
Qed.

Lemma two_inserts :
  insert 1%positive 2 1%Z 20%Z start ≫= (λ r, insert 1%positive 2 2%Z 10%Z r.2)
  = Some (Iterator left_descriptor_t right_descriptor_t 1%positive (Some 2%positive),
          (two_heap, two_bimap)).
Proof. vm_compute. reflexivity. Qed.

Lemma two_inv : bimap_inv two_heap two_bimap [1; 2]%positive [2; 1]%positive.
Proof.
  split_and!.
  - apply _.
  - apply _.
  - exists (Node (Node Leaf 1%positive Leaf) 2%positive Leaf).
    split_and!; try done.
    + apply NoDup_cons. split; [by intros ?%list_elem_of_singleton|]. apply NoDup_singleton.
    + repeat constructor. by exists 1%Z, 2%Z.
  - exists (Node Leaf 2%positive (Node Leaf 1%positive Leaf)).
    split_and!; try done.
    + apply NoDup_cons. split; [by intros ?%list_elem_of_singleton|]. apply NoDup_singleton.
    + repeat constructor. by exists 10%Z, 20%Z.
  - apply perm_swap.
  - done.
  - done.
Qed.

Lemma two_contents : contents two_heap [1; 2]%positive = [(1, 20); (2, 10)]%Z.
Proof. reflexivity. Qed.


(** ** Comparators that are coarser than [==] *)

(** [absltb] is a strict weak order: irreflexive, transitive, and with a
    transitive incomparability; 1 and -1 are incomparable and differ. *)
Lemma absltb_strict_weak :
  (∀ a, absltb a a = false) ∧
  (∀ a b c, absltb a b = true → absltb b c = true → absltb a c = true) ∧
  (∀ a b c, absltb a b = false → absltb b a = false →
            absltb b c = false → absltb c b = false →
            absltb a c = false ∧ absltb c a = false) ∧
  absltb 1 (-1) = false ∧ absltb (-1) 1 = false.
Proof.
  unfold absltb. split_and!; [| | |done..].
  - intros a. apply Z.ltb_irrefl.
  - intros a b c ?%Z.ltb_lt ?%Z.ltb_lt. apply Z.ltb_lt. lia.
  - intros a b c ?%Z.ltb_ge ?%Z.ltb_ge ?%Z.ltb_ge ?%Z.ltb_ge.
    split; apply Z.ltb_ge; lia.
Qed.

(** The container of (1, 20) and (-1, 10) is built by the code itself,
    and iterating its Left side visits record 1, holding (1, 20), and then
    record 2, holding (-1, 10). *)
Lemma abs_inserts :
  insert 1%positive 3 1%Z 20%Z abs_start
    ≫= (λ r, insert 1%positive 3 (-1)%Z 10%Z r.2)
  = Some (Iterator LDz RDz 1%positive (Some 2%positive), (abs_heap, abs_bimap)) ∧
  begin_left 1%positive 3 abs_bimap abs_heap
  = Some (Iterator LDz RDz 1%positive (Some 1%positive), abs_heap) ∧
  increment LDz RDz 3 (Iterator LDz RDz 1%positive (Some 1%positive)) abs_heap
  = Some (Iterator LDz RDz 1%positive (Some 2%positive), abs_heap) ∧
  increment LDz RDz 3 (Iterator LDz RDz 1%positive (Some 2%positive)) abs_heap
  = Some (end_left 1%positive, abs_heap) ∧
  entry abs_heap 1%positive = Some (1, 20)%Z ∧
  entry abs_heap 2%positive = Some (-1, 10)%Z.
Proof. split_and!; vm_compute; reflexivity. Qed.

(** Claim C3 as stated fails when the Left comparator is [absltb].  The
    container built by [insert(1, 20)] and [insert(-1, 10)] holds the
    Left value 1: its first cursor points at record 1 and reads 1.  Yet
    [insert(1, 30)] does not return the end cursor: it allocates record
    3, the size becomes 3, and the records 1 and 3 both hold the Left
    value 1. *)
Lemma insert_coarser_order_duplicate :
  insert 1%positive 3 1%Z 20%Z abs_start
    ≫= (λ r, insert 1%positive 3 (-1)%Z 10%Z r.2)
  = Some (Iterator LDz RDz 1%positive (Some 2%positive), (abs_heap, abs_bimap)) ∧
  begin_left 1%positive 3 abs_bimap abs_heap
  = Some (Iterator LDz RDz 1%positive (Some 1%positive), abs_heap) ∧
  star LDz RDz (Iterator LDz RDz 1%positive (Some 1%positive)) abs_heap
  = Some (1%Z, abs_heap) ∧
  ∃ h' b',
    insert 1%positive 3 1%Z 30%Z (abs_heap, abs_bimap)
    = Some (Iterator LDz RDz 1%positive (Some 3%positive), (h', b')) ∧
    Iterator LDz RDz 1%positive (Some 3%positive) ≠ end_left 1%positive ∧
    abs_heap !! 3%positive = None ∧
    size abs_bimap = 2%Z ∧ size b' = 3%Z ∧
    entry h' 1%positive = Some (1, 20)%Z ∧
    entry h' 3%positive = Some (1, 30)%Z.
Proof.
  split_and!; [vm_compute; reflexivity..|].
  eexists _, _. split_and!; [vm_compute; reflexivity|done..].
Qed.

(** Claim C6 as stated fails when the Left comparator is [absltb].  In
    the container built by [insert(1, 20)] and [insert(-1, 10)] the pair
    (1, 20) is live: the first Left cursor points at record 1, which holds
    it.  Yet [at_left(1)] throws [out_of_range], and leaves the container
    as it was. *)
Lemma at_left_coarser_order_throws :
  insert 1%positive 3 1%Z 20%Z abs_start
    ≫= (λ r, insert 1%positive 3 (-1)%Z 10%Z r.2)
  = Some (Iterator LDz RDz 1%positive (Some 2%positive), (abs_heap, abs_bimap)) ∧
  begin_left 1%positive 3 abs_bimap abs_heap
  = Some (Iterator LDz RDz 1%positive (Some 1%positive), abs_heap) ∧
  entry abs_heap 1%positive = Some (1, 20)%Z ∧
  at_left 3 1%Z (abs_heap, abs_bimap)
  = Some (Thrown out_of_range, (abs_heap, abs_bimap)).
Proof. split_and!; vm_compute; reflexivity. Qed.

(** Claim C7 as stated fails when the Left comparator is [absltb].  In
    the container built by [insert(1, 20)] and [insert(-1, 10)] the first
    record in Left order is record 1; its Left value 1 is not less than
    1.  Yet [lower_bound_left(1)] returns a cursor to record 2, the one
    that comes after it. *)
Lemma lower_bound_coarser_order_not_first :
  insert 1%positive 3 1%Z 20%Z abs_start
    ≫= (λ r, insert 1%positive 3 (-1)%Z 10%Z r.2)
  = Some (Iterator LDz RDz 1%positive (Some 2%positive), (abs_heap, abs_bimap)) ∧
  begin_left 1%positive 3 abs_bimap abs_heap
  = Some (Iterator LDz RDz 1%positive (Some 1%positive), abs_heap) ∧
  star LDz RDz (Iterator LDz RDz 1%positive (Some 1%positive)) abs_heap
  = Some (1%Z, abs_heap) ∧
  absltb 1 1 = false ∧
  increment LDz RDz 3 (Iterator LDz RDz 1%positive (Some 1%positive)) abs_heap
  = Some (Iterator LDz RDz 1%positive (Some 2%positive), abs_heap) ∧
  lower_bound_left 1%positive 3 1%Z (abs_heap, abs_bimap)
  = Some (Iterator LDz RDz 1%positive (Some 2%positive), (abs_heap, abs_bimap)) ∧
  Iterator LDz RDz 1%positive (Some 2%positive)
  ≠ Iterator LDz RDz 1%positive (Some 1%positive).
Proof. split_and!; try (vm_compute; reflexivity). done. Qed.

(** Claim C8 as stated fails when the Left comparator is [absltb].  In
    the container built by [insert(1, 20)] and [insert(-1, 10)] the key 1
    is present, paired with 20.  Yet [at_left_or_default(1)], with 0 the
    default, returns 0 and not 20, and it changes the container:
    record 3 is allocated for (1, 0) and the size becomes 3. *)
Lemma at_left_or_default_coarser_order_inserts :
  insert 1%positive 3 1%Z 20%Z abs_start
    ≫= (λ r, insert 1%positive 3 (-1)%Z 10%Z r.2)
  = Some (Iterator LDz RDz 1%positive (Some 2%positive), (abs_heap, abs_bimap)) ∧
  begin_left 1%positive 3 abs_bimap abs_heap
  = Some (Iterator LDz RDz 1%positive (Some 1%positive), abs_heap) ∧
  entry abs_heap 1%positive = Some (1, 20)%Z ∧
  ∃ h' b',
    at_left_or_default 3 0%Z (Outside 1%Z) (abs_heap, abs_bimap)
    = Some (0%Z, (h', b')) ∧
    abs_heap !! 3%positive = None ∧
    size abs_bimap = 2%Z ∧ size b' = 3%Z ∧
    entry h' 1%positive = Some (1, 20)%Z ∧
    entry h' 3%positive = Some (1, 0)%Z.
Proof.
  split_and!; [vm_compute; reflexivity..|].
  eexists _, _. split_and!; [vm_compute; reflexivity|done..].
Qed.

(** A key that refers into the record holding the default value.  In the
    container of the one pair (5, 0), [at_left_or_default] is called with
    the Right value of record 1, which is 0, as the key and 0 as the
    default.  The key is absent on the Left side, so the record whose
    Right value is 0 is freed, record 1, and then the key is read again
    through the reference: no defined result. *)
Lemma at_left_or_default_dangling_key :
  insert 1%positive 3 5%Z 0%Z start
  = Some (Iterator LDz RDz 1%positive (Some 1%positive),
          ({[ 1%positive := Node_t 5%Z 0%Z (TreeNode None None None)
                                         (TreeNode None None None) ]},
           Bimap (Some 1%positive) (Some 1%positive) Z.ltb Z.ltb 1%Z)) ∧
  load (Inside 1%positive (λ _ r : Z, r))
       ({[ 1%positive := Node_t 5%Z 0%Z (TreeNode None None None)
                                      (TreeNode None None None) ]}
          : gmap ptr (node_t Z Z))
  = Some (0%Z, {[ 1%positive := Node_t 5%Z 0%Z (TreeNode None None None)
                                             (TreeNode None None None) ]}) ∧
  at_left_or_default 3 0%Z (Inside 1%positive (λ _ r : Z, r))
    ({[ 1%positive := Node_t 5%Z 0%Z (TreeNode None None None)
                                   (TreeNode None None None) ]},
     Bimap (Some 1%positive) (Some 1%positive) Z.ltb Z.ltb 1%Z)
  = None.
Proof. split_and!; vm_compute; reflexivity. Qed.

(** Claim C2.  The move constructor, run on a new object whose members
    hold anything, leaves the new object with a null left root and with
    the right root it had before the body ran, and leaves the right root
    of the source as it was: of the two roots only the count arrives.  On
    the container of (1, 20) and (2, 10) the new object has size 2 and an
    empty Left tree, and the source still points at its records. *)
Theorem move_drops_roots :
  (∀ this0 other : bimap Z Z,
     left_root (bimap_move this0 other).1 = None ∧
     right_root (bimap_move this0 other).1 = right_root this0 ∧
     elements_count (bimap_move this0 other).1 = elements_count other ∧
     left_root (bimap_move this0 other).2 = None ∧
     right_root (bimap_move this0 other).2 = right_root other ∧
     elements_count (bimap_move this0 other).2 = 0%Z) ∧
  (∀ this0 : bimap Z Z,
     left_root (bimap_move this0 two_bimap).1 ≠ left_root two_bimap ∧
     size (bimap_move this0 two_bimap).1 = 2%Z ∧
     right_root (bimap_move this0 two_bimap).2 = Some 2%positive).
Proof. split; [intros this0 other|intros this0]; by split_and!. Qed.

(** Claim C1.  Two inserts into the empty container give the container
    of (1, 20) and (2, 10), which satisfies the invariant; the object
    move-constructed from it reports size 2 and satisfies the invariant
    for no pair of record sequences, its Left tree being empty. *)
Theorem move_breaks_invariant (this0 : bimap Z Z) :
  insert 1%positive 2 1%Z 20%Z start ≫= (λ r, insert 1%positive 2 2%Z 10%Z r.2)
  = Some (Iterator LDz RDz 1%positive (Some 2%positive), (two_heap, two_bimap)) ∧
  bimap_inv two_heap two_bimap [1; 2]%positive [2; 1]%positive ∧
  size (bimap_move this0 two_bimap).1 = 2%Z ∧
  ∀ sl sr, ¬ bimap_inv two_heap (bimap_move this0 two_bimap).1 sl sr.
Proof.
  split_and!; [exact two_inserts|exact two_inv|done|].
  intros sl sr (_ & _ & (t & _ & Hroot & Hin & _) & _ & _ & Hcnt & _).
  destruct t; [|done]. simpl in Hin. subst sl. done.
Qed.

(** Claim C4.  In the container of (1, 20) and (2, 10), [erase_left] at
    the record of Left value 2, the Left maximum, returns a cursor to the
    record of Left value 1 and not the end cursor; [erase_right] at the
    record of Right value 20, the Right maximum, returns a cursor to the
    record of Right value 10.  The size drops to 1 in both cases. *)
Theorem erase_at_maximum_returns_root :
  (∃ h' b',
     erase_left 1%positive 2 (Iterator LDz RDz 1%positive (Some 2%positive))
       (two_heap, two_bimap)
     = Some (Iterator LDz RDz 1%positive (Some 1%positive), (h', b')) ∧
     Iterator LDz RDz 1%positive (Some 1%positive) ≠ end_left 1%positive ∧
     size b' = 1%Z ∧ contents h' [1%positive] = [(1, 20)%Z]) ∧
  (∃ h' b',
     erase_right 1%positive 2 (Iterator RDz LDz 1%positive (Some 1%positive))
       (two_heap, two_bimap)
     = Some (Iterator RDz LDz 1%positive (Some 2%positive), (h', b')) ∧
     Iterator RDz LDz 1%positive (Some 2%positive) ≠ end_right 1%positive ∧
     size b' = 1%Z ∧ contents h' [2%positive] = [(2, 10)%Z]).
Proof.
  split; eexists _, _; (split; [vm_compute; reflexivity|]); by split_and!.
Qed.

(** Claim C9.  Comparing two empty containers with [operator==] has no
    defined result: the sizes agree, and [begin_left()] then reads the
    left child of a null root.  This is so on every heap and for every
    bound on the loops. *)
Theorem eq_of_empty_undefined (this_addr other_addr : addr) (fuel n : nat)
    (h : gmap ptr (node_t Z Z)) :
  size (bimap_new Z.ltb Z.ltb) = size (bimap_new Z.ltb Z.ltb) ∧
  begin_left this_addr fuel (bimap_new Z.ltb Z.ltb) h = None ∧
  bimap_eq this_addr other_addr fuel n
    (bimap_new Z.ltb Z.ltb) (bimap_new Z.ltb Z.ltb) h = None.
Proof. split_and!; [done|by destruct fuel..]. Qed.

(** Inserting (3, 30) into the container of (1, 20) and (2, 10). *)
Lemma insert_spec_witness :
  ∃ it h' b',
    insert 1%positive 2 3%Z 30%Z (two_heap, two_bimap) = Some (it, (h', b')) ∧
    (it = end_left 1%positive ↔
       3%Z ∈ (contents two_heap [1; 2]%positive).*1 ∨
       30%Z ∈ (contents two_heap [1; 2]%positive).*2) ∧
    (it = end_left 1%positive →
       dom h' = dom two_heap ∧ size b' = size two_bimap ∧
       bimap_inv h' b' [1; 2]%positive [2; 1]%positive ∧
       contents h' [1; 2]%positive = contents two_heap [1; 2]%positive) ∧
    (it ≠ end_left 1%positive →
       ∃ n s1 s2 sr',
         it = Iterator LDz RDz 1%positive (Some n) ∧
         (n ∉ dom two_heap) ∧ dom h' = {[n]} ∪ dom two_heap ∧
         size b' = (size two_bimap + 1)%Z ∧
         entry h' n = Some (3%Z, 30%Z) ∧
         [1; 2]%positive = s1 ++ s2 ∧ n ∈ sr' ∧
         bimap_inv h' b' (s1 ++ n :: s2) sr' ∧
         contents h' (s1 ++ n :: s2)
         = contents two_heap s1 ++ (3%Z, 30%Z) :: contents two_heap s2).
Proof.
  apply (insert_spec 1%positive 2 3%Z 30%Z two_heap two_bimap
           [1; 2]%positive [2; 1]%positive).
  - exact Z_ltb_strict.
  - exact Z_ltb_strict.
  - exact two_inv.
  - simpl. lia.
  - vm_compute. reflexivity.
Defined.

(** [at_left] and [at_right] on the container of (1, 20) and (2, 10). *)
Lemma at_spec_witness :
  (∀ key, ∃ res h' b',
      at_left 2 key (two_heap, two_bimap) = Some (res, (h', b')) ∧
      bimap_inv h' b' [1; 2]%positive [2; 1]%positive ∧
      contents h' [1; 2]%positive = contents two_heap [1; 2]%positive ∧
      (res = Thrown out_of_range ↔ key ∉ (contents two_heap [1; 2]%positive).*1) ∧
      (∀ r, res = Returned r ↔ (key, r) ∈ contents two_heap [1; 2]%positive)) ∧
  (∀ key, ∃ res h' b',
      at_right 2 key (two_heap, two_bimap) = Some (res, (h', b')) ∧
      bimap_inv h' b' [1; 2]%positive [2; 1]%positive ∧
      contents h' [1; 2]%positive = contents two_heap [1; 2]%positive ∧
      (res = Thrown out_of_range ↔ key ∉ (contents two_heap [1; 2]%positive).*2) ∧
      (∀ l, res = Returned l ↔ (l, key) ∈ contents two_heap [1; 2]%positive)) ∧
  (∀ l r, (l, r) ∈ contents two_heap [1; 2]%positive →
      (∃ h' b', at_left 2 l (two_heap, two_bimap) = Some (Returned r, (h', b'))) ∧
      (∃ h' b', at_right 2 r (two_heap, two_bimap) = Some (Returned l, (h', b')))).
Proof.
  apply (at_spec 2 two_heap two_bimap [1; 2]%positive [2; 1]%positive).
  - exact Z_ltb_strict.
  - exact Z_ltb_strict.
  - exact two_inv.
  - simpl. lia.
Defined.

(** The four bound queries on the container of (1, 20) and (2, 10). *)
Lemma bound_spec_witness :
  (∀ k, ∃ it h' b',
      lower_bound_left 1%positive 2 k (two_heap, two_bimap) = Some (it, (h', b')) ∧
      bimap_inv h' b' [1; 2]%positive [2; 1]%positive ∧
      contents h' [1; 2]%positive = contents two_heap [1; 2]%positive ∧
      tree it = 1%positive ∧
      is_lower_bound LDz Z.ltb two_heap k [1; 2]%positive (node it)) ∧
  (∀ k, ∃ it h' b',
      upper_bound_left 1%positive 2 k (two_heap, two_bimap) = Some (it, (h', b')) ∧
      bimap_inv h' b' [1; 2]%positive [2; 1]%positive ∧
      contents h' [1; 2]%positive = contents two_heap [1; 2]%positive ∧
      tree it = 1%positive ∧
      is_upper_bound LDz Z.ltb two_heap k [1; 2]%positive (node it)) ∧
  (∀ k, ∃ it h' b',
      lower_bound_right 1%positive 2 k (two_heap, two_bimap) = Some (it, (h', b')) ∧
      bimap_inv h' b' [1; 2]%positive [2; 1]%positive ∧
      contents h' [1; 2]%positive = contents two_heap [1; 2]%positive ∧
      tree it = 1%positive ∧
      is_lower_bound RDz Z.ltb two_heap k [2; 1]%positive (node it)) ∧
  (∀ k, ∃ it h' b',
      upper_bound_right 1%positive 2 k (two_heap, two_bimap) = Some (it, (h', b')) ∧
      bimap_inv h' b' [1; 2]%positive [2; 1]%positive ∧
      contents h' [1; 2]%positive = contents two_heap [1; 2]%positive ∧
      tree it = 1%positive ∧
      is_upper_bound RDz Z.ltb two_heap k [2; 1]%positive (node it)).
Proof.
  apply (bound_spec 1%positive 2 two_heap two_bimap [1; 2]%positive [2; 1]%positive).
  - exact Z_ltb_strict.
  - exact Z_ltb_strict.
  - exact two_inv.
  - simpl. lia.
Defined.

(** On the container of (1, 20) and (2, 10): [at_left_or_default] with a
    key 3 held outside the container and 20 as the default, which frees
    record 1; and [at_right_or_default] with the key a reference to the
    Right value of record 2, which is present. *)
Lemma at_or_default_spec_witness :
  (∃ res h' b',
    at_left_or_default 2 20%Z (Outside 3%Z) (two_heap, two_bimap)
    = Some (res, (h', b')) ∧
    (∀ r', (3%Z, r') ∈ contents two_heap [1; 2]%positive →
       res = r' ∧ bimap_inv h' b' [1; 2]%positive [2; 1]%positive ∧
       contents h' [1; 2]%positive = contents two_heap [1; 2]%positive ∧
       dom h' = dom two_heap ∧ size b' = size two_bimap) ∧
    (3%Z ∉ (contents two_heap [1; 2]%positive).*1 →
       res = 20%Z ∧
       ∃ sl' sr' n, bimap_inv h' b' sl' sr' ∧
         contents h' sl'
         ≡ₚ (3%Z, 20%Z)
            :: filter (λ e, e.2 ≠ 20%Z) (contents two_heap [1; 2]%positive) ∧
         entry h' n = Some (3%Z, 20%Z) ∧
         ((Forall (λ p, key RDz two_heap p ≠ Some 20%Z) [1; 2]%positive ∧
           n ∉ dom two_heap ∧ dom h' = {[n]} ∪ dom two_heap ∧
           size b' = (size two_bimap + 1)%Z) ∨
          (∃ z, z ∈ [1; 2]%positive ∧ key RDz two_heap z = Some 20%Z ∧
                n ∉ dom two_heap ∖ {[z]} ∧
                dom h' = {[n]} ∪ (dom two_heap ∖ {[z]}) ∧
                size b' = size two_bimap)))) ∧
  (∃ res h' b',
    at_right_or_default 2 0%Z (Inside 2%positive (λ _ r, r)) (two_heap, two_bimap)
    = Some (res, (h', b')) ∧
    (∀ l', (l', 10%Z) ∈ contents two_heap [1; 2]%positive →
       res = l' ∧ bimap_inv h' b' [1; 2]%positive [2; 1]%positive ∧
       contents h' [1; 2]%positive = contents two_heap [1; 2]%positive ∧
       dom h' = dom two_heap ∧ size b' = size two_bimap) ∧
    (10%Z ∉ (contents two_heap [1; 2]%positive).*2 →
       res = 0%Z ∧
       ∃ sl' sr' n, bimap_inv h' b' sl' sr' ∧
         contents h' sl'
         ≡ₚ (0%Z, 10%Z)
            :: filter (λ e, e.1 ≠ 0%Z) (contents two_heap [1; 2]%positive) ∧
         entry h' n = Some (0%Z, 10%Z) ∧
         ((Forall (λ p, key LDz two_heap p ≠ Some 0%Z) [1; 2]%positive ∧
           n ∉ dom two_heap ∧ dom h' = {[n]} ∪ dom two_heap ∧
           size b' = (size two_bimap + 1)%Z) ∨
          (∃ z, z ∈ [1; 2]%positive ∧ key LDz two_heap z = Some 0%Z ∧
                n ∉ dom two_heap ∖ {[z]} ∧
                dom h' = {[n]} ∪ (dom two_heap ∖ {[z]}) ∧
                size b' = size two_bimap)))).
Proof.
  apply (at_or_default_spec 2 two_heap two_bimap [1; 2]%positive [2; 1]%positive
           20%Z (Outside 3%Z) 3%Z 0%Z (Inside 2%positive (λ _ r, r)) 10%Z).
  - exact Z_ltb_strict.
  - exact Z_ltb_strict.
  - exact two_inv.
  - simpl. lia.
  - vm_compute. reflexivity.
  - reflexivity.
  - intros _ p peek Hkey. discriminate Hkey.
  - reflexivity.
  - intros Habsent. exfalso. apply Habsent. vm_compute.
    apply list_elem_of_further, list_elem_of_here.
Defined.

(** * Further properties of the engine and of the container *)

(** ** Walking the tree without changing it *)

Section traversal.
Context {Left Right V : Type} (d : descriptor Left Right V) `{!DescriptorLaws d}.

Implicit Types (h : gmap ptr (node_t Left Right)) (t : shape) (c : path).

Lemma wp_sink_right fuel : ∀ t par h Q,
  t ≠ Leaf → trep (lk d h) par t → length (inorder t) ≤ S fuel →
  (∀ z rest, inorder t = rest ++ [z] → Q (Some z) h) →
  wp (sink_right d fuel (root t)) h Q.
Proof.
  induction fuel as [|fuel IH]; intros t par h Q Hne Ht Hlen HQ;
    (destruct t as [|a y b]; [done|]); destruct Ht as (Hy & Ha & Hb);
    simpl in Hlen; rewrite length_app in Hlen; simpl in Hlen; simpl root.
  - cbn [sink_right]. wp_read Hy. destruct b as [|bl bz br].
    + simpl. apply wp_ret'. by eapply HQ.
    + simpl in Hlen. rewrite length_app in Hlen. simpl in Hlen. lia.
  - cbn [sink_right]. wp_read Hy. destruct b as [|bl bz br].
    + simpl. apply wp_ret'. by eapply HQ.
    + simpl root. cbv iota.
      apply (IH (Node bl bz br) (Some y) h Q); [done|exact Hb|lia|].
      intros z rest E. apply (HQ z (inorder a ++ y :: rest)).
      change (inorder (Node a y (Node bl bz br)))
        with (inorder a ++ y :: inorder (Node bl bz br)).
      rewrite E. by rewrite <- app_assoc.
Qed.

(** Climbing from [x] to the first ancestor that has [x] in its left
    subtree: the record that follows the subtree of [x]. *)
Lemma wp_next_climb fuel : ∀ c x tn h Q,
  lk d h !! x = Some tn → tn_parent tn = cpar c →
  crep (lk d h) c (Some x) →
  NoDup (x :: before c) → length c ≤ fuel →
  Q (head (after c)) h →
  wp (next_climb d fuel (Some x)) h Q.
Proof.
  induction fuel as [|fuel IH]; intros c x tn h Q Hx Hpar Hc Hnd Hlen HQ.
  - destruct c; [|simpl in Hlen; lia]. cbn [next_climb]. wp_read Hx.
    rewrite Hpar. simpl. by apply wp_ret'.
  - cbn [next_climb]. wp_read Hx. rewrite Hpar.
    destruct c as [|[p r|l p] c]; simpl in *.
    + by apply wp_ret'.
    + destruct Hc as (Hp & Hr & Hc). wp_read Hp.
      rewrite bool_decide_eq_true_2 by done. by apply wp_ret'.
    + destruct Hc as (Hp & Hl & Hc). wp_read Hp.
      rewrite bool_decide_eq_false_2.
      2:{ intros E%root_inorder. apply NoDup_cons in Hnd as [Hnd _].
          apply Hnd. mem. }
      apply (IH c p _ h Q Hp); [done|done| |lia|done].
      apply NoDup_cons in Hnd as [_ Hnd].
      apply NoDup_app in Hnd as (H1 & H2 & H3).
      apply NoDup_app in H3 as (H3 & H4 & H5).
      apply NoDup_cons. split; [|done]. intros Hin. apply (H2 p Hin). mem.
Qed.

Lemma wp_next fuel t x s1 s2 h Q :
  trep (lk d h) None t → NoDup (inorder t) →
  inorder t = s1 ++ x :: s2 → length (inorder t) ≤ S fuel →
  Q (head s2) h →
  wp (next d fuel (Some x)) h Q.
Proof.
  intros Ht Hnd E Hlen HQ.
  destruct (member_plug t x) as (a & b & c & ->); [rewrite E; mem|].
  pose proof Ht as [Hsub Hc]%trep_plug. destruct Hsub as (Hx & Ha & Hb).
  rewrite inorder_plug in E, Hnd, Hlen. simpl in E, Hnd, Hlen.
  assert (Hs : s1 = before c ++ inorder a ∧ s2 = inorder b ++ after c).
  { apply (nodup_split_unique _ _ _ _ x); [by rewrite <- E|].
    rewrite <- E. by rewrite <- !app_assoc. }
  destruct Hs as [-> ->].
  unfold next. wp_read Hx. destruct b as [|bl bz br]; simpl root; cbv iota.
  - simpl in HQ. apply (wp_next_climb fuel c x _ h Q Hx); [done|exact Hc| | |done].
    + apply NoDup_app in Hnd as (H1 & H2 & H3). apply NoDup_cons. split; [|done].
      intros Hin. apply (H2 x Hin). mem.
    + pose proof (path_length c) as Hpl. rewrite !length_app in *.
      simpl in Hlen. lia.
  - apply (wp_sink_left d fuel (Node bl bz br) (Some x) h); [done|exact Hb| |].
    + rewrite !length_app in Hlen. simpl in Hlen. rewrite !length_app in Hlen.
      simpl in *. rewrite !length_app in *. simpl in *. lia.
    + intros z rest Ez. rewrite Ez in HQ. exact HQ.
Qed.
End traversal.

(** ** Cursors *)

Section cursor_specs.
Context {Left Right : Type} `{EqDecision Left, EqDecision Right}.

Abbreviation LD := (@left_descriptor_t Left Right).
Abbreviation RD := (@right_descriptor_t Left Right).

Implicit Types (h : gmap ptr (node_t Left Right)) (b : bimap Left Right).

Lemma wp_exact {S A} (m : M S A) (s s0 : S) (v : A) :
  wp m s (λ a s', a = v ∧ s' = s0) → m s = Some (v, s0).
Proof. by intros (a & s' & -> & -> & ->). Qed.

(** One side of the container read as a tree of cursors: the first and
    the last record, and the step forwards. *)
Lemma side_walk {V} (d : descriptor Left Right V) `{!DescriptorLaws d}
    (compare : V → V → bool) fuel h rt s :
  side_ok d compare h rt s → length s ≤ S fuel →
  (s ≠ [] →
     sink_left d fuel rt h = Some (head s, h) ∧
     sink_right d fuel rt h = Some (last s, h)) ∧
  (s = [] → sink_left d fuel rt h = None ∧ sink_right d fuel rt h = None) ∧
  (∀ s1 p s2, s = s1 ++ p :: s2 →
     next d fuel (Some p) h = Some (head s2, h)).
Proof.
  intros (t & Ht & <- & <- & Hnd & _) Hlen. split_and!.
  - intros Hne. assert (Ht' : t ≠ Leaf) by (by intros ->). split.
    + apply wp_exact. apply (wp_sink_left d fuel t None h); [done..|].
      intros z rest ->. done.
    + apply wp_exact. apply (wp_sink_right d fuel t None h); [done..|].
      intros z rest ->. by rewrite last_snoc.
  - intros ->%inorder_nil. by destruct fuel.
  - intros s1 p s2 E. apply wp_exact.
    by apply (wp_next d fuel t p s1 s2 h).
Qed.

(** Property X1.
    [begin_left()] and [begin_right()] on a container that is not empty:
    the first record in Left order and the first in Right order.  Nothing
    is written. *)
Theorem begin_spec this fuel h b sl sr :
  bimap_inv h b sl sr → length sl ≤ S fuel → sl ≠ [] →
  begin_left this fuel b h = Some (Iterator LD RD this (head sl), h) ∧
  begin_right this fuel b h = Some (Iterator RD LD this (head sr), h) ∧
  is_Some (head sl) ∧ is_Some (head sr).
Proof.
  intros (_ & _ & Hl & Hr & Hperm & _) Hlen Hne.
  assert (Hne' : sr ≠ []).
  { intros ->. by apply Permutation_nil_r in Hperm. }
  assert (Hlen' : length sr ≤ S fuel) by (by rewrite <- Hperm).
  destruct (side_walk LD _ fuel h _ sl Hl Hlen) as (Hw & _ & _).
  destruct (side_walk RD _ fuel h _ sr Hr Hlen') as (Hw' & _ & _).
  destruct (Hw Hne) as [H1 _]. destruct (Hw' Hne') as [H3 _].
  split_and!.
  - unfold begin_left, mbind, M_bind, bind. by rewrite H1.
  - unfold begin_right, mbind, M_bind, bind. by rewrite H3.
  - by destruct sl.
  - by destruct sr.
Qed.

(** Property X2.
    On an empty container [begin_left()] and [begin_right()] read
    through the null root: no defined result. *)
Theorem begin_of_empty_undefined this fuel h b :
  bimap_inv h b [] [] →
  begin_left this fuel b h = None ∧
  begin_right this fuel b h = None.
Proof.
  intros (_ & _ & (tl & _ & Hrl & ->%inorder_nil & _)
                & (tr & _ & Hrr & ->%inorder_nil & _) & _).
  simpl in Hrl, Hrr.
  unfold begin_left, begin_right, mbind, M_bind, bind. simpl.
  rewrite <- Hrl, <- Hrr. by destruct fuel.
Qed.

(** Property X3.
    [++it] at a record: the next record in the order of the cursor's
    side, the end cursor after the last.  Nothing is written.  [++it] at
    the end cursor reads through the null pointer: no defined result. *)
Theorem step_spec this fuel h b sl sr :
  bimap_inv h b sl sr → length sl ≤ S fuel →
  (∀ s1 p s2, sl = s1 ++ p :: s2 →
     increment LD RD fuel (Iterator LD RD this (Some p)) h
     = Some (Iterator LD RD this (head s2), h)) ∧
  (∀ s1 p s2, sr = s1 ++ p :: s2 →
     increment RD LD fuel (Iterator RD LD this (Some p)) h
     = Some (Iterator RD LD this (head s2), h)) ∧
  increment LD RD fuel (end_left this) h = None ∧
  increment RD LD fuel (end_right this) h = None.
Proof.
  intros (_ & _ & Hl & Hr & Hperm & _) Hlen.
  assert (Hlen' : length sr ≤ S fuel) by (by rewrite <- Hperm).
  destruct (side_walk LD _ fuel h _ sl Hl Hlen) as (_ & _ & Hw).
  destruct (side_walk RD _ fuel h _ sr Hr Hlen') as (_ & _ & Hw').
  split_and!; [| |done..].
  - intros s1 p s2 E. pose proof (Hw s1 p s2 E) as H1.
    unfold increment, mbind, M_bind, bind. simpl. by rewrite H1.
  - intros s1 p s2 E. pose proof (Hw' s1 p s2 E) as H1.
    unfold increment, mbind, M_bind, bind. simpl. by rewrite H1.
Qed.
End cursor_specs.

(** ** Lookup, erasure and their composition *)

Section lookup_erase_specs.
Context {Left Right : Type} `{EqDecision Left, EqDecision Right}.

Abbreviation LD := (@left_descriptor_t Left Right).
Abbreviation RD := (@right_descriptor_t Left Right).

Implicit Types (h : gmap ptr (node_t Left Right)) (b : bimap Left Right).

Lemma find_left_run this fuel l h b sl sr :
  bimap_inv h b sl sr → length sl ≤ fuel →
  ∃ it h' b',
    find_left this fuel l (h, b) = Some (it, (h', b')) ∧
    bimap_inv h' b' sl sr ∧ kept LD RD h h' ∧ size b' = size b ∧
    tree it = this ∧ is_found LD h l sl (node it).
Proof.
  intros Hinv Hfuel.
  cut (wp (find_left this fuel l) (h, b) (λ it st,
         bimap_inv st.1 st.2 sl sr ∧ kept LD RD h st.1 ∧ size st.2 = size b ∧
         tree it = this ∧ is_found LD h l sl (node it))).
  { intros (it & [h' b'] & Hrun & HQ). by exists it, h', b'. }
  pose proof Hinv as (Hst1 & Hst2 & Hok1 & Hok2 & Hperm & Hcnt & Hbound).
  unfold find_left. wp_member.
  apply (wp_find_element LD RD (left_compare b) this fuel ref_left_root l h b sl);
    [done..|].
  intros h' rt' res Hok1' Hf Hres. simpl.
  destruct (inv_relink_left h h' b rt' sl sr Hinv Hok1' Hf) as [Hinv' _].
  split_and!; try done. apply (kept_frame1 LD RD _ _ _ Hf).
Qed.

Lemma find_right_run this fuel r h b sl sr :
  bimap_inv h b sl sr → length sl ≤ fuel →
  ∃ it h' b',
    find_right this fuel r (h, b) = Some (it, (h', b')) ∧
    bimap_inv h' b' sl sr ∧ kept LD RD h h' ∧ size b' = size b ∧
    tree it = this ∧ is_found RD h r sl (node it).
Proof.
  intros Hinv Hfuel.
  cut (wp (find_right this fuel r) (h, b) (λ it st,
         bimap_inv st.1 st.2 sl sr ∧ kept LD RD h st.1 ∧ size st.2 = size b ∧
         tree it = this ∧ is_found RD h r sl (node it))).
  { intros (it & [h' b'] & Hrun & HQ). by exists it, h', b'. }
  pose proof Hinv as (Hst1 & Hst2 & Hok1 & Hok2 & Hperm & Hcnt & Hbound).
  unfold find_right. wp_member.
  apply (wp_find_element RD LD (right_compare b) this fuel ref_right_root r h b sr);
    [done|by rewrite <- Hperm|].
  intros h' rt' res Hok2' Hf Hres. simpl.
  destruct (inv_relink_right h h' b rt' sl sr Hinv Hok2' Hf) as [Hinv' _].
  split_and!; try done; [apply (kept_frame2 LD RD _ _ _ Hf)|].
  destruct res as [p|]; simpl in *; by rewrite Hperm.
Qed.

Lemma star_at {V V2} (d : descriptor Left Right V) (d2 : descriptor Left Right V2)
    this h p v :
  key d h p = Some v → star d d2 (Iterator d d2 this (Some p)) h = Some (v, h).
Proof.
  intros (n & Hn & <-)%key_Some.
  unfold star, get_value, mbind, M_bind, bind, deref. simpl. by rewrite Hn.
Qed.





Lemma erase_left_key_run fuel k h b sl sr :
  bimap_inv h b sl sr → length sl ≤ fuel →
  ∃ res h' b',
    erase_left_key fuel k (h, b) = Some (res, (h', b')) ∧
    (res = false →
       Forall (λ p, key LD h p ≠ Some k) sl ∧
       bimap_inv h' b' sl sr ∧ kept LD RD h h' ∧ size b' = size b) ∧
    (res = true →
       ∃ z a c sr' h1,
         sl = a ++ z :: c ∧ key LD h z = Some k ∧
         kept LD RD h h1 ∧ h' = delete z h1 ∧
         size b' = (size b - 1)%Z ∧ bimap_inv h' b' (a ++ c) sr').
Proof.
  intros Hinv Hfuel.
  cut (wp (erase_left_key fuel k) (h, b) (λ res st,
    (res = false →
       Forall (λ p, key LD h p ≠ Some k) sl ∧
       bimap_inv st.1 st.2 sl sr ∧ kept LD RD h st.1 ∧ size st.2 = size b) ∧
    (res = true →
       ∃ z a c sr' h1,
         sl = a ++ z :: c ∧ key LD h z = Some k ∧
         kept LD RD h h1 ∧ st.1 = delete z h1 ∧
         size st.2 = (size b - 1)%Z ∧ bimap_inv st.1 st.2 (a ++ c) sr'))).
  { intros (res & [h' b'] & Hrun & HQ). by exists res, h', b'. }
  unfold erase_left_key. wp_member. wp_member. apply wp_bind.
  apply (wp_erase_by_left fuel k h b sl sr); [done..| |].
  - intros h' rt1 rt2 Hk Hinv' Habs. wp_member. apply wp_ret'. simpl.
    rewrite bool_decide_eq_false_2 by lia. split; [done|done].
  - intros h1 rt1 rt2 z a c sr' Hk Hsl Hkz Hinv'. wp_member. apply wp_ret'. simpl.
    rewrite bool_decide_eq_true_2 by lia. split; [done|]. intros _.
    by exists z, a, c, sr', h1.
Qed.



(** Property X7.
    After [erase_left(l)] has removed the pair [(l, r)], neither
    [find_left(l)] nor [find_right(r)] finds a record. *)
Theorem erase_then_find_spec this fuel h b sl sr l r :
  bimap_inv h b sl sr → length sl ≤ fuel → (l, r) ∈ contents h sl →
  ∃ s1 s2 s3,
    erase_left_key fuel l (h, b) = Some (true, s1) ∧
    find_left this fuel l s1 = Some (end_left this, s2) ∧
    find_right this fuel r s2 = Some (end_right this, s3) ∧
    size s3.2 = (size b - 1)%Z.
Proof.
  intros Hinv Hfuel (q & Hq & HqL & HqR)%(contents_elem h b sl sr); [|done].
  pose proof (inv_nodup _ _ _ _ Hinv) as Hnd.
  destruct (erase_left_key_run fuel l h b sl sr Hinv Hfuel)
    as (res & h1 & b1 & Hrun & Hno & Hyes).
  destruct res.
  2:{ destruct (Hno eq_refl) as (Habs & _). exfalso.
      by eapply Forall_forall in Habs. }
  destruct (Hyes eq_refl) as (z & a & c & sr' & h0 & Hsl & Hkz & Hk & -> & Hsz & Hinv1).
  assert (z = q) as ->.
  { apply (inv_left_inj h b sl sr z q l Hinv); [rewrite Hsl; mem|done..]. }
  rewrite Hsl in Hnd. pose proof (nodup_mid a c q Hnd) as Hqac.
  assert (Hlen : length (a ++ c) ≤ fuel).
  { rewrite Hsl, length_app in Hfuel. rewrite length_app. simpl in Hfuel. lia. }
  assert (Hkeys : ∀ p, p ∈ a ++ c →
            key LD (delete q h0) p = key LD h p ∧
            key RD (delete q h0) p = key RD h p).
  { intros p Hp. destruct Hk as (_ & HkL & HkR).
    rewrite !key_delete by (by intros ->). by rewrite HkL, HkR. }
  destruct (find_left_run this fuel l _ _ _ _ Hinv1 Hlen)
    as ([tr nd] & h2 & b2 & Hrun2 & Hinv2 & Hk2 & Hsz2 & Htr & Hres).
  destruct (find_right_run this fuel r _ _ _ _ Hinv2 Hlen)
    as ([tr' nd'] & h3 & b3 & Hrun3 & Hinv3 & Hk3 & Hsz3 & Htr' & Hres').
  simpl in *. subst tr tr'.
  exists (delete q h0, b1), (h2, b2), (h3, b3).
  destruct nd as [p|]; simpl in Hres.
  { exfalso. destruct Hres as [Hp Hkp]. destruct (Hkeys p Hp) as [HL _].
    rewrite HL in Hkp. apply Hqac. replace q with p; [done|].
    apply (inv_left_inj h b sl sr p q l Hinv); [|rewrite Hsl; mem|done..].
    rewrite Hsl. by apply elem_mid. }
  destruct nd' as [p|]; simpl in Hres'.
  { exfalso. destruct Hres' as [Hp Hkp]. destruct Hk2 as (_ & _ & HkR2).
    rewrite HkR2 in Hkp. destruct (Hkeys p Hp) as [_ HR].
    rewrite HR in Hkp. apply Hqac. replace q with p; [done|].
    apply (inv_right_inj h b sl sr p q r Hinv); [|rewrite Hsl; mem|done..].
    rewrite Hsl. by apply elem_mid. }
  split_and!; [done..|]. simpl. congruence.
Qed.

Lemma insert_run this fuel l r h b sl sr :
  bimap_inv h b sl sr → length sl ≤ fuel →
  (Z.of_nat (length sl) + 1 < size_max)%Z →
  ∃ nd h' b',
    insert this fuel l r (h, b) = Some (Iterator LD RD this nd, (h', b')) ∧
    match nd with
    | None =>
        (∃ p, p ∈ sl ∧ (key LD h p = Some l ∨ key RD h p = Some r)) ∧
        kept LD RD h h' ∧ bimap_inv h' b' sl sr ∧ size b' = size b
    | Some n =>
        ∃ s1 s2 sr',
          grown h n l r h' ∧ sl = s1 ++ s2 ∧
          Forall (λ p, key LD h p ≠ Some l) sl ∧
          Forall (λ p, key RD h p ≠ Some r) sl ∧
          bimap_inv h' b' (s1 ++ n :: s2) sr' ∧ size b' = (size b + 1)%Z
    end.
Proof.
  intros Hinv Hfuel Hroom.
  cut (wp (insert this fuel l r) (h, b) (λ it st,
    tree it = this ∧
    match node it with
    | None =>
        (∃ p, p ∈ sl ∧ (key LD h p = Some l ∨ key RD h p = Some r)) ∧
        kept LD RD h st.1 ∧ bimap_inv st.1 st.2 sl sr ∧ size st.2 = size b
    | Some n =>
        ∃ s1 s2 sr',
          grown h n l r st.1 ∧ sl = s1 ++ s2 ∧
          Forall (λ p, key LD h p ≠ Some l) sl ∧
          Forall (λ p, key RD h p ≠ Some r) sl ∧
          bimap_inv st.1 st.2 (s1 ++ n :: s2) sr' ∧ size st.2 = (size b + 1)%Z
    end)).
  { intros ([tr nd] & [h' b'] & Hrun & Htr & HQ). simpl in *. subst tr.
    by exists nd, h', b'. }
  pose proof Hinv as (_ & _ & _ & _ & Hperm & _).
  unfold insert. apply wp_bind.
  apply (wp_insert_by_values fuel l r h b sl sr); [done..| |].
  - intros h' rt1 rt2 Hk Hinv' Hex. apply wp_ret'. simpl. by split_and!.
  - intros h' n s1 s2 s1' s2' Hg E E' HabsL HabsR Hinv'. apply wp_ret'. simpl.
    split; [done|]. exists s1, s2, (s1' ++ n :: s2').
    split_and!; try done. by rewrite Hperm.
Qed.

Lemma grown_fresh h n l r h' b sl sr :
  grown h n l r h' → bimap_inv h b sl sr → n ∉ sl.
Proof.
  intros (Hn & _) Hinv Hin. destruct (inv_alive h b sl sr n Hinv Hin). congruence.
Qed.

(** Property X8.
    A pair that [insert] has put in is what [at_left] and [at_right]
    return, and a second [insert] of either of its values is refused. *)
Theorem insert_then_at_spec this fuel h b sl sr l r :
  bimap_inv h b sl sr → S (length sl) ≤ fuel →
  (Z.of_nat (length sl) + 2 < size_max)%Z →
  l ∉ (contents h sl).*1 → r ∉ (contents h sl).*2 →
  ∃ it s1 s2 s3,
    insert this fuel l r (h, b) = Some (it, s1) ∧ it ≠ end_left this ∧
    at_left fuel l s1 = Some (Returned r, s2) ∧
    at_right fuel r s2 = Some (Returned l, s3) ∧
    size s3.2 = (size b + 1)%Z ∧
    (∀ r', ∃ s4, insert this fuel l r' s3 = Some (end_left this, s4) ∧
                 size s4.2 = size s3.2) ∧
    (∀ l', ∃ s4, insert this fuel l' r s3 = Some (end_left this, s4) ∧
                 size s4.2 = size s3.2).
Proof.
  intros Hinv Hfuel Hroom HnoL HnoR.
  destruct (insert_run this fuel l r h b sl sr Hinv) as (nd & h1 & b1 & Hrun & Hpost);
    [lia..|].
  destruct nd as [n|].
  2:{ exfalso. destruct Hpost as ((p & Hp & [Hkp|Hkp]) & _).
      - apply HnoL. apply (contents_left h b sl sr); [done|]. by exists p.
      - apply HnoR. apply (contents_right h b sl sr); [done|]. by exists p. }
  destruct Hpost as (s1 & s2 & sr' & Hg & Hsl & _ & _ & Hinv1 & Hsz1).
  assert (Hn : n ∉ s1 ++ s2) by (rewrite <- Hsl; by eapply grown_fresh).
  pose proof (grown_contents h n l r h1 s1 s2 Hg Hn) as Hc1.
  assert (Hlen1 : length (s1 ++ n :: s2) ≤ fuel).
  { rewrite Hsl, length_app in Hfuel. rewrite length_app. simpl. lia. }
  assert (Hroom1 : (Z.of_nat (length (s1 ++ n :: s2)) + 1 < size_max)%Z).
  { rewrite Hsl, length_app in Hroom. rewrite length_app. simpl length. lia. }
  assert (Hin1 : (l, r) ∈ contents h1 (s1 ++ n :: s2)) by (rewrite Hc1; mem).
  destruct (at_left_run fuel l h1 b1 _ _ Hinv1 Hlen1)
    as (res2 & h2 & b2 & Hrun2 & Hinv2 & Hc2 & _ & Hres2).
  apply Hres2 in Hin1 as ->.
  assert (Hin2 : (l, r) ∈ contents h2 (s1 ++ n :: s2)) by (rewrite Hc2, Hc1; mem).
  destruct (at_right_run fuel r h2 b2 _ _ Hinv2 Hlen1)
    as (res3 & h3 & b3 & Hrun3 & Hinv3 & Hc3 & _ & Hres3).
  pose proof Hin2 as Hin2'. apply Hres3 in Hin2' as ->.
  assert (Hsz3 : size b3 = (size b + 1)%Z).
  { destruct Hinv1 as (_ & _ & _ & _ & _ & Hcnt1 & _).
    destruct Hinv3 as (_ & _ & _ & _ & _ & Hcnt3 & _).
    unfold size in *. congruence. }
  assert (Hin3 : (l, r) ∈ contents h3 (s1 ++ n :: s2)) by (by rewrite Hc3).
  apply (contents_elem h3 b3 _ _ l r Hinv3) in Hin3 as (q & Hq & HqL & HqR).
  exists (Iterator LD RD this (Some n)), (h1, b1), (h2, b2), (h3, b3).
  split_and!; try done.
  - intros r'.
    destruct (insert_run this fuel l r' h3 b3 _ _ Hinv3 Hlen1 Hroom1)
      as (nd & h4 & b4 & Hrun4 & Hpost).
    destruct nd as [m|].
    + exfalso. destruct Hpost as (? & ? & ? & _ & _ & Habs & _).
      by eapply Forall_forall in Habs.
    + exists (h4, b4). split; [done|]. by destruct Hpost as (_ & _ & _ & ?).
  - intros l'.
    destruct (insert_run this fuel l' r h3 b3 _ _ Hinv3 Hlen1 Hroom1)
      as (nd & h4 & b4 & Hrun4 & Hpost).
    destruct nd as [m|].
    + exfalso. destruct Hpost as (? & ? & ? & _ & _ & _ & Habs & _).
      by eapply Forall_forall in Habs.
    + exists (h4, b4). split; [done|]. by destruct Hpost as (_ & _ & _ & ?).
Qed.
End lookup_erase_specs.

(** ** Erasing at a cursor *)

Section cursor_erase_specs.
Context {Left Right : Type} `{EqDecision Left, EqDecision Right}.

Abbreviation LD := (@left_descriptor_t Left Right).
Abbreviation RD := (@right_descriptor_t Left Right).

Implicit Types (h : gmap ptr (node_t Left Right)) (b : bimap Left Right).








Lemma iterator_ne_same {V1 V2} (d1 : descriptor Left Right V1)
    (d2 : descriptor Left Right V2) (it : basic_iterator d1 d2) :
  iterator_ne d1 d2 it it = false.
Proof. unfold iterator_ne, iterator_eq. by rewrite !bool_decide_eq_true_2. Qed.

Lemma iterator_ne_node {V1 V2} (d1 : descriptor Left Right V1)
    (d2 : descriptor Left Right V2) this (p q : option ptr) :
  p ≠ q → iterator_ne d1 d2 (Iterator d1 d2 this p) (Iterator d1 d2 this q) = true.
Proof.
  intros Hne. unfold iterator_ne, iterator_eq. simpl.
  by rewrite bool_decide_eq_true_2, bool_decide_eq_false_2.
Qed.



End cursor_erase_specs.

(** ** Comparison and destruction *)

Section whole_container_specs.
Context {Left Right : Type} `{EqDecision Left, EqDecision Right}.

Abbreviation LD := (@left_descriptor_t Left Right).
Abbreviation RD := (@right_descriptor_t Left Right).

Implicit Types (h : gmap ptr (node_t Left Right)) (b : bimap Left Right).

Lemma contents_alive_cons h (x : ptr) (s : list ptr) :
  is_Some (h !! x) →
  ∃ l r, key LD h x = Some l ∧ key RD h x = Some r ∧
         contents h (x :: s) = (l, r) :: contents h s.
Proof.
  intros Hx. destruct (entry_alive h x Hx) as (l & r & He & Hl & Hr).
  exists l, r. split_and!; [done..|]. by apply contents_cons.
Qed.

(** The loop of [operator==] over the remaining records of both
    containers. *)
Lemma equal_loop_run this other fuel h cmpa cmpb rta rtb : ∀ ra n pa rb pb,
  side_ok LD cmpa h rta (pa ++ ra) → side_ok LD cmpb h rtb (pb ++ rb) →
  length (pa ++ ra) ≤ S fuel → length (pb ++ rb) ≤ S fuel →
  length ra = length rb → length ra ≤ n →
  equal_loop this fuel n (Iterator LD RD this (head ra))
    (Iterator LD RD other (head rb)) h
  = Some (bool_decide ((contents h ra).*1 = (contents h rb).*1), h).
Proof.
  induction ra as [|x ra IH]; intros n pa rb pb Ha Hb Hla Hlb Hlen Hn.
  - destruct rb; [|done].
    destruct n; simpl; unfold end_left; by rewrite iterator_ne_same.
  - destruct rb as [|y rb]; [done|]. destruct n as [|n]; [simpl in Hn; lia|].
    destruct (contents_alive_cons h x ra) as (lx & rx & Hlx & _ & ->).
    { apply (side_ok_alive LD cmpa h rta _ x Ha). mem. }
    destruct (contents_alive_cons h y rb) as (ly & ry & Hly & _ & ->).
    { apply (side_ok_alive LD cmpb h rtb _ y Hb). mem. }
    destruct (side_walk LD cmpa fuel h _ _ Ha Hla) as (_ & _ & Hwa).
    destruct (side_walk LD cmpb fuel h _ _ Hb Hlb) as (_ & _ & Hwb).
    pose proof (Hwa pa x ra eq_refl) as Hna.
    pose proof (Hwb pb y rb eq_refl) as Hnb.
    assert (Hia : increment LD RD fuel (Iterator LD RD this (Some x)) h
                  = Some (Iterator LD RD this (head ra), h)).
    { unfold increment, mbind, M_bind, bind. simpl. by rewrite Hna. }
    assert (Hib : increment LD RD fuel (Iterator LD RD other (Some y)) h
                  = Some (Iterator LD RD other (head rb), h)).
    { unfold increment, mbind, M_bind, bind. simpl. by rewrite Hnb. }
    cbn [equal_loop head]. unfold end_left. rewrite iterator_ne_node by done.
    unfold mbind, M_bind, bind.
    rewrite (star_at LD RD this h x lx Hlx), (star_at LD RD other h y ly Hly).
    destruct (decide (lx = ly)) as [->|Hne].
    + rewrite bool_decide_eq_true_2 by done. cbn [negb]. cbv beta iota.
      rewrite Hia. cbv beta iota. rewrite Hib. cbv beta iota.
      rewrite (IH n (pa ++ [x]) rb (pb ++ [y])).
      * f_equal. f_equal. apply bool_decide_ext. rewrite !fmap_cons. simpl.
        split; [by intros ->|by intros [= ->]].
      * by rewrite <- app_assoc.
      * by rewrite <- app_assoc.
      * by rewrite <- app_assoc.
      * by rewrite <- app_assoc.
      * simpl in Hlen. lia.
      * simpl in Hn. lia.
    + rewrite bool_decide_eq_false_2 by done. cbn [negb]. cbv beta iota.
      unfold ret. rewrite bool_decide_eq_false_2; [done|].
      rewrite !fmap_cons. simpl. by intros [= ?].
Qed.

(** Property X11.
    [a == b] is [false] when the sizes differ; when they agree and the
    containers are not empty it is [true] exactly when the Left values,
    taken in Left order, are the same in both: the Right values are not
    looked at.  [a != b] is the negation.  Nothing is written. *)
Theorem eq_spec this other fuel n h a b sla sra slb srb :
  bimap_inv h a sla sra → bimap_inv h b slb srb →
  length sla ≤ S fuel → length slb ≤ S fuel → length sla ≤ n →
  (size a ≠ size b →
     bimap_eq this other fuel n a b h = Some (false, h) ∧
     bimap_ne this other fuel n a b h = Some (true, h)) ∧
  (size a = size b → sla ≠ [] →
     bimap_eq this other fuel n a b h
     = Some (bool_decide ((contents h sla).*1 = (contents h slb).*1), h) ∧
     bimap_ne this other fuel n a b h
     = Some (negb (bool_decide ((contents h sla).*1 = (contents h slb).*1)), h)).
Proof.
  intros Ha Hb Hla Hlb Hn. split.
  - intros Hne. unfold bimap_ne, bimap_eq, mbind, M_bind, bind.
    by rewrite bool_decide_eq_false_2.
  - intros Hsz Hnea.
    pose proof Ha as (_ & _ & Hoka & _ & _ & Hca & _).
    pose proof Hb as (_ & _ & Hokb & _ & _ & Hcb & _).
    assert (Hlen : length sla = length slb).
    { unfold size in Hsz. rewrite Hca, Hcb in Hsz. lia. }
    assert (Hneb : slb ≠ []) by (intros ->; by destruct sla).
    destruct (side_walk LD _ fuel h _ _ Hoka Hla) as (Hwa & _ & _).
    destruct (side_walk LD _ fuel h _ _ Hokb Hlb) as (Hwb & _ & _).
    destruct (Hwa Hnea) as [Hba _]. destruct (Hwb Hneb) as [Hbb _].
    pose proof (equal_loop_run this other fuel h _ _ _ _ sla n [] slb []
                  Hoka Hokb Hla Hlb Hlen Hn) as Hloop.
    assert (Hbla : begin_left this fuel a h
                   = Some (Iterator LD RD this (head sla), h)).
    { unfold begin_left, mbind, M_bind, bind. by rewrite Hba. }
    assert (Hblb : begin_left other fuel b h
                   = Some (Iterator LD RD other (head slb), h)).
    { unfold begin_left, mbind, M_bind, bind. by rewrite Hbb. }
    assert (Heq : bimap_eq this other fuel n a b h
      = Some (bool_decide ((contents h sla).*1 = (contents h slb).*1), h)).
    { unfold bimap_eq. rewrite bool_decide_eq_true_2 by done. cbn [negb].
      cbv beta iota. unfold mbind, M_bind, bind.
      rewrite Hbla. cbv beta iota. rewrite Hblb. cbv beta iota. exact Hloop. }
    split; [done|]. unfold bimap_ne, mbind, M_bind, bind. by rewrite Heq.
Qed.

(** The heap [h] without the records [s]. *)
Definition without h (s : list ptr) h' : Prop :=
  ∀ p, (p ∈ s → h' !! p = None) ∧ (p ∉ s → h' !! p = h !! p).

Lemma without_dom h s h' : without h s h' → dom h' = dom h ∖ list_to_set s.
Proof.
  intros Hw. apply set_eq. intros p.
  rewrite elem_of_difference, elem_of_list_to_set, !elem_of_dom.
  destruct (Hw p) as [Hin Hout]. destruct (decide (p ∈ s)) as [Hp|Hp].
  - rewrite (Hin Hp). split; [by intros [? ?]|by intros [_ ?]].
  - rewrite (Hout Hp). tauto.
Qed.

(** The recursive [dfs] of the destructor frees the records of the
    subtree it is called on and nothing else. *)
Lemma wp_dfs : ∀ t fuel par h Q,
  trep (lk LD h) par t → NoDup (inorder t) → length (inorder t) ≤ fuel →
  (∀ h', without h (inorder t) h' → Q tt h') →
  wp (dfs fuel (root t)) h Q.
Proof.
  induction t as [|l IHl x r IHr]; intros fuel par h Q Ht Hnd Hlen HQ.
  - destruct fuel; simpl; apply wp_ret'; apply HQ; intros p;
      (split; [by intros ?%elem_of_nil|done]).
  - destruct Ht as (Hx & Hl & Hr). simpl in Hnd, Hlen.
    rewrite length_app in Hlen. simpl in Hlen.
    destruct fuel as [|fuel]; [lia|].
    apply NoDup_app in Hnd as (Hndl & Hlx & Hndr).
    apply NoDup_cons in Hndr as (Hxr & Hndr).
    assert (Hxl : x ∉ inorder l) by (intros ?; eapply Hlx; [done|mem]).
    assert (Hlr : ∀ e, e ∈ inorder r → e ∉ inorder l)
      by (intros e He ?; eapply Hlx; [done|mem]).
    simpl root. cbn [dfs]. wp_read Hx. apply wp_bind.
    apply (IHl fuel (Some x) h); [done|done|lia|].
    intros h1 Hw1.
    assert (Hx1 : lk LD h1 !! x = Some (TreeNode (root l) (root r) par)).
    { unfold lk in *. rewrite lookup_fmap in *. by rewrite (proj2 (Hw1 x) Hxl). }
    wp_read Hx1. apply wp_bind.
    apply (IHr fuel (Some x) h1); [|done|lia|].
    { eapply trep_ext; [|exact Hr]. intros y Hy. unfold lk.
      rewrite !lookup_fmap. by rewrite (proj2 (Hw1 y) (Hlr y Hy)). }
    intros h2 Hw2.
    assert (Hx2 : is_Some (h2 !! x)).
    { rewrite (proj2 (Hw2 x) Hxr). apply lk_Some in Hx1 as (n & Hn & _).
      by exists n. }
    destruct Hx2 as [n Hn]. eapply wp_delete_node; [exact Hn|].
    apply HQ. intros p. split.
    + intros Hp. destruct (decide (p = x)) as [->|Hne];
        [by rewrite lookup_delete_eq|].
      rewrite lookup_delete_ne by done.
      destruct (decide (p ∈ inorder r)) as [Hpr|Hpr]; [by apply Hw2|].
      rewrite (proj2 (Hw2 p) Hpr). apply Hw1.
      apply elem_of_app in Hp as [Hp|Hp]; [done|].
      apply elem_of_cons in Hp as [->|Hp]; done.
    + intros Hp. rewrite lookup_delete_ne by (intros ->; apply Hp; mem).
      rewrite (proj2 (Hw2 p)) by (intros ?; apply Hp; mem).
      apply Hw1. intros ?. apply Hp. mem.
Qed.

Lemma inv_same h h' b sl sr :
  (∀ p, p ∈ sl → h' !! p = h !! p) →
  bimap_inv h b sl sr → bimap_inv h' b sl sr ∧ contents h' sl = contents h sl.
Proof.
  intros Hsame (Hst1 & Hst2 & Hok1 & Hok2 & Hperm & Hcnt & Hbound). split.
  - split_and!; try done.
    + by apply (side_ok_same LD _ h h').
    + apply (side_ok_same RD _ h h'); [|done]. intros p Hp. apply Hsame.
      by rewrite Hperm.
  - apply contents_same. intros p Hp. unfold key. by rewrite Hsame.
Qed.

Lemma destroy_run fuel h b sl sr :
  bimap_inv h b sl sr → length sl ≤ fuel →
  ∃ h', bimap_destroy fuel b h = Some (tt, h') ∧ without h sl h'.
Proof.
  intros (_ & _ & (t & Ht & Hrt & E & Hnd & _) & _) Hfuel.
  destruct (wp_dfs t fuel None h (λ _ h', without h sl h'))
    as ([] & h' & Hrun & Hw);
    [done|by rewrite E|by rewrite E|by rewrite E|].
  exists h'. split; [|done]. unfold bimap_destroy. by rewrite <- Hrt.
Qed.

(** Property X12.
    The destructor frees exactly the records of the container; every
    other record, and so every container that shares none of them, is
    what it was. *)
Theorem destroy_spec fuel h b sl sr :
  bimap_inv h b sl sr → length sl ≤ fuel →
  ∃ h',
    bimap_destroy fuel b h = Some (tt, h') ∧
    dom h' = dom h ∖ list_to_set sl ∧
    (∀ p, p ∉ sl → h' !! p = h !! p) ∧
    (∀ b2 s2 s2',
       bimap_inv h b2 s2 s2' → (∀ p, p ∈ s2 → p ∉ sl) →
       bimap_inv h' b2 s2 s2' ∧ contents h' s2 = contents h s2).
Proof.
  intros Hinv Hfuel.
  destruct (destroy_run fuel h b sl sr Hinv Hfuel) as (h' & Hrun & Hw).
  exists h'. split_and!.
  - done.
  - by apply without_dom.
  - intros p Hp. by apply Hw.
  - intros b2 s2 s2' Hinv2 Hdisj. apply inv_same; [|done].
    intros p Hp. apply Hw. by apply Hdisj.
Qed.

(** Property X13.
    [this = other], with [other] passed by value: the container takes
    over the roots, comparators and count of [other], and the records
    it held before are freed. *)
Theorem assign_spec fuel h this other sl sr so so' :
  bimap_inv h this sl sr → bimap_inv h other so so' →
  (∀ p, p ∈ so → p ∉ sl) → length sl ≤ fuel →
  ∃ h',
    assign fuel this other h = Some (other, h') ∧
    dom h' = dom h ∖ list_to_set sl ∧
    bimap_inv h' other so so' ∧ contents h' so = contents h so.
Proof.
  intros Hthis Hother Hdisj Hfuel.
  destruct (destroy_run fuel h this sl sr Hthis Hfuel) as (h' & Hrun & Hw).
  exists h'. split_and!.
  - unfold assign, swap, mbind, M_bind, bind. by rewrite Hrun.
  - by apply without_dom.
  - apply (inv_same h h'); [|done]. intros p Hp. apply Hw. by apply Hdisj.
  - apply (inv_same h h' other so so'); [|done]. intros p Hp. apply Hw. by apply Hdisj.
Qed.

(** *** The copy constructor *)

(** One iteration of the loop of the copy constructor, after the pair
    [(l, r)] has been read: both trees of the new container are searched
    and a new record holding the pair is linked into both.  [l] is
    greater than every Left value the new container holds, so the new
    record comes last in Left order. *)
Lemma wp_copy_step {A} fuel (l : Left) (r : Right) h b nl nr
    (k : unit → M (gmap ptr (node_t Left Right) * bimap Left Right) A) Q :
  StrictTotal (left_compare b) → StrictTotal (right_compare b) →
  side_ok LD (left_compare b) h (left_root b) nl →
  side_ok RD (right_compare b) h (right_root b) nr →
  nl ≡ₚ nr → length nl ≤ fuel →
  Forall (below LD (left_compare b) h l) nl →
  Forall (λ p, key RD h p ≠ Some r) nl →
  (∀ h' n rt1 rt2 nr',
      grown h n l r h' →
      (∀ p, p ∉ nl → p ≠ n → h' !! p = h !! p) →
      side_ok LD (left_compare b) h' rt1 (nl ++ [n]) →
      side_ok RD (right_compare b) h' rt2 nr' →
      nl ++ [n] ≡ₚ nr' →
      wp (k tt) (h', Bimap rt1 rt2 (left_compare b) (right_compare b)
                       (elements_count b)) Q) →
  wp (b0 ← this_;
      lr ← lift (find LD (left_compare b0) fuel (left_root b0) l);
      write_root ref_left_root lr;;
      b1 ← this_;
      rr ← lift (find RD (right_compare b1) fuel (right_root b1) r);
      write_root ref_right_root rr;;
      nn ← lift (new_node l r);
      b2 ← this_;
      insert_node LD fuel ref_left_root nn (left_compare b2);;
      insert_node RD fuel ref_right_root nn (right_compare b2);;
      k tt) (h, b) Q.
Proof.
  intros Hst1 Hst2 Hok1 Hok2 Hperm Hfuel Hbelow HabsR HQ.
  wp_member. apply wp_bind, wp_lift.
  eapply (wp_find_root LD (left_compare b) fuel l h); [exact Hok1|done|].
  intros h1 rt1 Hok1' Hf1 _.
  wp_member. wp_member. simpl.
  apply wp_bind, wp_lift.
  eapply (wp_find_root RD (right_compare b) fuel r h1 (right_root b) nr).
  { by eapply (side_ok_frame_other RD LD). }
  { by rewrite <- Hperm. }
  intros h2 rt2 Hok2' Hf2 _.
  wp_member. simpl.
  assert (Hk1 : kept LD RD h h1) by apply (kept_frame1 LD RD _ _ _ Hf1).
  assert (Hk12 : kept LD RD h1 h2) by apply (kept_frame2 LD RD _ _ _ Hf2).
  assert (Hk2 : kept LD RD h h2) by apply (kept_trans LD RD _ _ _ Hk1 Hk12).
  destruct Hk2 as (Hdom2 & HkL & HkR).
  assert (Hok1'' : side_ok LD (left_compare b) h2 rt1 nl).
  { by eapply (side_ok_frame_other LD RD). }
  apply wp_bind, wp_lift, wp_new_node. intros n Hn.
  assert (Hnl : n ∉ nl).
  { intros Hin. destruct (side_ok_alive LD _ h2 _ _ n Hok1'' Hin). congruence. }
  assert (Hnr : n ∉ nr) by (by rewrite <- Hperm).
  assert (Hkeep3 : ∀ p, p ≠ n → <[n := node_new l r]> h2 !! p = h2 !! p).
  { intros p Hp. by rewrite lookup_insert_ne. }
  wp_member. simpl. apply wp_bind.
  eapply (wp_insert_node LD (left_compare b) fuel ref_left_root n l
            (<[n := node_new l r]> h2) _ nl).
  { simpl. by apply side_ok_alloc. }
  { done. }
  { unfold lk. by rewrite lookup_fmap, lookup_insert_eq. }
  { unfold key. by rewrite lookup_insert_eq. }
  { apply Forall_forall. intros p Hp. unfold key.
    rewrite Hkeep3 by (by intros ->).
    eapply Forall_forall in Hbelow as (a & Ha & Hal); [|exact Hp].
    fold (key LD h2 p). rewrite HkL, Ha. intros [= ->].
    by rewrite compare_irrefl in Hal. }
  { done. }
  intros h4 s1 s2 E Hok4 Hf4. simpl.
  assert (Hk34 : kept LD RD (<[n := node_new l r]> h2) h4)
    by apply (kept_frame1 LD RD _ _ _ Hf4).
  assert (Hs2 : s2 = []).
  { destruct s2 as [|y s2]; [done|]. exfalso.
    destruct Hok4 as (_ & _ & _ & _ & _ & Hso).
    apply StronglySorted_app_1_r in Hso. apply StronglySorted_inv in Hso as [_ Hy].
    apply Forall_cons in Hy as [(a & c & Ha & Hc & Hac) _].
    destruct Hk34 as (_ & HkL4 & _). rewrite HkL4 in Ha, Hc. unfold key in Ha, Hc.
    rewrite lookup_insert_eq in Ha. simpl in Ha. injection Ha as <-.
    assert (Hy : y ∈ nl) by (rewrite E; mem).
    rewrite Hkeep3 in Hc by (by intros ->). fold (key LD h2 y) in Hc.
    rewrite HkL in Hc.
    eapply Forall_forall in Hbelow as (c' & Hc' & Hcl); [|exact Hy].
    rewrite Hc in Hc'. injection Hc' as <-.
    by rewrite (compare_asym _ _ _ Hcl) in Hac. }
  subst s2. rewrite app_nil_r in E. subst s1.
  apply wp_bind.
  eapply (wp_insert_node RD (right_compare b) fuel ref_right_root n r h4 _ nr).
  { simpl. eapply (side_ok_frame_other RD LD); [exact Hf4|]. by apply side_ok_alloc. }
  { done. }
  { unfold lk. rewrite (frame_other LD RD _ _ h4 Hf4).
    by rewrite lookup_fmap, lookup_insert_eq. }
  { unfold key. rewrite (frame_other_value LD RD _ _ h4 n Hf4).
    by rewrite lookup_insert_eq. }
  { apply Forall_forall. intros p Hp. unfold key.
    rewrite (frame_other_value LD RD _ _ h4 p Hf4).
    rewrite Hkeep3 by (by intros ->). fold (key RD h2 p). rewrite HkR.
    rewrite <- Hperm in Hp. eapply Forall_forall in HabsR; [exact HabsR|done]. }
  { by rewrite <- Hperm. }
  intros h5 s1' s2' E' Hok5 Hf5. simpl.
  assert (Hk35 : kept LD RD (<[n := node_new l r]> h2) h5).
  { eapply kept_trans; [exact Hk34|apply (kept_frame2 LD RD _ _ _ Hf5)]. }
  destruct Hk35 as (Hdom5 & HkL5 & HkR5).
  apply (HQ h5 n (Some n) (Some n) (s1' ++ n :: s2')).
  - split_and!.
    + apply not_elem_of_dom. rewrite <- Hdom2. by apply not_elem_of_dom.
    + rewrite Hdom5, dom_insert_L. by rewrite Hdom2.
    + rewrite HkL5. unfold key. by rewrite lookup_insert_eq.
    + rewrite HkR5. unfold key. by rewrite lookup_insert_eq.
    + intros p Hp. rewrite HkL5, HkR5. unfold key at 1 3.
      rewrite Hkeep3 by done. split; [apply HkL|apply HkR].
  - intros p Hp Hpn.
    destruct Hf5 as [_ Ho5]. destruct Hf4 as [_ Ho4].
    destruct Hf2 as [_ Ho2]. destruct Hf1 as [_ Ho1].
    assert (Hpr : p ∉ nr) by (by rewrite <- Hperm).
    assert (Hp1 : p ∉ n :: nl) by (intros [->|?]%elem_of_cons; done).
    assert (Hp2 : p ∉ n :: nr) by (intros [->|?]%elem_of_cons; done).
    by rewrite (Ho5 p Hp2), (Ho4 p Hp1), (Hkeep3 p Hpn), (Ho2 p Hpr), (Ho1 p Hp).
  - by eapply (side_ok_frame_other LD RD).
  - done.
  - etrans; [apply Permutation_app_comm|]. simpl.
    etrans; [|apply Permutation_middle]. rewrite <- E'. by constructor.
Qed.

Lemma contents_elem_of h (s : list ptr) p :
  p ∈ s → is_Some (h !! p) →
  ∃ l r, key LD h p = Some l ∧ key RD h p = Some r ∧ (l, r) ∈ contents h s.
Proof.
  intros Hp Ha. destruct (entry_alive h p Ha) as (l & r & He & Hl & Hr).
  exists l, r. split_and!; [done..|]. unfold contents.
  apply list_elem_of_omap. by exists p.
Qed.

Lemma contents_elem_inv h (s : list ptr) l r :
  (l, r) ∈ contents h s →
  ∃ q, q ∈ s ∧ key LD h q = Some l ∧ key RD h q = Some r.
Proof.
  unfold contents. intros (q & Hq & He)%list_elem_of_omap.
  exists q. split; [done|]. by apply entry_Some.
Qed.

(** The loop of the copy constructor: the records [rest] of the source
    are still to be copied, those in [done] have been. *)
Lemma wp_copy_loop other_addr fuel (other : bimap Left Right) so' :
  ∀ rest n done nl nr h b Q,
  bimap_inv h other (done ++ rest) so' →
  left_compare b = left_compare other → right_compare b = right_compare other →
  side_ok LD (left_compare b) h (left_root b) nl →
  side_ok RD (right_compare b) h (right_root b) nr →
  nl ≡ₚ nr →
  (∀ p, p ∈ nl → p ∉ done ++ rest) →
  contents h nl = contents h done →
  length nl = length done →
  length (done ++ rest) ≤ fuel → length rest ≤ n →
  (∀ h' b' ext nr',
      left_compare b' = left_compare other →
      right_compare b' = right_compare other →
      elements_count b' = elements_count b →
      side_ok LD (left_compare b') h' (left_root b') (nl ++ ext) →
      side_ok RD (right_compare b') h' (right_root b') nr' →
      nl ++ ext ≡ₚ nr' →
      (∀ p, p ∈ done ++ rest → h' !! p = h !! p) →
      (∀ p, p ∈ ext → p ∉ dom h) →
      dom h' = dom h ∪ list_to_set ext →
      contents h' (nl ++ ext) = contents h (done ++ rest) →
      length (nl ++ ext) = length (done ++ rest) →
      Q tt (h', b')) →
  wp (copy_loop other_addr fuel n (Iterator LD RD other_addr (head rest)))
     (h, b) Q.
Proof.
  induction rest as [|x rest IH];
    intros n done nl nr h b Q Hsrc Hcl Hcr Hok1 Hok2 Hperm Hdisj Hcont Hlen
      Hfuel Hn HQ.
  - destruct n; simpl; unfold end_left; rewrite iterator_ne_same; apply wp_ret';
      (apply (HQ h b [] nr); rewrite ?app_nil_r; try done; [set_solver..]).
  - destruct n as [|n]; [simpl in Hn; lia|].
    pose proof Hsrc as (Hst1 & Hst2 & Hso1 & Hso2 & Hsperm & _).
    pose proof (inv_nodup _ _ _ _ Hsrc) as Hnd.
    assert (Hxs : x ∈ done ++ x :: rest) by mem.
    destruct (entry_alive h x (inv_alive _ _ _ _ x Hsrc Hxs))
      as (lx & rx & Hex & Hlx & Hrx).
    assert (Halive : ∀ p, p ∈ nl → is_Some (h !! p)).
    { intros p Hp. by apply (side_ok_alive LD _ h _ _ p Hok1). }
    assert (Hfrom : ∀ p, p ∈ nl → ∃ q l r, q ∈ done ∧
              key LD h p = Some l ∧ key RD h p = Some r ∧
              key LD h q = Some l ∧ key RD h q = Some r).
    { intros p Hp.
      destruct (contents_elem_of h nl p Hp (Halive p Hp)) as (l & r & Hl & Hr & Hin).
      rewrite Hcont in Hin. apply contents_elem_inv in Hin as (q & Hq & HqL & HqR).
      by exists q, l, r. }
    cbn [copy_loop head]. unfold end_left. rewrite iterator_ne_node by done.
    apply wp_bind, wp_lift. unfold star. simpl node. wp_read Hlx.
    apply wp_bind, wp_lift. wp_read Hrx.
    rewrite <- Hcl in Hst1. rewrite <- Hcr in Hst2.
    apply (wp_copy_step fuel lx rx h b nl nr
             (λ _, it' ← lift (increment LD RD fuel
                                 (Iterator LD RD other_addr (Some x)));
                   copy_loop other_addr fuel n it')); try done.
    { rewrite Hlen. rewrite length_app in Hfuel. lia. }
    { apply Forall_forall. intros p Hp.
      destruct (Hfrom p Hp) as (q & l & r & Hq & HpL & _ & HqL & _).
      exists l. split; [done|].
      destruct Hso1 as (_ & _ & _ & _ & _ & Hsorted).
      pose proof (StronglySorted_app_1_elem_of _ _ _ q x Hsorted Hq ltac:(mem))
        as (a & c & Ha & Hc & Hac).
      rewrite Hcl. congruence. }
    { apply Forall_forall. intros p Hp.
      destruct (Hfrom p Hp) as (q & l & r & Hq & _ & HpR & _ & HqR).
      rewrite HpR. intros [= ->].
      assert (q = x) as ->.
      { apply (inv_right_inj h other _ _ q x rx Hsrc); [mem|mem|done..]. }
      apply NoDup_app in Hnd as (_ & Hd & _). apply (Hd x Hq). mem. }
    intros h1 m rt1 rt2 nr1 Hg Hout Hok1' Hok2' Hperm'.
    pose proof Hg as (Hm & Hdom1 & HmL & HmR & Hkeys).
    assert (Hms : m ∉ done ++ x :: rest).
    { intros Hin. destruct (inv_alive _ _ _ _ m Hsrc Hin). congruence. }
    assert (Hsame : ∀ p, p ∈ done ++ x :: rest → h1 !! p = h !! p).
    { intros p Hp. apply Hout; [|by intros ->]. intros Hpn. by apply (Hdisj p). }
    destruct (inv_same h h1 other _ _ Hsame Hsrc) as [Hsrc1 Hsc1].
    pose proof Hsrc1 as (_ & _ & Hso1' & _).
    destruct (side_walk LD _ fuel h1 _ _ Hso1' ltac:(lia)) as (_ & _ & Hw).
    pose proof (Hw done x rest eq_refl) as Hnext.
    apply wp_bind, wp_lift. eapply wp_run.
    { unfold increment, mbind, M_bind, bind. simpl. by rewrite Hnext. }
    assert (Hmnl : m ∉ nl).
    { intros Hin. destruct (Halive m Hin). congruence. }
    assert (Hcn : contents h1 (nl ++ [m]) = contents h1 (done ++ [x])).
    { rewrite !contents_app.
      rewrite (contents_same h h1 nl).
      2:{ intros p Hp. apply Hkeys. by intros ->. }
      rewrite (contents_same h h1 done).
      2:{ intros p Hp. unfold key. rewrite Hsame; [done|mem]. }
      rewrite Hcont. f_equal.
      rewrite (contents_cons h1 m [] (lx, rx)) by (by apply entry_Some).
      rewrite (contents_cons h1 x [] (lx, rx)); [done|].
      apply entry_Some. unfold key. rewrite Hsame by done. done. }
    assert (E3 : (done ++ [x]) ++ rest = done ++ x :: rest)
      by (by rewrite <- app_assoc).
    assert (E4 : ∀ ext, (nl ++ [m]) ++ ext = nl ++ m :: ext)
      by (intros ext; by rewrite <- app_assoc).
    rewrite <- E3 in Hsrc1.
    apply (IH n (done ++ [x]) (nl ++ [m]) nr1 h1 _ Q); try done.
    + intros p Hp. rewrite E3.
      apply elem_of_app in Hp as [Hp|Hp]; [by apply Hdisj|].
      apply list_elem_of_singleton in Hp as ->. done.
    + rewrite !length_app. simpl. lia.
    + by rewrite E3.
    + simpl in Hn. lia.
    + intros h2 b2 ext nr2 Hcl2 Hcr2 Hcnt2 Hok1'' Hok2'' Hperm2 Hsame2 Hfresh2
        Hdom2 Hcont2 Hlen2.
      rewrite E4 in Hok1'', Hperm2, Hcont2, Hlen2.
      rewrite E3 in Hsame2, Hcont2, Hlen2. simpl in Hcnt2.
      apply (HQ h2 b2 (m :: ext) nr2); try done.
      * intros p Hp. rewrite Hsame2 by done. by apply Hsame.
      * intros p [->|Hp]%elem_of_cons; [by apply not_elem_of_dom|].
        intros Hin. apply (Hfresh2 p Hp). rewrite Hdom1. set_solver.
      * rewrite Hdom2, Hdom1. set_solver.
      * by rewrite Hcont2, Hsc1.
Qed.

(** Property X14.
    The copy constructor, run on a source that is not empty, allocates
    one new record per pair and returns a container that holds the pairs
    of the source in the same Left order, with the same comparators and
    size; the source and its records are untouched.  On an empty source
    it reads through the null root of [begin_left()]: no defined
    result. *)
Theorem copy_spec other_addr fuel n h other so so' :
  bimap_inv h other so so' → length so ≤ fuel → length so ≤ n →
  (so = [] → bimap_copy other_addr fuel n other h = None) ∧
  (so ≠ [] →
     ∃ b' h' nl nr,
       bimap_copy other_addr fuel n other h = Some (b', h') ∧
       bimap_inv h' b' nl nr ∧ contents h' nl = contents h so ∧
       size b' = size other ∧
       left_compare b' = left_compare other ∧
       right_compare b' = right_compare other ∧
       (∀ p, p ∈ nl → p ∉ dom h) ∧ dom h' = dom h ∪ list_to_set nl ∧
       bimap_inv h' other so so' ∧ contents h' so = contents h so).
Proof.
  intros Hsrc Hfuel Hn.
  pose proof Hsrc as (Hst1 & Hst2 & Hso1 & Hso2 & Hsperm & Hcnt & Hbound).
  destruct (side_walk LD _ fuel h _ _ Hso1 ltac:(lia)) as (Hfirst & Hnone & _).
  split.
  - intros ->. destruct (Hnone eq_refl) as [Hs _].
    unfold bimap_copy, begin_left, mbind, M_bind, bind. by rewrite Hs.
  - intros Hne. destruct (Hfirst Hne) as [Hs _].
    pose (init := Bimap None None (left_compare other) (right_compare other)
                    (elements_count other)).
    assert (Hwp : wp (copy_loop other_addr fuel n
                        (Iterator LD RD other_addr (head so))) (h, init)
      (λ _ st, ∃ nl nr,
         bimap_inv st.1 st.2 nl nr ∧ contents st.1 nl = contents h so ∧
         size st.2 = size other ∧
         left_compare st.2 = left_compare other ∧
         right_compare st.2 = right_compare other ∧
         (∀ p, p ∈ nl → p ∉ dom h) ∧ dom st.1 = dom h ∪ list_to_set nl ∧
         bimap_inv st.1 other so so' ∧ contents st.1 so = contents h so)).
    { apply (wp_copy_loop other_addr fuel other so' so n [] [] [] h init).
      - done.
      - done.
      - done.
      - exists Leaf. split_and!; try done; constructor.
      - exists Leaf. split_and!; try done; constructor.
      - done.
      - by intros p ?%elem_of_nil.
      - done.
      - done.
      - done.
      - done.
      - intros h' b' ext nr' Hcl Hcr Hc Hok1 Hok2 Hperm Hsame Hfresh Hdom
          Hcont Hlen.
        simpl in *. exists ext, nr'.
        destruct (inv_same h h' other so so' Hsame Hsrc) as [Hsrc' Hsc'].
        split_and!; try done.
        + split_and!; try done; [by rewrite Hcl|by rewrite Hcr|..].
          * rewrite Hc, Hcnt. by rewrite Hlen.
          * by rewrite Hlen.
        }
    destruct Hwp as ([] & [h' b'] & Hrun & nl & nr & HQ).
    exists b', h', nl, nr. split; [|done].
    unfold bimap_copy, begin_left, mbind, M_bind, bind. rewrite Hs.
    unfold ret. fold init. by rewrite Hrun.
Qed.
End whole_container_specs.

(** ** The tree algorithms on one side *)

Section engine_specs.
Context {Left Right V : Type} `{EqDecision V}.
Context (d : descriptor Left Right V) `{!DescriptorLaws d}.
Context (compare : V → V → bool) `{!StrictTotal compare}.

Implicit Types (h : gmap ptr (node_t Left Right)) (t : shape).

(** Property X15.
    [splay(x)] on a record of a tree returns [x], which is then the
    root; the records are in the same order as before, and nothing but
    the links of this side in the records of the tree is written.
    [splay(nullptr)] returns null. *)
Theorem splay_spec fuel h t x :
  trep (lk d h) None t → NoDup (inorder t) → x ∈ inorder t →
  length (inorder t) ≤ fuel →
  splay d fuel None h = Some (None, h) ∧
  ∃ h' l r,
    splay d fuel (Some x) h = Some (Some x, h') ∧
    trep (lk d h') None (Node l x r) ∧
    inorder (Node l x r) = inorder t ∧
    frame d (inorder t) h h'.
Proof.
  intros Ht Hnd Hx Hfuel. split; [done|].
  destruct (wp_splay d fuel h t x
              (λ res h', res = Some x ∧ ∃ l r,
                 trep (lk d h') None (Node l x r) ∧
                 inorder (Node l x r) = inorder t ∧
                 frame d (inorder t) h h'))
    as (res & h' & Hrun & -> & l & r & HQ); [done..| |].
  - intros h' l r ? ? ?. split; [done|]. by exists l, r.
  - by exists h', l, r.
Qed.

(** Property X16.
    [rotate_left(x, p)], for [x] the right child of [p], puts [x] in the
    place of [p] with [p] as its left child; [rotate_right(p, x)] then
    puts the tree back into the shape it had.  Both keep the order of
    the records and write nothing but links of this side in records of
    the tree. *)
Theorem rotate_spec h a x b l p c :
  trep (lk d h) None (plug (Node a x b) (RightOf l p :: c)) →
  NoDup (inorder (plug (Node a x b) (RightOf l p :: c))) →
  ∃ h1 h2,
    rotate_left d (Some x) (Some p) h = Some (Some x, h1) ∧
    trep (lk d h1) None (plug (Node (Node l p a) x b) c) ∧
    inorder (plug (Node (Node l p a) x b) c)
    = inorder (plug (Node a x b) (RightOf l p :: c)) ∧
    rotate_right d (Some p) (Some x) h1 = Some (Some p, h2) ∧
    trep (lk d h2) None (plug (Node a x b) (RightOf l p :: c)) ∧
    frame d (inorder (plug (Node a x b) (RightOf l p :: c))) h h2.
Proof.
  intros Ht Hnd.
  assert (E : inorder (plug (Node (Node l p a) x b) c)
              = inorder (plug (Node a x b) (RightOf l p :: c))).
  { rewrite !inorder_plug. simpl. by rewrite <- !app_assoc. }
  destruct (wp_rotate_left d h a x b l p c
              (λ res h1, res = Some x ∧
                 trep (lk d h1) None (plug (Node (Node l p a) x b) c) ∧
                 frame d (inorder (plug (Node a x b) (RightOf l p :: c))) h h1))
    as (res & h1 & Hrun & -> & Ht1 & Hf1); [done..| |].
  { intros h' ? ?. by split_and!. }
  change (plug (Node (Node l p a) x b) c)
    with (plug (Node l p a) (LeftOf x b :: c)) in Ht1, E.
  destruct (wp_rotate_right d h1 l p a b x c
              (λ res h2, res = Some p ∧
                 trep (lk d h2) None (plug (Node l p (Node a x b)) c) ∧
                 frame d (inorder (plug (Node l p a) (LeftOf x b :: c))) h1 h2))
    as (res & h2 & Hrun2 & -> & Ht2 & Hf2); [done|by rewrite E| |].
  { intros h' ? ?. by split_and!. }
  rewrite E in Hf2.
  exists h1, h2. split_and!; try done. by eapply (frame_trans d).
Qed.


(** Property X18.
    [split(t, x)] cuts the tree into the records whose value [x] is not
    less than and those it is less than, each a well-formed tree, in the
    same order; [merge] of the two puts the records back into one tree
    in the order they were in. *)
Theorem split_merge_spec fuel x h rt s :
  side_ok d compare h rt s → length s ≤ fuel →
  ∃ ra rb h1 sa sb rt' h2,
    split d compare fuel rt x h = Some ((ra, rb), h1) ∧
    s = sa ++ sb ∧
    side_ok d compare h1 ra sa ∧ side_ok d compare h1 rb sb ∧
    Forall (not_above d compare h x) sa ∧
    Forall (above d compare h x) sb ∧
    merge d compare fuel ra rb h1 = Some (rt', h2) ∧
    side_ok d compare h2 rt' s ∧ frame d s h h2.
Proof.
  intros (t & Ht & <- & <- & Hnd & Hso) Hfuel.
  destruct (wp_split d compare fuel x t h
              (λ res h1, ∃ ta tb, res = (root ta, root tb) ∧
                 trep (lk d h1) None ta ∧ trep (lk d h1) None tb ∧
                 inorder ta ++ inorder tb = inorder t ∧
                 Forall (not_above d compare h x) (inorder ta) ∧
                 Forall (above d compare h x) (inorder tb) ∧
                 frame d (inorder t) h h1))
    as (res & h1 & Hrun & ta & tb & -> & Hta & Htb & E & Hna & Hab & Hf1);
    [done..| |].
  { intros h' ta tb ? ? ? ? ? ?. by exists ta, tb. }
  assert (Hso1 : StronglySorted (plt d compare h1) (inorder ta ++ inorder tb)).
  { rewrite E. by eapply (sorted_frame d). }
  destruct (wp_merge d compare fuel ta tb h1
              (λ res h2, ∃ t', res = root t' ∧ trep (lk d h2) None t' ∧
                 inorder t' = inorder ta ++ inorder tb ∧
                 frame d (inorder ta ++ inorder tb) h1 h2))
    as (res & h2 & Hrun2 & t' & -> & Ht' & E' & Hf2);
    [done|done|by rewrite E|done| | |].
  { rewrite <- E, length_app in Hfuel. lia. }
  { intros h' t' ? ? ? ?. by exists t'. }
  rewrite E in Hf2.
  exists (root ta), (root tb), h1, (inorder ta), (inorder tb), (root t'), h2.
  rewrite <- E in Hnd.
  split_and!; try done.
  - exists ta. split_and!; try done.
    + by apply NoDup_app in Hnd as (? & _ & _).
    + by apply StronglySorted_app_1_l in Hso1.
  - exists tb. split_and!; try done.
    + by apply NoDup_app in Hnd as (_ & _ & ?).
    + by apply StronglySorted_app_1_r in Hso1.
  - exists t'. split_and!; [done|done|by rewrite E', E|by rewrite <- E|].
    rewrite <- E. by eapply (sorted_frame d).
  - by eapply (frame_trans d).
Qed.
End engine_specs.

(** ** Order of iteration, size *)

Section order_specs.
Context {Left Right : Type} `{EqDecision Left, EqDecision Right}.

Abbreviation LD := (@left_descriptor_t Left Right).
Abbreviation RD := (@right_descriptor_t Left Right).

Implicit Types (h : gmap ptr (node_t Left Right)) (b : bimap Left Right).



Lemma bimap_new_inv lc rc h :
  StrictTotal lc → StrictTotal rc → bimap_inv h (bimap_new lc rc) [] [].
Proof.
  intros Hlc Hrc. split_and!; try done.
  - exists Leaf. split_and!; try done; constructor.
  - exists Leaf. split_and!; try done; constructor.
Qed.

End order_specs.

(** ** The properties above on the container of (1, 20) and (2, 10) *)

Lemma start_inv : bimap_inv two_heap (bimap_new Z.ltb Z.ltb) [] [].
Proof. apply bimap_new_inv; apply _. Qed.

Lemma two_left_ok :
  side_ok LDz Z.ltb two_heap (Some 2%positive) [1; 2]%positive.
Proof. by destruct two_inv as (_ & _ & ? & _). Qed.

Lemma two_left_tree :
  trep (lk LDz two_heap) None
    (Node (Node Leaf 1%positive Leaf) 2%positive Leaf).
Proof. by split_and!. Qed.

(** The first records of the container of (1, 20) and (2, 10). *)
Lemma begin_spec_witness :
  begin_left 1%positive 2 two_bimap two_heap
    = Some (Iterator LDz RDz 1%positive (head [1; 2]%positive), two_heap) ∧
  begin_right 1%positive 2 two_bimap two_heap
    = Some (Iterator RDz LDz 1%positive (head [2; 1]%positive), two_heap) ∧
  is_Some (head [1; 2]%positive) ∧ is_Some (head [2; 1]%positive).
Proof.
  apply (begin_spec 1%positive 2 two_heap two_bimap [1; 2]%positive
           [2; 1]%positive).
  - exact two_inv.
  - simpl. lia.
  - done.
Defined.

(** The cursors of an empty container of integers. *)
Lemma begin_of_empty_undefined_witness :
  begin_left 1%positive 2 (bimap_new Z.ltb Z.ltb) two_heap = None ∧
  begin_right 1%positive 2 (bimap_new Z.ltb Z.ltb) two_heap = None.
Proof.
  apply (begin_of_empty_undefined 1%positive 2 two_heap (bimap_new Z.ltb Z.ltb)).
  - exact start_inv.
Defined.

(** Stepping through the container of (1, 20) and (2, 10). *)
Lemma step_spec_witness :
  (∀ s1 p s2, [1; 2]%positive = s1 ++ p :: s2 →
     increment LDz RDz 2 (Iterator LDz RDz 1%positive (Some p)) two_heap
     = Some (Iterator LDz RDz 1%positive (head s2), two_heap)) ∧
  (∀ s1 p s2, [2; 1]%positive = s1 ++ p :: s2 →
     increment RDz LDz 2 (Iterator RDz LDz 1%positive (Some p)) two_heap
     = Some (Iterator RDz LDz 1%positive (head s2), two_heap)) ∧
  increment LDz RDz 2 (end_left 1%positive) two_heap = None ∧
  increment RDz LDz 2 (end_right 1%positive) two_heap = None.
Proof.
  apply (step_spec 1%positive 2 two_heap two_bimap [1; 2]%positive [2; 1]%positive).
  - exact two_inv.
  - simpl. lia.
Defined.




(** Erasing the pair (1, 20) and looking for its two values. *)
Lemma erase_then_find_spec_witness :
  ∃ s1 s2 s3,
    erase_left_key 2 1%Z (two_heap, two_bimap) = Some (true, s1) ∧
    find_left 1%positive 2 1%Z s1 = Some (end_left 1%positive, s2) ∧
    find_right 1%positive 2 20%Z s2 = Some (end_right 1%positive, s3) ∧
    size s3.2 = (size two_bimap - 1)%Z.
Proof.
  apply (erase_then_find_spec 1%positive 2 two_heap two_bimap [1; 2]%positive
           [2; 1]%positive 1%Z 20%Z).
  - exact two_inv.
  - simpl. lia.
  - apply (bool_decide_unpack _). vm_compute. exact I.
Defined.

(** Inserting (3, 30) into the container of (1, 20) and (2, 10). *)
Lemma insert_then_at_spec_witness :
  ∃ it s1 s2 s3,
    insert 1%positive 3 3%Z 30%Z (two_heap, two_bimap) = Some (it, s1) ∧
      it ≠ end_left 1%positive ∧
    at_left 3 3%Z s1 = Some (Returned 30%Z, s2) ∧
    at_right 3 30%Z s2 = Some (Returned 3%Z, s3) ∧
    size s3.2 = (size two_bimap + 1)%Z ∧
    (∀ r', ∃ s4, insert 1%positive 3 3%Z r' s3 = Some (end_left 1%positive, s4) ∧
                 size s4.2 = size s3.2) ∧
    (∀ l', ∃ s4, insert 1%positive 3 l' 30%Z s3 = Some (end_left 1%positive, s4) ∧
                 size s4.2 = size s3.2).
Proof.
  apply (insert_then_at_spec 1%positive 3 two_heap two_bimap [1; 2]%positive
           [2; 1]%positive 3%Z 30%Z).
  - exact two_inv.
  - simpl. lia.
  - vm_compute. reflexivity.
  - apply (bool_decide_unpack _). vm_compute. exact I.
  - apply (bool_decide_unpack _). vm_compute. exact I.
Defined.



(** Comparing the container of (1, 20) and (2, 10) with itself. *)
Lemma eq_spec_witness :
  (size two_bimap ≠ size two_bimap →
     bimap_eq 1%positive 2%positive 2 2 two_bimap two_bimap two_heap
       = Some (false, two_heap) ∧
     bimap_ne 1%positive 2%positive 2 2 two_bimap two_bimap two_heap
       = Some (true, two_heap)) ∧
  (size two_bimap = size two_bimap → [1; 2]%positive ≠ [] →
     bimap_eq 1%positive 2%positive 2 2 two_bimap two_bimap two_heap
     = Some (bool_decide ((contents two_heap [1; 2]%positive).*1
       = (contents two_heap [1; 2]%positive).*1), two_heap) ∧
     bimap_ne 1%positive 2%positive 2 2 two_bimap two_bimap two_heap
     = Some (negb (bool_decide ((contents two_heap [1; 2]%positive).*1
       = (contents two_heap [1; 2]%positive).*1)), two_heap)).
Proof.
  apply (eq_spec 1%positive 2%positive 2 2 two_heap two_bimap two_bimap
           [1; 2]%positive [2; 1]%positive [1; 2]%positive [2; 1]%positive).
  - exact two_inv.
  - exact two_inv.
  - simpl. lia.
  - simpl. lia.
  - simpl. lia.
Defined.

(** Destroying the container of (1, 20) and (2, 10). *)
Lemma destroy_spec_witness :
  ∃ h',
    bimap_destroy 2 two_bimap two_heap = Some (tt, h') ∧
    dom h' = dom two_heap ∖ list_to_set [1; 2]%positive ∧
    (∀ p, p ∉ [1; 2]%positive → h' !! p = two_heap !! p) ∧
    (∀ b2 s2 s2',
       bimap_inv two_heap b2 s2 s2' → (∀ p, p ∈ s2 → p ∉ [1; 2]%positive) →
       bimap_inv h' b2 s2 s2' ∧ contents h' s2 = contents two_heap s2).
Proof.
  apply (destroy_spec 2 two_heap two_bimap [1; 2]%positive [2; 1]%positive).
  - exact two_inv.
  - simpl. lia.
Defined.

(** The copy constructor run on the container of (1, 20) and (2, 10). *)
Lemma two_copy :
  bimap_copy 1%positive 2 2 two_bimap two_heap = Some (copy_bimap, four_heap).
Proof. vm_compute. reflexivity. Qed.

Lemma four_inv_this : bimap_inv four_heap two_bimap [1; 2]%positive [2; 1]%positive.
Proof.
  split_and!.
  - apply _.
  - apply _.
  - exists (Node (Node Leaf 1%positive Leaf) 2%positive Leaf).
    split_and!; try done.
    + apply NoDup_cons. split; [by intros ?%list_elem_of_singleton|]. apply NoDup_singleton.
    + repeat constructor. by exists 1%Z, 2%Z.
  - exists (Node Leaf 2%positive (Node Leaf 1%positive Leaf)).
    split_and!; try done.
    + apply NoDup_cons. split; [by intros ?%list_elem_of_singleton|]. apply NoDup_singleton.
    + repeat constructor. by exists 10%Z, 20%Z.
  - apply perm_swap.
  - done.
  - done.
Qed.

Lemma four_inv_copy : bimap_inv four_heap copy_bimap [3; 4]%positive [4; 3]%positive.
Proof.
  split_and!.
  - apply _.
  - apply _.
  - exists (Node (Node Leaf 3%positive Leaf) 4%positive Leaf).
    split_and!; try done.
    + apply NoDup_cons. split; [by intros ?%list_elem_of_singleton|]. apply NoDup_singleton.
    + repeat constructor. by exists 1%Z, 2%Z.
  - exists (Node Leaf 4%positive (Node Leaf 3%positive Leaf)).
    split_and!; try done.
    + apply NoDup_cons. split; [by intros ?%list_elem_of_singleton|]. apply NoDup_singleton.
    + repeat constructor. by exists 10%Z, 20%Z.
  - apply perm_swap.
  - done.
  - done.
Qed.

Lemma four_apart : ∀ p : ptr, p ∈ [3; 4]%positive → p ∉ [1; 2]%positive.
Proof. intros p Hp Hq. set_solver. Qed.

(** The container of (1, 20) and (2, 10) assigned to itself: the argument,
    passed by value, is the copy that the copy constructor makes of it,
    the records 3 and 4; the assignment frees the records 1 and 2. *)
Lemma assign_spec_witness :
  bimap_copy 1%positive 2 2 two_bimap two_heap = Some (copy_bimap, four_heap) ∧
  ∃ h',
    assign 2 two_bimap copy_bimap four_heap = Some (copy_bimap, h') ∧
    dom h' = dom four_heap ∖ list_to_set [1; 2]%positive ∧
    bimap_inv h' copy_bimap [3; 4]%positive [4; 3]%positive ∧
    contents h' [3; 4]%positive = contents four_heap [3; 4]%positive.
Proof.
  split; [vm_compute; reflexivity|].
  apply (assign_spec 2 four_heap two_bimap copy_bimap [1; 2]%positive
           [2; 1]%positive [3; 4]%positive [4; 3]%positive).
  - exact four_inv_this.
  - exact four_inv_copy.
  - exact four_apart.
  - simpl. lia.
Defined.

(** Copying the container of (1, 20) and (2, 10). *)
Lemma copy_spec_witness :
  ([1; 2]%positive = [] → bimap_copy 1%positive 2 2 two_bimap two_heap = None) ∧
  ([1; 2]%positive ≠ [] →
     ∃ b' h' nl nr,
       bimap_copy 1%positive 2 2 two_bimap two_heap = Some (b', h') ∧
       bimap_inv h' b' nl nr ∧ contents h' nl = contents two_heap [1; 2]%positive ∧
       size b' = size two_bimap ∧
       left_compare b' = left_compare two_bimap ∧
       right_compare b' = right_compare two_bimap ∧
       (∀ p, p ∈ nl → p ∉ dom two_heap) ∧ dom h' = dom two_heap ∪ list_to_set nl ∧
       bimap_inv h' two_bimap [1; 2]%positive [2; 1]%positive ∧
         contents h' [1; 2]%positive = contents two_heap [1; 2]%positive).
Proof.
  apply (copy_spec 1%positive 2 2 two_heap two_bimap [1; 2]%positive [2; 1]%positive).
  - exact two_inv.
  - simpl. lia.
  - simpl. lia.
Defined.

(** Splaying the record of (1, 20) in the Left tree. *)
Lemma splay_spec_witness :
  splay LDz 2 None two_heap = Some (None, two_heap) ∧
  ∃ h' l r,
    splay LDz 2 (Some 1%positive) two_heap = Some (Some 1%positive, h') ∧
    trep (lk LDz h') None (Node l 1%positive r) ∧
    inorder (Node l 1%positive r)
      = inorder (Node (Node Leaf 1%positive Leaf) 2%positive Leaf) ∧
    frame LDz (inorder (Node (Node Leaf 1%positive Leaf) 2%positive Leaf)) two_heap h'.
Proof.
  apply (splay_spec LDz 2 two_heap (Node (Node Leaf 1%positive Leaf) 2%positive Leaf)
           1%positive).
  - exact two_left_tree.
  - apply (bool_decide_unpack _). vm_compute. exact I.
  - apply (bool_decide_unpack _). vm_compute. exact I.
  - simpl. lia.
Defined.

(** Rotating the record of (1, 20) above the root of the Right tree and back. *)
Lemma rotate_spec_witness :
  ∃ h1 h2,
    rotate_left RDz (Some 1%positive) (Some 2%positive) two_heap
      = Some (Some 1%positive, h1) ∧
    trep (lk RDz h1) None (plug (Node (Node Leaf 2%positive Leaf) 1%positive Leaf) []) ∧
    inorder (plug (Node (Node Leaf 2%positive Leaf) 1%positive Leaf) [])
    = inorder (plug (Node Leaf 1%positive Leaf) (RightOf Leaf 2%positive :: [])) ∧
    rotate_right RDz (Some 2%positive) (Some 1%positive) h1
      = Some (Some 2%positive, h2) ∧
    trep (lk RDz h2) None (plug (Node Leaf 1%positive Leaf) (RightOf Leaf 2%positive ::
        [])) ∧
    frame RDz (inorder (plug (Node Leaf 1%positive Leaf) (RightOf Leaf 2%positive ::
        []))) two_heap h2.
Proof.
  apply (rotate_spec RDz two_heap Leaf 1%positive Leaf Leaf 2%positive []).
  - by split_and!.
  - apply (bool_decide_unpack _). vm_compute. exact I.
Defined.


(** Splitting the Left tree at 1 and merging the parts. *)
Lemma split_merge_spec_witness :
  ∃ ra rb h1 sa sb rt' h2,
    split LDz Z.ltb 2 (Some 2%positive) 1%Z two_heap = Some ((ra, rb), h1) ∧
    [1; 2]%positive = sa ++ sb ∧
    side_ok LDz Z.ltb h1 ra sa ∧ side_ok LDz Z.ltb h1 rb sb ∧
    Forall (not_above LDz Z.ltb two_heap 1%Z) sa ∧
    Forall (above LDz Z.ltb two_heap 1%Z) sb ∧
    merge LDz Z.ltb 2 ra rb h1 = Some (rt', h2) ∧
    side_ok LDz Z.ltb h2 rt' [1; 2]%positive ∧ frame LDz [1; 2]%positive two_heap h2.
Proof.
  apply (split_merge_spec LDz Z.ltb 2 1%Z two_heap (Some 2%positive) [1; 2]%positive).
  - exact two_left_ok.
  - simpl. lia.
Defined.

